(** * A morphing holiday scene: arrangement state machine, layout and per-frame blending

    Shallow embedding of the TypeScript sources
    - [src/types.ts]                       (TreeState, PositionData, ParticleGroupConfig)
    - [App.tsx]                            (auto-play effect, toggleState)
    - [components/Scene.tsx]               (the nine group literals)
    - [components/MorphingGroup.tsx]       (layout generation, useFrame)
    - [components/TopStar.tsx], [Logo.tsx] (useFrame of the star and of a logo element)
    - [components/FloatingSnow.tsx]        (useFrame of the snow field)

    Conventions.
    - A JavaScript [number] is modelled as a real number: arithmetic is exact,
      rounding of the binary64 representation is not modelled.  The concrete
      inputs used below keep a wide margin, so rounding cannot change what
      they show.
    - Timer delays are milliseconds in [N]; timer handles are [positive]
      (browser handles are non-zero, hence truthy).
    - [Math.random()] reads the next entry of an explicit stream of draws.
    - React is modelled as far as the components rely on it: a state change
      re-renders, an effect is re-run (after its cleanup) when a dependency
      changed, [useMemo] recomputes when a dependency is not [Object.is]-equal
      to the one it was computed for, and a ref is null until the commit. *)

From Stdlib Require Import NArith ZArith PArith List Bool Lia.
From Stdlib Require String.
From Stdlib Require Import Reals Lra.
Import ListNotations.

Set Implicit Arguments.

(** ** types.ts *)

Inductive TreeState : Set := SCATTERED | TREE_SHAPE.

Definition TreeState_eqb (a b : TreeState) : bool :=
  match a, b with
  | SCATTERED, SCATTERED | TREE_SHAPE, TREE_SHAPE => true
  | _, _ => false
  end.

(** ** App.tsx: the arrangement state machine and its timers *)

Module App.

(** The two closures handed to [setTimeout]. *)
Inductive callback : Set :=
| SetTreeState (v : TreeState)      (* () => setTreeState(v) *)
| SetIsAutoMode (b : bool).         (* () => setIsAutoMode(b) *)

Record timer : Set := Timer {
  timer_id : positive;
  deadline : N;
  action   : callback
}.

(** React state of [App], the ref, the cleanup closure of the last effect run
    and the browser's table of pending timeouts. *)
Record state : Set := State {
  treeState    : TreeState;
  isAutoMode   : bool;
  idleTimerRef : option positive;     (* idleTimerRef.current, null = None *)
  cleanup      : option positive;     (* timeoutId captured by () => clearTimeout(timeoutId) *)
  timers       : list timer;          (* pending timeouts, in scheduling order *)
  next_id      : positive;
  now          : N
}.

Definition set_treeState v s :=
  State v (isAutoMode s) (idleTimerRef s) (cleanup s) (timers s) (next_id s) (now s).
Definition set_isAutoMode b s :=
  State (treeState s) b (idleTimerRef s) (cleanup s) (timers s) (next_id s) (now s).
Definition set_idleTimerRef r s :=
  State (treeState s) (isAutoMode s) r (cleanup s) (timers s) (next_id s) (now s).
Definition set_cleanup c s :=
  State (treeState s) (isAutoMode s) (idleTimerRef s) c (timers s) (next_id s) (now s).
Definition set_timers l s :=
  State (treeState s) (isAutoMode s) (idleTimerRef s) (cleanup s) l (next_id s) (now s).
Definition set_now t s :=
  State (treeState s) (isAutoMode s) (idleTimerRef s) (cleanup s) (timers s) (next_id s) t.

(** *** Browser timers *)

Definition setTimeout (cb : callback) (delay : N) (s : state) : positive * state :=
  let id := next_id s in
  (id, State (treeState s) (isAutoMode s) (idleTimerRef s) (cleanup s)
             (timers s ++ [Timer id (now s + delay) cb]) (Pos.succ id) (now s)).

Definition clearTimeout (id : positive) (s : state) : state :=
  set_timers (filter (fun t => negb (Pos.eqb (timer_id t) id)) (timers s)) s.

Definition pending (id : positive) (s : state) : bool :=
  existsb (fun t => Pos.eqb (timer_id t) id) (timers s).

(** *** The auto-play effect, [useEffect(..., [isAutoMode, treeState])] *)

Definition effect (s : state) : state :=
  if negb (isAutoMode s) then set_cleanup None s           (* if (!isAutoMode) return; *)
  else
    match treeState s with
    | TREE_SHAPE =>
        let (id, s') := setTimeout (SetTreeState SCATTERED) 8000 s in
        set_cleanup (Some id) s'
    | SCATTERED =>
        let (id, s') := setTimeout (SetTreeState TREE_SHAPE) 4000 s in
        set_cleanup (Some id) s'
    end.

Definition run_cleanup (s : state) : state :=
  match cleanup s with
  | Some id => clearTimeout id s
  | None => s
  end.

(** A render commits; the effect is re-run (after the cleanup of its previous
    run) exactly when one of its dependencies changed since the last render. *)
Definition rerender (prevAuto : bool) (prevTree : TreeState) (s : state) : state :=
  if Bool.eqb prevAuto (isAutoMode s) && TreeState_eqb prevTree (treeState s)
  then s
  else effect (run_cleanup s).

Definition flip (v : TreeState) : TreeState :=
  match v with TREE_SHAPE => SCATTERED | SCATTERED => TREE_SHAPE end.

(** *** [toggleState], the click handler *)

Definition toggleState (s : state) : state :=
  let s1 := set_treeState (flip (treeState s)) s in
  let s2 := set_isAutoMode false s1 in
  let s3 := match idleTimerRef s2 with
            | Some id => clearTimeout id s2
            | None => s2
            end in
  let (id, s4) := setTimeout (SetIsAutoMode true) 10000 s3 in
  let s5 := set_idleTimerRef (Some id) s4 in
  rerender (isAutoMode s) (treeState s) s5.

(** *** Timer callbacks and the passage of time *)

Definition run_callback (cb : callback) (s : state) : state :=
  let s' := match cb with
            | SetTreeState v => set_treeState v s
            | SetIsAutoMode b => set_isAutoMode b s
            end in
  rerender (isAutoMode s) (treeState s) s'.

(** The timeouts that are due are run in scheduling order; one that an
    earlier callback has cleared meanwhile is skipped. *)
Fixpoint fire_all (due : list timer) (s : state) : state :=
  match due with
  | [] => s
  | t :: rest =>
      let s' := if pending (timer_id t) s
                then run_callback (action t) (clearTimeout (timer_id t) s)
                else s in
      fire_all rest s'
  end.

Definition is_due (t0 : N) (t : timer) : bool := N.leb (deadline t) t0.

(** One millisecond passes. *)
Definition tick (s : state) : state :=
  let s1 := set_now (now s + 1) s in
  fire_all (filter (is_due (now s1)) (timers s1)) s1.

Definition advance (d : N) (s : state) : state := N.iter d tick s.

(** The state right after mounting: initial React state, then the effect. *)
Definition mount : state :=
  effect (State TREE_SHAPE true None None [] 1%positive 0%N).

Inductive event : Set := Click | Wait (d : N).

Definition step (s : state) (e : event) : state :=
  match e with
  | Click => toggleState s
  | Wait d => advance d s
  end.

Definition run (es : list event) : state := fold_left step es mount.

Inductive reachable : state -> Prop :=
| reach_mount : reachable mount
| reach_click s : reachable s -> reachable (toggleState s)
| reach_tick s : reachable s -> reachable (tick s).

(** *** Observations on the timer table *)

Definition is_transition (t : timer) : bool :=
  match action t with SetTreeState _ => true | SetIsAutoMode _ => false end.
Definition is_resume (t : timer) : bool :=
  match action t with SetIsAutoMode _ => true | SetTreeState _ => false end.

Definition pending_transitions (s : state) : nat :=
  length (filter is_transition (timers s)).
Definition pending_resumes (s : state) : nat :=
  length (filter is_resume (timers s)).

Definition dwell (v : TreeState) : N :=
  match v with TREE_SHAPE => 8000 | SCATTERED => 4000 end.

(** Automatic mode is active and its transition timer was scheduled at the
    current instant: a dwell period begins. *)
Definition dwell_begins (s : state) : Prop :=
  isAutoMode s = true /\
  exists t, timers s = [t] /\ is_transition t = true /\
            deadline t = (now s + dwell (treeState s))%N.

(** The two shapes a state of the running application has: automatic mode
    with the transition timer of the last effect run, or manual override
    with the idle timer of the last click. *)
Inductive shape : state -> Prop :=
| shape_auto v idle id d nid nw :
    (nw < d <= nw + dwell v)%N ->
    (id < nid)%positive ->
    (forall j, idle = Some j -> (j < id)%positive) ->
    shape (State v true idle (Some id) [Timer id d (SetTreeState (flip v))] nid nw)
| shape_manual v j d nid nw :
    (nw < d <= nw + 10000)%N ->
    (j < nid)%positive ->
    shape (State v false (Some j) None [Timer j d (SetIsAutoMode true)] nid nw).

End App.

(** ** The JavaScript runtime, as far as the components use it *)

Module JS.

Local Open Scope R_scope.

Inductive error : Set := TypeError.

(** Outcome of running a callback: it returns, or it throws. *)
Inductive completion (A : Type) : Type :=
| Normal (a : A)
| Throw (e : error).
Arguments Normal {A} a.
Arguments Throw {A} e.

Definition bind {A B} (c : completion A) (k : A -> completion B) : completion B :=
  match c with
  | Normal a => k a
  | Throw e => Throw e
  end.

(** Reading a property of [ref.current]: a [TypeError] when it is null. *)
Definition deref {A} (r : option A) : completion A :=
  match r with
  | Some a => Normal a
  | None => Throw TypeError
  end.

(** [x ?? d] *)
Definition nullish {A} (x : option A) (d : A) : A :=
  match x with Some v => v | None => d end.

(** [Math.random()]: the draws are given, the cursor is the state. *)
Record Rng : Type := { draws : N -> R; cursor : N }.

Definition Math_random (g : Rng) : R * Rng :=
  (draws g (cursor g), {| draws := draws g; cursor := N.succ (cursor g) |}).

Definition Math_cbrt (a : R) : R :=
  if Rlt_dec 0 a then Rpower a (/ 3)
  else if Rlt_dec a 0 then - Rpower (- a) (/ 3)
  else 0.

Definition Math_max (a b : R) : R := Rmax a b.

(** Truncation toward zero and the remainder operator [a % b]
    (sign of the dividend, as in C's fmod). *)
Definition trunc (a : R) : Z :=
  if Rlt_dec a 0 then Zceil a else Zfloor a.

Definition rem (a b : R) : R := a - b * IZR (trunc (a / b)).

(** [clamp(v, lo, hi)], the operation the specification mentions. *)
Definition clamp (v lo hi : R) : R := Rmax lo (Rmin hi v).

End JS.

Notation "x <- c ;; k" := (JS.bind c (fun x => k))
  (at level 61, c at next level, right associativity).

(** ** three.js, as far as the components use it *)

Module THREE.

Local Open Scope R_scope.

Record Vector3 : Type := Vec3 { x : R; y : R; z : R }.
Record Euler : Type := Eul { ex : R; ey : R; ez : R }.

(** [MathUtils.lerp(x, y, t)] is [(1 - t) * x + t * y]; it does not clamp [t]. *)
Definition lerp (a b t : R) : R := (1 - t) * a + t * b.

(** [Vector3.lerpVectors(v1, v2, alpha)] *)
Definition lerpVectors (v1 v2 : Vector3) (alpha : R) : Vector3 :=
  Vec3 (x v1 + (x v2 - x v1) * alpha)
       (y v1 + (y v2 - y v1) * alpha)
       (z v1 + (z v2 - z v1) * alpha).

Definition add (a b : Vector3) : Vector3 :=
  Vec3 (x a + x b) (y a + y b) (z a + z b).

Definition setScalar (s : R) : Vector3 := Vec3 s s s.

Definition lengthSq (v : Vector3) : R := x v * x v + y v * y v + z v * z v.

(** What [Object3D.updateMatrix] composes; the 4x4 entries are the renderer's
    business. *)
Record Matrix4 : Type := compose {
  m_position : Vector3;
  m_rotation : Euler;
  m_scale    : Vector3
}.

Definition identity : Matrix4 := compose (Vec3 0 0 0) (Eul 0 0 0) (Vec3 1 1 1).

(** An [Object3D] (a [Group] or a [Mesh]): [userData.factor] is absent until
    the first frame writes it. *)
Record Object3D : Type := Obj {
  userData_factor : option R;
  position : Vector3;
  rotation : Euler;
  scale    : Vector3
}.

Definition fresh_object : Object3D :=
  Obj None (Vec3 0 0 0) (Eul 0 0 0) (Vec3 1 1 1).

Record InstancedMesh : Type := IMesh {
  im_factor      : option R;          (* userData.factor *)
  instanceMatrix : list Matrix4;      (* one matrix per instance *)
  needsUpdate    : bool               (* instanceMatrix.needsUpdate *)
}.

Definition new_InstancedMesh (count : nat) : InstancedMesh :=
  IMesh None (repeat identity count) false.

(** Writing past the end of the backing typed array is ignored. *)
Fixpoint set_nth {A} (i : nat) (v : A) (l : list A) : list A :=
  match l, i with
  | [], _ => []
  | _ :: t, O => v :: t
  | h :: t, S j => h :: set_nth j v t
  end.

Definition setMatrixAt (i : nat) (m : Matrix4) (mesh : InstancedMesh) : InstancedMesh :=
  IMesh (im_factor mesh) (set_nth i m (instanceMatrix mesh)) (needsUpdate mesh).

Definition set_factor (f : R) (mesh : InstancedMesh) : InstancedMesh :=
  IMesh (Some f) (instanceMatrix mesh) (needsUpdate mesh).

Definition set_needsUpdate (mesh : InstancedMesh) : InstancedMesh :=
  IMesh (im_factor mesh) (instanceMatrix mesh) true.

(** Spherical to Cartesian, the way both scatter samplers write it out. *)
Definition spherical (r theta phi : R) : Vector3 :=
  Vec3 (r * sin phi * cos theta) (r * sin phi * sin theta) (r * cos phi).

End THREE.

(** ** types.ts, continued *)

Record PositionData : Type := {
  scatterPos : THREE.Vector3;
  treePos    : THREE.Vector3;
  rotation   : THREE.Euler;
  scale      : R
}.

Inductive GeometryType : Set :=
  sphere | box | cylinder | dodecahedron | giftBox | candyCane.

Record ParticleGroupConfig : Type := {
  count             : Z;
  color             : String.string;
  metalness         : R;
  roughness         : R;
  geometryType      : GeometryType;
  scaleMultiplier   : R;
  emissiveIntensity : option R;
  envMapIntensity   : option R
}.

Definition targetFactor (state : TreeState) : R :=
  match state with TREE_SHAPE => 1%R | SCATTERED => 0%R end.

(** ** components/MorphingGroup.tsx *)

Module MorphingGroup.

Import JS.
Local Open Scope R_scope.

(** *** Layout generation (the body of the [data] memo) *)

(** One turn of the [for] loop: ten draws, in source order. *)
Definition make_item (scaleMultiplier : R) (g0 : Rng) : PositionData * Rng :=
  (* 1. scatter position: random point in a large sphere *)
  let (u1, g1) := Math_random g0 in
  let rScatter := 35 * Math_cbrt u1 in
  let (u2, g2) := Math_random g1 in
  let thetaScatter := u2 * 2 * PI in
  let (u3, g3) := Math_random g2 in
  let phiScatter := acos (2 * u3 - 1) in
  let scatterPos :=
    THREE.Vec3 (rScatter * sin phiScatter * cos thetaScatter)
         (rScatter * sin phiScatter * sin thetaScatter)
         (rScatter * cos phiScatter) in
  (* 2. tree position: cone spiral *)
  let (hNormalized, g4) := Math_random g3 in
  let y := hNormalized * 18 - 9 in
  let maxRadiusAtY := (1 - (y + 9) / 18) * 6 + 0.5 in
  let (u5, g5) := Math_random g4 in
  let radius := u5 * maxRadiusAtY in
  let (u6, g6) := Math_random g5 in
  let angle := y * 5 + u6 * PI * 2 in
  let treePos := THREE.Vec3 (cos angle * radius) y (sin angle * radius) in
  let (u7, g7) := Math_random g6 in
  let (u8, g8) := Math_random g7 in
  let (u9, g9) := Math_random g8 in
  let rotation := THREE.Eul (u7 * PI) (u8 * PI) (u9 * PI) in
  let (u10, g10) := Math_random g9 in
  let scale := (0.5 + u10 * 1.5) * scaleMultiplier in
  ({| scatterPos := scatterPos; treePos := treePos;
      rotation := rotation; scale := scale |}, g10).

(** [for (let i = 0; i < count; i++) items.push(...)], [n] turns left. *)
Fixpoint generate (n : nat) (scaleMultiplier : R) (g : Rng) : list PositionData * Rng :=
  match n with
  | O => ([], g)
  | S n' =>
      let (item, g') := make_item scaleMultiplier g in
      let (items, g'') := generate n' scaleMultiplier g' in
      (item :: items, g'')
  end.

Definition compute_data (config : ParticleGroupConfig) (g : Rng) : list PositionData * Rng :=
  generate (Z.to_nat (count config)) (scaleMultiplier config) g.

(** *** The component instance: props, hook cells and refs *)

(** An object value together with its identity (the address of the literal's
    allocation): [Object.is] on two objects compares the identities. *)
Definition object_ref : Type := (positive * ParticleGroupConfig)%type.

Record instance : Type := Instance {
  config     : object_ref;              (* props.config of the last render *)
  data_deps  : positive;                (* the [config] the memo was computed for *)
  data       : list PositionData;       (* the memoised value *)
  meshRef    : option THREE.InstancedMesh;
  ribbon1Ref : option THREE.InstancedMesh;
  ribbon2Ref : option THREE.InstancedMesh;
  bowRef     : option THREE.InstancedMesh
}.

Definition isGiftBox (c : instance) : bool :=
  match geometryType (snd (config c)) with giftBox => true | _ => false end.
Definition isCandyCane (c : instance) : bool :=
  match geometryType (snd (config c)) with candyCane => true | _ => false end.

(** First render: every memo is computed, the refs are still null. *)
Definition mount (cfg : object_ref) (g : Rng) : instance * Rng :=
  let (d, g') := compute_data (snd cfg) g in
  (Instance cfg (fst cfg) d None None None None, g').

(** A later render: [useMemo(..., [config])] recomputes when [config] is not
    the object it was computed for. *)
Definition render (cfg : object_ref) (c : instance) (g : Rng) : instance * Rng :=
  if Pos.eqb (data_deps c) (fst cfg)
  then (Instance cfg (data_deps c) (data c)
                 (meshRef c) (ribbon1Ref c) (ribbon2Ref c) (bowRef c), g)
  else
    let (d, g') := compute_data (snd cfg) g in
    (Instance cfg (fst cfg) d
              (meshRef c) (ribbon1Ref c) (ribbon2Ref c) (bowRef c), g').

(** Commit: the renderer creates the instanced meshes and fills the refs. *)
Definition attach (c : instance) : instance :=
  let n := Z.to_nat (count (snd (config c))) in
  let deco := if isGiftBox c then Some (THREE.new_InstancedMesh n) else None in
  Instance (config c) (data_deps c) (data c)
           (Some (THREE.new_InstancedMesh n)) deco deco deco.

Definition set_meshRef (m : THREE.InstancedMesh) (c : instance) : instance :=
  Instance (config c) (data_deps c) (data c)
           (Some m) (ribbon1Ref c) (ribbon2Ref c) (bowRef c).

Definition set_decorations (r1 r2 b : option THREE.InstancedMesh) (c : instance) : instance :=
  Instance (config c) (data_deps c) (data c) (meshRef c) r1 r2 b.

(** *** The animation loop *)

Definition speed : R := 2.5.

(** The matrix written for item [i]; [tempObject] and [tempVec3] are scratch
    objects whose every field is overwritten before it is read. *)
Definition item_matrix (candy : bool) (newFactor time : R)
           (i : nat) (item : PositionData) : THREE.Matrix4 :=
  let tempVec3 := THREE.lerpVectors (scatterPos item) (treePos item) newFactor in
  let floatIntensity := 1 - newFactor * 0.8 in
  let floatY := sin (time + INR i * 10) * 0.5 * floatIntensity in
  let floatX := cos (time * 0.5 + INR i * 5) * 0.5 * floatIntensity in
  let position := THREE.add tempVec3 (THREE.Vec3 floatX floatY 0) in
  let rot := rotation item in
  let rotation :=
    if candy
    then THREE.Eul (THREE.ex rot + time * 0.5) (THREE.ey rot + time * 0.5) (THREE.ez rot)
    else THREE.Eul (THREE.ex rot + time * 0.2) (THREE.ey rot + time * 0.2) (THREE.ez rot) in
  THREE.compose position rotation (THREE.setScalar (scale item)).

(** [if (ref.current) ref.current.setMatrixAt(i, m)] *)
Definition setMatrixAt_if (i : nat) (m : THREE.Matrix4) (r : option THREE.InstancedMesh)
  : option THREE.InstancedMesh :=
  option_map (THREE.setMatrixAt i m) r.

(** One call of the [forEach] callback. *)
Definition forEach_body (newFactor time : R) (i : nat) (item : PositionData)
           (c : instance) : completion instance :=
  let m := item_matrix (isCandyCane c) newFactor time i item in
  mesh <- deref (meshRef c) ;;
  let c1 := set_meshRef (THREE.setMatrixAt i m mesh) c in
  Normal (if isGiftBox c1
          then set_decorations (setMatrixAt_if i m (ribbon1Ref c1))
                               (setMatrixAt_if i m (ribbon2Ref c1))
                               (setMatrixAt_if i m (bowRef c1)) c1
          else c1).

Fixpoint forEach (newFactor time : R) (i : nat) (items : list PositionData)
         (c : instance) : completion instance :=
  match items with
  | [] => Normal c
  | item :: rest =>
      c' <- forEach_body newFactor time i item c ;;
      forEach newFactor time (S i) rest c'
  end.

Definition newFactor_of (state : TreeState) (delta : R) (mesh : THREE.InstancedMesh) : R :=
  let currentFactor := nullish (THREE.im_factor mesh) 0 in
  THREE.lerp currentFactor (targetFactor state) (delta * speed).

Definition useFrame (state : TreeState) (time delta : R) (c : instance)
  : completion instance :=
  match meshRef c with
  | None => Normal c                                   (* if (!meshRef.current) return; *)
  | Some mesh =>
      let newFactor := newFactor_of state delta mesh in
      let c1 := set_meshRef (THREE.set_factor newFactor mesh) c in
      c2 <- forEach newFactor time 0 (data c1) c1 ;;
      mesh2 <- deref (meshRef c2) ;;
      let c3 := set_meshRef (THREE.set_needsUpdate mesh2) c2 in
      Normal (if isGiftBox c3
              then set_decorations (option_map THREE.set_needsUpdate (ribbon1Ref c3))
                                   (option_map THREE.set_needsUpdate (ribbon2Ref c3))
                                   (option_map THREE.set_needsUpdate (bowRef c3)) c3
              else c3)
  end.

(** A run of frames: for each frame the arrangement the last render passed
    down, the elapsed time and the frame delta. *)
Fixpoint frames (fs : list (TreeState * R * R)) (c : instance) : completion instance :=
  match fs with
  | [] => Normal c
  | (state, time, delta) :: rest =>
      c' <- useFrame state time delta c ;;
      frames rest c'
  end.

(** The blend factor the group currently stores. *)
Definition factor (c : instance) : option R :=
  match meshRef c with
  | Some mesh => THREE.im_factor mesh
  | None => None
  end.

(** Two instances hold the same layout: props and memo cell agree. *)
Definition same_layout (c c' : instance) : Prop :=
  config c' = config c /\ data_deps c' = data_deps c /\ data c' = data c.

End MorphingGroup.

(** ** components/TopStar.tsx *)

Module TopStar.

Import JS.
Local Open Scope R_scope.

Record PointLight : Type := { intensity : R }.
Record MeshStandardMaterial : Type := { emissiveIntensity : R }.

Record instance : Type := Instance {
  scatterPos  : THREE.Vector3;              (* useMemo(..., []) *)
  meshRef     : option THREE.Object3D;      (* the group *)
  lightRef    : option PointLight;
  materialRef : option MeshStandardMaterial
}.

Definition treePos : THREE.Vector3 := THREE.Vec3 0 10.5 0.

(** The body of the [scatterPos] memo: two draws, the radius is the constant. *)
Definition compute_scatterPos (g0 : Rng) : THREE.Vector3 * Rng :=
  let r := 40 in
  let (u1, g1) := Math_random g0 in
  let theta := u1 * PI * 2 in
  let (u2, g2) := Math_random g1 in
  let phi := acos (2 * u2 - 1) in
  (THREE.Vec3 (r * sin phi * cos theta) (r * sin phi * sin theta) (r * cos phi), g2).

Definition mount (g : Rng) : instance * Rng :=
  let (p, g') := compute_scatterPos g in
  (Instance p None None None, g').

Definition attach (c : instance) : instance :=
  Instance (scatterPos c) (Some THREE.fresh_object)
           (Some {| intensity := 1 |}) (Some {| emissiveIntensity := 1 |}).

Definition speed : R := 2.0.

Definition newFactor_of (state : TreeState) (delta : R) (o : THREE.Object3D) : R :=
  let currentFactor := nullish (THREE.userData_factor o) 0 in
  THREE.lerp currentFactor (targetFactor state) (delta * speed).

Definition useFrame (state : TreeState) (time delta : R) (c : instance)
  : completion instance :=
  match meshRef c with
  | None => Normal c                                   (* if (!meshRef.current) return; *)
  | Some o =>
      let newFactor := newFactor_of state delta o in
      (* position interpolation *)
      let position := THREE.lerpVectors (scatterPos c) treePos newFactor in
      (* rotation: continuous spin, tumble reduced as the tree forms *)
      let tumble := (1 - newFactor) * 2 in
      let rotation := THREE.Eul (sin time * tumble) (time * 0.5) (cos (time * 0.8) * tumble) in
      (* scale pulsing *)
      let scaleBase := THREE.lerp 0.8 1.2 newFactor in
      let pulseScale := 1 + sin (time * 3) * 0.05 in
      let o' := THREE.Obj (Some newFactor) position rotation
                          (THREE.setScalar (scaleBase * pulseScale)) in
      let pulse := sin (time * 3) in
      let light' :=
        option_map (fun _ =>
          let baseIntensity := 20 * newFactor in
          let lightPulse := pulse * 5 in
          {| intensity := Math_max 0 (baseIntensity + lightPulse * newFactor) |})
          (lightRef c) in
      let material' :=
        option_map (fun _ =>
          let glowFactor := newFactor in
          let dynamicEmissive := 4.5 + pulse * 1.5 in
          {| emissiveIntensity := 0.5 + dynamicEmissive * glowFactor |})
          (materialRef c) in
      Normal (Instance (scatterPos c) (Some o') light' material')
  end.

Definition factor (c : instance) : option R :=
  match meshRef c with
  | Some o => THREE.userData_factor o
  | None => None
  end.

Fixpoint frames (fs : list (TreeState * R * R)) (c : instance) : completion instance :=
  match fs with
  | [] => Normal c
  | (state, time, delta) :: rest =>
      c' <- useFrame state time delta c ;;
      frames rest c'
  end.

End TopStar.

(** ** components/Logo.tsx *)

Module LogoElement.

Import JS.
Local Open Scope R_scope.

Record scatter_config : Type := {
  pos         : THREE.Vector3;
  rotSpeed    : THREE.Vector3;
  randomPhase : R
}.

Record instance : Type := Instance {
  targetOffset  : THREE.Vector3;            (* prop *)
  scatterConfig : scatter_config;           (* useMemo(..., []) *)
  meshRef       : option THREE.Object3D
}.

Definition treeBasePos : THREE.Vector3 := THREE.Vec3 0 (-1) 11.

Definition finalTreePos (c : instance) : THREE.Vector3 :=
  THREE.add treeBasePos (targetOffset c).

(** The body of the [scatterConfig] memo: seven draws. *)
Definition compute_scatterConfig (g0 : Rng) : scatter_config * Rng :=
  let (u1, g1) := Math_random g0 in
  let (u2, g2) := Math_random g1 in
  let (u3, g3) := Math_random g2 in
  let (u4, g4) := Math_random g3 in
  let (u5, g5) := Math_random g4 in
  let (u6, g6) := Math_random g5 in
  let (u7, g7) := Math_random g6 in
  ({| pos := THREE.Vec3 ((u1 - 0.5) * 45) ((u2 - 0.5) * 35) ((u3 - 0.5) * 20);
      rotSpeed := THREE.Vec3 (u4 * 0.5) (u5 * 0.5) (u6 * 0.5);
      randomPhase := u7 * 10 |}, g7).

Definition mount (offset : THREE.Vector3) (g : Rng) : instance * Rng :=
  let (sc, g') := compute_scatterConfig g in
  (Instance offset sc None, g').

Definition attach (c : instance) : instance :=
  Instance (targetOffset c) (scatterConfig c) (Some THREE.fresh_object).

Definition speed : R := 2.0.

Definition newFactor_of (state : TreeState) (delta : R) (o : THREE.Object3D) : R :=
  let currentFactor := nullish (THREE.userData_factor o) 0 in
  THREE.lerp currentFactor (targetFactor state) (delta * speed).

(** The rotation written by step 2 of the frame callback. *)
Definition frame_rotation (sc : scatter_config) (newFactor elapsedTime : R) : THREE.Euler :=
  if Rlt_dec 0.95 newFactor                             (* newFactor > 0.95 *)
  then THREE.Eul 0 0 0
  else
    let time := elapsedTime + randomPhase sc in
    let tumbleX := time * THREE.x (rotSpeed sc) in
    let tumbleY := time * THREE.y (rotSpeed sc) in
    let tumbleZ := time * THREE.z (rotSpeed sc) * 0.5 in
    let invFactor := 1 - newFactor in
    THREE.Eul (tumbleX * invFactor) (tumbleY * invFactor) (tumbleZ * invFactor).

Definition useFrame (state : TreeState) (elapsedTime delta : R) (c : instance)
  : completion instance :=
  match meshRef c with
  | None => Normal c                                   (* if (!meshRef.current) return; *)
  | Some o =>
      let newFactor := newFactor_of state delta o in
      (* 1. position interpolation *)
      let position := THREE.lerpVectors (pos (scatterConfig c)) (finalTreePos c) newFactor in
      (* 2. rotation handling *)
      let rotation := frame_rotation (scatterConfig c) newFactor elapsedTime in
      (* 3. floating effect when formed *)
      let position' :=
        if Rlt_dec 0.8 newFactor                        (* newFactor > 0.8 *)
        then
          let time := elapsedTime + randomPhase (scatterConfig c) in
          THREE.Vec3 (THREE.x position)
                     (THREE.y position + sin (time * 1.5) * 0.002)
                     (THREE.z position)
        else position in
      Normal (Instance (targetOffset c) (scatterConfig c)
                       (Some (THREE.Obj (Some newFactor) position' rotation (THREE.scale o))))
  end.

Definition factor (c : instance) : option R :=
  match meshRef c with
  | Some o => THREE.userData_factor o
  | None => None
  end.

Fixpoint frames (fs : list (TreeState * R * R)) (c : instance) : completion instance :=
  match fs with
  | [] => Normal c
  | (state, time, delta) :: rest =>
      c' <- useFrame state time delta c ;;
      frames rest c'
  end.

End LogoElement.

(** ** components/FloatingSnow.tsx *)

Module FloatingSnow.

Import JS.
Local Open Scope R_scope.

Record particle : Type := {
  x : R; y : R; z : R;
  speed : R;
  wobbleSpeed : R;
  wobbleRadius : R;
  randomOffset : R;
  scale : R
}.

Definition count : nat := 2000.

Definition make_particle (g0 : Rng) : particle * Rng :=
  let (u1, g1) := Math_random g0 in
  let (u2, g2) := Math_random g1 in
  let (u3, g3) := Math_random g2 in
  let (u4, g4) := Math_random g3 in
  let (u5, g5) := Math_random g4 in
  let (u6, g6) := Math_random g5 in
  let (u7, g7) := Math_random g6 in
  let (u8, g8) := Math_random g7 in
  ({| x := (u1 - 0.5) * 100;
      y := (u2 - 0.5) * 100;
      z := (u3 - 0.5) * 60 - 10;
      speed := 0.02 + u4 * 0.05;
      wobbleSpeed := 0.5 + u5;
      wobbleRadius := 0.5 + u6 * 1.5;
      randomOffset := u7 * 100;
      scale := u8 * 0.4 + 0.1 |}, g8).

(** [new Array(count).fill(0).map(() => ...)] *)
Fixpoint make_particles (n : nat) (g : Rng) : list particle * Rng :=
  match n with
  | O => ([], g)
  | S n' =>
      let (p, g') := make_particle g in
      let (ps, g'') := make_particles n' g' in
      (p :: ps, g'')
  end.

Record instance : Type := Instance {
  particles : list particle;                (* useMemo(..., []) *)
  meshRef   : option THREE.InstancedMesh
}.

Definition mount (g : Rng) : instance * Rng :=
  let (ps, g') := make_particles count g in
  (Instance ps None, g').

Definition attach (c : instance) : instance :=
  Instance (particles c) (Some (THREE.new_InstancedMesh count)).

(** The vertical coordinate the frame callback writes for a particle. *)
Definition loopY (p : particle) (t : R) : R :=
  let y0 := y p - t * speed p * 5 in                    (* downward drift *)
  let range := 100 in
  rem (y0 + range / 2) range - range / 2.               (* loop vertically *)

Definition particle_matrix (t : R) (p : particle) : THREE.Matrix4 :=
  let x' := x p + sin (t * wobbleSpeed p + randomOffset p) * wobbleRadius p in
  let z' := z p + cos (t * wobbleSpeed p * 0.8 + randomOffset p) * wobbleRadius p in
  THREE.compose
    (THREE.Vec3 x' (loopY p t) z')
    (THREE.Eul (sin (t * 0.5 + randomOffset p) * 0.5)
               (cos (t * 0.3 + randomOffset p) * 0.5)
               (t * 0.1 + randomOffset p))
    (THREE.setScalar (scale p)).

Definition set_meshRef (m : THREE.InstancedMesh) (c : instance) : instance :=
  Instance (particles c) (Some m).

Fixpoint forEach (t : R) (i : nat) (ps : list particle) (c : instance)
  : completion instance :=
  match ps with
  | [] => Normal c
  | p :: rest =>
      mesh <- deref (meshRef c) ;;
      forEach t (S i) rest (set_meshRef (THREE.setMatrixAt i (particle_matrix t p) mesh) c)
  end.

Definition useFrame (t : R) (c : instance) : completion instance :=
  match meshRef c with
  | None => Normal c                                   (* if (!meshRef.current) return; *)
  | Some _ =>
      c1 <- forEach t 0 (particles c) c ;;
      mesh <- deref (meshRef c1) ;;
      Normal (set_meshRef (THREE.set_needsUpdate mesh) c1)
  end.

End FloatingSnow.

(** ** components/Scene.tsx: the component tree below [App] *)

Module Scene.

Import JS.
Import String.
Local Open Scope R_scope.
Local Open Scope string_scope.

Definition group (n : Z) (col : String.string) (metal rough : R) (geo : GeometryType)
           (mult : R) (emissive env : option R) : ParticleGroupConfig :=
  {| count := n; color := col; metalness := metal; roughness := rough;
     geometryType := geo; scaleMultiplier := mult;
     emissiveIntensity := emissive; envMapIntensity := env |}.

(** The nine [config={{ ... }}] literals, in document order. *)
Definition config_literals : list ParticleGroupConfig :=
  [ group 350 "#FFD700" 1   0.1 sphere    0.8  None       (Some 2);
    group 250 "#FDB931" 0.1 1.0 sphere    0.8  None       (Some 0.2);
    group 200 "#004225" 0.8 0.1 sphere    1.0  (Some 0.2) (Some 3.0);
    group 200 "#E0E0E0" 1.0 0.1 sphere    0.5  None       (Some 2.5);
    group 150 "#D32F2F" 0.0 0.8 sphere    0.9  None       (Some 0.5);
    group 100 "#FFFFFF" 0.1 0.4 candyCane 1.5  None       (Some 1.0);
    group 50  "#C41E3A" 0.5 0.2 giftBox   0.9  None       (Some 1.5);
    group 40  "#E65100" 0.6 0.2 giftBox   0.85 None       (Some 1.5);
    group 40  "#1A237E" 0.6 0.2 giftBox   0.85 None       (Some 1.5) ].

(** The [targetOffset] props of the six logo elements. *)
Definition logo_offsets : list THREE.Vector3 :=
  [ THREE.Vec3 (-2.4) 0.8 0; THREE.Vec3 (-0.8) 0.8 0; THREE.Vec3 0.8 0.8 0;
    THREE.Vec3 2.4 0.8 0; THREE.Vec3 0 (-0.6) 0; THREE.Vec3 0 (-1.5) 0 ].

Record tree : Type := Tree {
  next_object : positive;                   (* identity of the next allocated literal *)
  rng    : Rng;
  groups : list MorphingGroup.instance;
  star   : TopStar.instance;
  logo   : list LogoElement.instance;
  snow   : FloatingSnow.instance
}.

(** Evaluating the JSX allocates each literal anew, then the child renders. *)
Fixpoint mount_groups (lits : list ParticleGroupConfig) (next : positive) (g : Rng)
  : list MorphingGroup.instance * positive * Rng :=
  match lits with
  | [] => ([], next, g)
  | lit :: lits' =>
      let (c, g1) := MorphingGroup.mount (next, lit) g in
      let '(cs, next', g2) := mount_groups lits' (Pos.succ next) g1 in
      (MorphingGroup.attach c :: cs, next', g2)
  end.

Fixpoint render_groups (lits : list ParticleGroupConfig)
         (cs : list MorphingGroup.instance) (next : positive) (g : Rng)
  : list MorphingGroup.instance * positive * Rng :=
  match lits, cs with
  | lit :: lits', c :: cs' =>
      let (c', g1) := MorphingGroup.render (next, lit) c g in
      let '(cs'', next', g2) := render_groups lits' cs' (Pos.succ next) g1 in
      (c' :: cs'', next', g2)
  | _, _ => ([], next, g)
  end.

Fixpoint mount_logo (offsets : list THREE.Vector3) (g : Rng)
  : list LogoElement.instance * Rng :=
  match offsets with
  | [] => ([], g)
  | o :: offsets' =>
      let (c, g1) := LogoElement.mount o g in
      let (cs, g2) := mount_logo offsets' g1 in
      (LogoElement.attach c :: cs, g2)
  end.

(** First render and commit of the whole scene. *)
Definition mount (g : Rng) : tree :=
  let '(gs, next, g1) := mount_groups config_literals 1%positive g in
  let (st, g2) := TopStar.mount g1 in
  let (lg, g3) := mount_logo logo_offsets g2 in
  let (sn, g4) := FloatingSnow.mount g3 in
  Tree next g4 gs (TopStar.attach st) lg (FloatingSnow.attach sn).

(** The number of instances a list of group literals asks for. *)
Definition total_instances (lits : list ParticleGroupConfig) : N :=
  fold_right (fun lit acc => (N.of_nat (Z.to_nat (count lit)) + acc)%N) 0%N lits.

(** [Scene] runs again (its parent re-rendered: [treeState] or [isAutoMode]
    changed).  The memos with an empty dependency list keep their values. *)
Definition render (t : tree) : tree :=
  let '(gs, next, g1) := render_groups config_literals (groups t) (next_object t) (rng t) in
  Tree next g1 gs (star t) (logo t) (snow t).

End Scene.

(** ** The specification's formulas, for comparison with the code *)

Module Spec.

Local Open Scope R_scope.

(** [factor <- lerp(factor, target, clamp(dt * speed, 0, 1))] *)
Definition blend (factor target dt speed : R) : R :=
  THREE.lerp factor target (JS.clamp (dt * speed) 0 1).

(** [radius = R * cbrt(u)], [theta = 2 pi v], [phi = acos(2 w - 1)],
    converted to Cartesian coordinates. *)
Definition scatter (R0 u v w : R) : THREE.Vector3 :=
  THREE.spherical (R0 * JS.Math_cbrt u) (v * 2 * PI) (acos (2 * w - 1)).

(** The wrap band of the snow field: width 100, centred at 0. *)
Definition in_wrap_band (v : R) : Prop := -50 <= v <= 50.

End Spec.

(** ** Runs of the smoothed factor update *)

Module Blend.

Local Open Scope R_scope.

(** The factor after a run of frames with the given deltas, the arrangement
    (hence the target) being held fixed, computed the way every frame
    callback does it. *)
Fixpoint run (speed target : R) (deltas : list R) (f : R) : R :=
  match deltas with
  | [] => f
  | dt :: rest => run speed target rest (THREE.lerp f target (dt * speed))
  end.

Definition elapsed (deltas : list R) : R := fold_right Rplus 0 deltas.

(** Frames of one arrangement: elapsed time and delta of each. *)
Definition hold (state : TreeState) (fs : list (R * R)) : list (TreeState * R * R) :=
  map (fun f => (state, fst f, snd f)) fs.

(** Every frame is at most [1 / speed] long. *)
Definition short_frames (speed : R) (fs : list (R * R)) : Prop :=
  Forall (fun f => 0 < snd f /\ snd f * speed <= 1) fs.

End Blend.

(** ** Concrete component instances *)

Module Example.

Import JS.
Import String.
Local Open Scope R_scope.

(** Random sources whose every draw is 0, respectively 0.5. *)
Definition zero_rng : Rng := {| draws := fun _ => 0; cursor := 0 |}.
Definition half_rng : Rng := {| draws := fun _ => 0.5; cursor := 0 |}.

(** A random source that answers 0 to the first 29844 calls (the calls made
    while the scene mounts) and 0.5 from then on. *)
Definition late_rng : Rng :=
  {| draws := fun n => if (29844 <=? n)%N then 0.5 else 0; cursor := 0 |}.

(** A mounted group of one golden sphere. *)
Definition config0 : ParticleGroupConfig :=
  Scene.group 1 "#FFD700"%string 1 0.1 sphere 0.8 None (Some 2).

Definition group0 : MorphingGroup.instance :=
  MorphingGroup.attach (fst (MorphingGroup.mount (1%positive, config0) zero_rng)).

(** The mounted star and a mounted logo element. *)
Definition star0 : TopStar.instance :=
  TopStar.attach (fst (TopStar.mount half_rng)).

Definition logo0 : LogoElement.instance :=
  LogoElement.attach (fst (LogoElement.mount (THREE.Vec3 0 (-0.6) 0) half_rng)).

(** A snow particle and the mounted snow field. *)
Definition particle0 : FloatingSnow.particle :=
  fst (FloatingSnow.make_particle half_rng).

Definition snow0 : FloatingSnow.instance :=
  FloatingSnow.attach (fst (FloatingSnow.mount half_rng)).

(** The same components after their first render, before the renderer has
    filled their refs. *)
Definition group_unattached : MorphingGroup.instance :=
  fst (MorphingGroup.mount (1%positive, config0) zero_rng).
Definition star_unattached : TopStar.instance := fst (TopStar.mount half_rng).
Definition logo_unattached : LogoElement.instance :=
  fst (LogoElement.mount (THREE.Vec3 0 (-0.6) 0) half_rng).
Definition snow_unattached : FloatingSnow.instance := fst (FloatingSnow.mount half_rng).

(** A mounted group of two gift boxes. *)
Definition gift_config : ParticleGroupConfig :=
  Scene.group 2 "#C41E3A"%string 0.5 0.2 giftBox 0.9 None (Some 1.5).

Definition gift0 : MorphingGroup.instance :=
  MorphingGroup.attach (fst (MorphingGroup.mount (2%positive, gift_config) half_rng)).

(** The matrix last written for instance [i] of a group. *)
Definition matrix_at (i : nat) (c : completion MorphingGroup.instance)
  : option THREE.Matrix4 :=
  match c with
  | Normal c' =>
      match MorphingGroup.meshRef c' with
      | Some mesh => nth_error (THREE.instanceMatrix mesh) i
      | None => None
      end
  | Throw _ => None
  end.

End Example.

(** ** Random sources as [Math.random] provides them *)

Module Draws.

Local Open Scope R_scope.

(** Every draw lies in [0, 1). *)
Definition in_unit (g : JS.Rng) : Prop := forall k, 0 <= JS.draws g k < 1.

End Draws.

(** ** What a [forEach] loop of [setMatrixAt] calls leaves in a matrix buffer *)

Module Buffer.

(** Items [items] are written at the indices [i], [i + 1], ...; the matrix of
    an item is computed from its index and the item. *)
Fixpoint write_all {A B} (f : nat -> A -> B) (i : nat) (items : list A) (l : list B)
  : list B :=
  match items with
  | [] => l
  | a :: rest => write_all f (S i) rest (THREE.set_nth i (f i a) l)
  end.

Definition with_matrices (l : list THREE.Matrix4) (mesh : THREE.InstancedMesh)
  : THREE.InstancedMesh :=
  THREE.IMesh (THREE.im_factor mesh) l (THREE.needsUpdate mesh).

(** A mesh after such a loop. *)
Definition written {A} (f : nat -> A -> THREE.Matrix4) (i : nat) (items : list A)
           (mesh : THREE.InstancedMesh) : THREE.InstancedMesh :=
  with_matrices (write_all f i items (THREE.instanceMatrix mesh)) mesh.

(** A decoration ref after such a loop: written like the main mesh when it is
    set and the group is a gift-box group, left alone otherwise. *)
Definition decoration {A} (gift : bool) (f : nat -> A -> THREE.Matrix4) (i : nat)
           (items : list A) (r : option THREE.InstancedMesh)
  : option THREE.InstancedMesh :=
  if gift then option_map (written f i items) r else r.

(** The decorations of a gift-box group hold the matrices of the boxes. *)
Definition in_step (c : MorphingGroup.instance) : Prop :=
  exists mesh r1 r2 b,
    MorphingGroup.meshRef c = Some mesh /\
    MorphingGroup.ribbon1Ref c = Some r1 /\
    MorphingGroup.ribbon2Ref c = Some r2 /\
    MorphingGroup.bowRef c = Some b /\
    THREE.instanceMatrix r1 = THREE.instanceMatrix mesh /\
    THREE.instanceMatrix r2 = THREE.instanceMatrix mesh /\
    THREE.instanceMatrix b = THREE.instanceMatrix mesh.

End Buffer.

(** ** components/TopStar.tsx: the outline of the star *)

Module StarShape.

Local Open Scope R_scope.

Definition numPoints : nat := 5.
Definition outerRadius : R := 1.2.
Definition innerRadius : R := 0.6.

(** One turn of the loop that fills [pts]: the vertex [i] of the outline. *)
Definition point (i : nat) : R * R :=
  let radius := if Nat.even i then outerRadius else innerRadius in   (* i % 2 === 0 *)
  let angle := INR i / INR (numPoints * 2) * PI * 2 in
  let finalAngle := angle - PI / 2 in
  (cos finalAngle * radius, sin finalAngle * radius).

(** [for (let i = 0; i < numPoints * 2; i++) pts.push(...)] *)
Definition pts : list (R * R) := map point (seq 0 (numPoints * 2)).

End StarShape.

(** ** components/RecordButton.tsx *)

Module RecordButton.

Import String.
Local Open Scope string_scope.

(** The preference list of [startRecording]. *)
Definition mimeTypes : list string :=
  [ "video/webm;codecs=vp9"; "video/webm;codecs=vp8"; "video/webm" ].

(** [for (const type of types) if (isTypeSupported(type)) { selected = type; break; }] *)
Fixpoint first_supported (isTypeSupported : string -> bool) (types : list string)
         (selected : string) : string :=
  match types with
  | [] => selected
  | type :: rest =>
      if isTypeSupported type then type
      else first_supported isTypeSupported rest selected
  end.

Definition selectMimeType (isTypeSupported : string -> bool) : string :=
  first_supported isTypeSupported mimeTypes "video/webm".

(** A [Blob]: its size and its bytes. *)
Record Blob : Type := { size : N; bytes : list Byte.byte }.

Inductive RecorderState : Set := inactive | recording.

(** The [MediaRecorder] a call of [startRecording] creates; its handlers and
    its stop timer hold on to it. *)
Record Recorder : Type := { state : RecorderState; mimeType : string }.

(** The component: its React state, the chunk buffer and the files it has
    offered for download (type and parts of each Blob). *)
Record component : Type := Component {
  isRecording : bool;
  chunksRef   : list Blob;                    (* chunksRef.current *)
  downloads   : list (string * list Blob)
}.

Definition initial : component := Component false [] [].

(** [startRecording]: the recorder is created with the selected type and
    started. *)
Definition startRecording (isTypeSupported : string -> bool) (c : component)
  : Recorder * component :=
  ({| state := recording; mimeType := selectMimeType isTypeSupported |},
   Component true (chunksRef c) (downloads c)).

(** [recorder.ondataavailable] *)
Definition ondataavailable (data : Blob) (c : component) : component :=
  if (0 <? size data)%N
  then Component (isRecording c) (List.app (chunksRef c) [data]) (downloads c)
  else c.

(** [recorder.onstop]: the chunks become one Blob that is saved, the buffer is
    emptied and the button is released. *)
Definition onstop (r : Recorder) (c : component) : component :=
  Component false [] (List.app (downloads c) [(mimeType r, chunksRef c)]).

(** [recorder.stop()]: the recorder becomes inactive at once and the call
    returns.  No handler runs inside the call: the browser delivers what was
    recorded ([dataavailable]) and then the [stop] event afterwards, as
    events of their own. *)
Definition stop (r : Recorder) : Recorder :=
  {| state := inactive; mimeType := mimeType r |}.

(** The callback of the 14000 ms timeout of recorder [r]. *)
Definition onTimeout (r : Recorder) : Recorder :=
  match state r with
  | recording => stop r
  | inactive => r
  end.

(** What the environment can do while a recorder exists: deliver data, click
    the button ([onClick={isRecording ? undefined : startRecording}]), fire
    the recorder's timeout, deliver the recorder's [stop] event (the recorder
    is inactive by then). *)
Inductive event : Type := Data (b : Blob) | Click | Timeout | Stopped.

Definition handle (isTypeSupported : string -> bool) (rc : Recorder * component)
           (e : event) : Recorder * component :=
  match e with
  | Data b => (fst rc, ondataavailable b (snd rc))
  | Click => if isRecording (snd rc) then rc
             else startRecording isTypeSupported (snd rc)
  | Timeout => (onTimeout (fst rc), snd rc)
  | Stopped => ({| state := inactive; mimeType := mimeType (fst rc) |},
                onstop (fst rc) (snd rc))
  end.

(** The click that starts a recording, then the events in the order the
    environment delivers them. *)
Definition record (isTypeSupported : string -> bool) (events : list event)
           (c : component) : Recorder * component :=
  fold_left (handle isTypeSupported) events (startRecording isTypeSupported c).

(** The blobs a list of events delivers, and whether the timeout fires in it. *)
Definition delivered (events : list event) : list Blob :=
  flat_map (fun e => match e with Data b => [b] | _ => [] end) events.

Definition is_timeout (e : event) : bool :=
  match e with Timeout => true | _ => false end.

End RecordButton.

(** ** The schedule of an undisturbed automatic run *)

Module Schedule.

(** The arrangement [t] ms after a dwell period in TREE_SHAPE began, when
    nobody clicks: 8000 ms of tree, 4000 ms of scatter, and again. *)
Definition auto_arrangement (t : N) : TreeState :=
  if (t mod 12000 <? 8000)%N then TREE_SHAPE else SCATTERED.

(** The time a click buys: the idle period, then the dwell of the arrangement
    the click produced. *)
Definition quiet_time (after_click : TreeState) : N :=
  (10000 + App.dwell after_click)%N.

End Schedule.

(** ** components/Scene.tsx: renders after the first *)

Module Rerender.

(** Every memoised layout was computed for an object older than the next
    literal to be allocated, and there is one group per literal. *)
Definition fresh (t : Scene.tree) : Prop :=
  List.length (Scene.groups t) = List.length Scene.config_literals /\
  Forall (fun c => (MorphingGroup.data_deps c < Scene.next_object t)%positive)
         (Scene.groups t).

(** [n] renders of the scene after the one that mounted it. *)
Fixpoint times (n : nat) (t : Scene.tree) : Scene.tree :=
  match n with
  | O => t
  | S n' => Scene.render (times n' t)
  end.

End Rerender.

(** ** components/FloatingSnow.tsx: the ranges of a particle's fields *)

Module SnowField.

Local Open Scope R_scope.

Definition in_ranges (p : FloatingSnow.particle) : Prop :=
  -50 <= FloatingSnow.x p < 50 /\
  -50 <= FloatingSnow.y p < 50 /\
  -40 <= FloatingSnow.z p < 20 /\
  0.02 <= FloatingSnow.speed p < 0.07 /\
  0.5 <= FloatingSnow.wobbleSpeed p < 1.5 /\
  0.5 <= FloatingSnow.wobbleRadius p < 2 /\
  0 <= FloatingSnow.randomOffset p < 100 /\
  0.1 <= FloatingSnow.scale p < 0.5.

End SnowField.

(** ** Runs of frames during which the arrangement may change *)

Module Mixed.

Local Open Scope R_scope.

(** Every frame is at most [1 / speed] long; the arrangement of each frame is
    free. *)
Definition short (speed : R) (fs : list (TreeState * R * R)) : Prop :=
  Forall (fun f => 0 <= snd f * speed <= 1) fs.

End Mixed.

(** * Properties *)

(** ** The arrangement state machine *)

Section AppFacts.

Import App.
Local Open Scope N_scope.

(** Call-by-value evaluation of the handlers on an explicit state; the
    comparisons of handles and deadlines stay for rewriting. *)
Ltac app_unfold :=
  cbv beta iota zeta delta
    [tick toggleState run_callback rerender run_cleanup effect
     clearTimeout setTimeout pending is_due
     set_now set_timers set_cleanup set_treeState set_isAutoMode set_idleTimerRef
     now timers treeState isAutoMode idleTimerRef cleanup next_id
     timer_id deadline action filter fire_all existsb app
     orb andb negb flip TreeState_eqb Bool.eqb fst snd].

Ltac app_step :=
  do 4 (app_unfold; rewrite ?Pos.eqb_refl, ?N.leb_refl).

Lemma tick_auto_wait v idle id d nid nw :
  nw + 1 < d ->
  tick (State v true idle (Some id) [Timer id d (SetTreeState (flip v))] nid nw)
  = State v true idle (Some id) [Timer id d (SetTreeState (flip v))] nid (nw + 1).
Proof.
  intros H. app_unfold.
  destruct (N.leb_spec d (nw + 1)); [lia | reflexivity].
Qed.

Lemma tick_auto_fire v idle id nid nw :
  (id < nid)%positive ->
  tick (State v true idle (Some id) [Timer id (nw + 1) (SetTreeState (flip v))] nid nw)
  = State (flip v) true idle (Some nid)
          [Timer nid (nw + 1 + dwell (flip v)) (SetTreeState (flip (flip v)))]
          (Pos.succ nid) (nw + 1).
Proof.
  intros H. app_step. destruct v; app_step; reflexivity.
Qed.

Lemma tick_manual_wait v j d nid nw :
  nw + 1 < d ->
  tick (State v false (Some j) None [Timer j d (SetIsAutoMode true)] nid nw)
  = State v false (Some j) None [Timer j d (SetIsAutoMode true)] nid (nw + 1).
Proof.
  intros H. app_unfold.
  destruct (N.leb_spec d (nw + 1)); [lia | reflexivity].
Qed.

Lemma tick_manual_fire v j nid nw :
  tick (State v false (Some j) None [Timer j (nw + 1) (SetIsAutoMode true)] nid nw)
  = State v true (Some j) (Some nid)
          [Timer nid (nw + 1 + dwell v) (SetTreeState (flip v))]
          (Pos.succ nid) (nw + 1).
Proof.
  app_step. destruct v; app_step; reflexivity.
Qed.

Lemma toggle_auto v idle id d nid nw :
  (id < nid)%positive ->
  (forall j, idle = Some j -> (j < id)%positive) ->
  toggleState (State v true idle (Some id) [Timer id d (SetTreeState (flip v))] nid nw)
  = State (flip v) false (Some nid) None
          [Timer nid (nw + 10000) (SetIsAutoMode true)] (Pos.succ nid) nw.
Proof.
  intros Hid Hidle.
  assert (Hne : Pos.eqb nid id = false) by (apply Pos.eqb_neq; lia).
  destruct idle as [j|].
  - assert (Hj : Pos.eqb id j = false)
      by (apply Pos.eqb_neq; specialize (Hidle j eq_refl); lia).
    app_unfold. rewrite Hj. destruct v; app_step; rewrite Hne; reflexivity.
  - destruct v; app_step; rewrite Hne; reflexivity.
Qed.

Lemma toggle_manual v j d nid nw :
  toggleState (State v false (Some j) None [Timer j d (SetIsAutoMode true)] nid nw)
  = State (flip v) false (Some nid) None
          [Timer nid (nw + 10000) (SetIsAutoMode true)] (Pos.succ nid) nw.
Proof.
  destruct v; app_step; reflexivity.
Qed.

Lemma shape_mount : shape mount.
Proof.
  unfold mount. app_unfold. apply (@shape_auto TREE_SHAPE None 1%positive).
  - cbn [dwell]. lia.
  - lia.
  - intros j Hj; discriminate.
Qed.

Lemma dwell_pos v : 0 < dwell v.
Proof. destruct v; cbn; lia. Qed.

Lemma shape_toggleState s : shape s -> shape (toggleState s).
Proof.
  intros [v idle id d nid nw Hd Hid Hidle | v j d nid nw Hd Hj].
  - rewrite toggle_auto by assumption. constructor; lia.
  - rewrite toggle_manual. constructor; lia.
Qed.

Lemma shape_tick s : shape s -> shape (tick s).
Proof.
  intros [v idle id d nid nw Hd Hid Hidle | v j d nid nw Hd Hj].
  - destruct (N.eq_dec d (nw + 1)) as [->|Hne].
    + rewrite tick_auto_fire by assumption.
      pose proof (dwell_pos (flip v)).
      constructor; [lia | lia |]. intros j Hj. specialize (Hidle j Hj). lia.
    + rewrite tick_auto_wait by lia. constructor; try assumption. lia.
  - destruct (N.eq_dec d (nw + 1)) as [->|Hne].
    + rewrite tick_manual_fire.
      pose proof (dwell_pos v).
      constructor; [lia | lia |]. intros j' Hj'. injection Hj' as <-. assumption.
    + rewrite tick_manual_wait by lia. constructor; try assumption. lia.
Qed.

Lemma reachable_shape s : reachable s -> shape s.
Proof.
  induction 1; auto using shape_mount, shape_toggleState, shape_tick.
Qed.

Lemma reachable_advance d s : reachable s -> reachable (advance d s).
Proof.
  intros H. unfold advance. apply N.iter_invariant; [|assumption].
  intros; now apply reach_tick.
Qed.

Lemma advance_succ k s : advance (k + 1) s = tick (advance k s).
Proof. unfold advance. rewrite N.add_1_r. apply N.iter_succ. Qed.

Lemma advance_auto_wait v idle id d nid nw k :
  nw + k < d ->
  advance k (State v true idle (Some id) [Timer id d (SetTreeState (flip v))] nid nw)
  = State v true idle (Some id) [Timer id d (SetTreeState (flip v))] nid (nw + k).
Proof.
  induction k as [|k IH] using N.peano_ind; intros H.
  - now rewrite N.add_0_r.
  - rewrite <- N.add_1_r, advance_succ, IH by lia.
    rewrite tick_auto_wait by lia. now rewrite N.add_assoc.
Qed.

Lemma advance_manual_wait v j d nid nw k :
  nw + k < d ->
  advance k (State v false (Some j) None [Timer j d (SetIsAutoMode true)] nid nw)
  = State v false (Some j) None [Timer j d (SetIsAutoMode true)] nid (nw + k).
Proof.
  induction k as [|k IH] using N.peano_ind; intros H.
  - now rewrite N.add_0_r.
  - rewrite <- N.add_1_r, advance_succ, IH by lia.
    rewrite tick_manual_wait by lia. now rewrite N.add_assoc.
Qed.

Lemma advance_auto_fire v idle id nid nw k :
  (id < nid)%positive ->
  advance (k + 1)
    (State v true idle (Some id) [Timer id (nw + k + 1) (SetTreeState (flip v))] nid nw)
  = State (flip v) true idle (Some nid)
          [Timer nid (nw + k + 1 + dwell (flip v)) (SetTreeState (flip (flip v)))]
          (Pos.succ nid) (nw + k + 1).
Proof.
  intros H. rewrite advance_succ, advance_auto_wait by lia.
  now apply tick_auto_fire.
Qed.

Lemma advance_manual_fire v j nid nw k :
  advance (k + 1)
    (State v false (Some j) None [Timer j (nw + k + 1) (SetIsAutoMode true)] nid nw)
  = State v true (Some j) (Some nid)
          [Timer nid (nw + k + 1 + dwell v) (SetTreeState (flip v))]
          (Pos.succ nid) (nw + k + 1).
Proof.
  rewrite advance_succ, advance_manual_wait by lia.
  apply tick_manual_fire.
Qed.

(** A click leads to the same state from both shapes. *)
Lemma toggleState_shape s :
  shape s ->
  exists nid,
    toggleState s
    = State (flip (treeState s)) false (Some nid) None
            [Timer nid (now s + 10000) (SetIsAutoMode true)] (Pos.succ nid) (now s).
Proof.
  intros [v idle id d nid nw Hd Hid Hidle | v j d nid nw Hd Hj]; exists nid.
  - now rewrite toggle_auto.
  - now rewrite toggle_manual.
Qed.

(** A dwell period runs its full length, then the arrangement flips and the
    next dwell period begins. *)
Lemma dwell_runs s :
  shape s -> dwell_begins s ->
  (forall d, d < dwell (treeState s) ->
             treeState (advance d s) = treeState s /\ isAutoMode (advance d s) = true) /\
  treeState (advance (dwell (treeState s)) s) = flip (treeState s) /\
  dwell_begins (advance (dwell (treeState s)) s).
Proof.
  intros Hs [Hauto (t & Ht & _ & Hdl)].
  destruct Hs as [v idle id d nid nw Hd Hid Hidle | v j d nid nw Hd Hj];
    [|discriminate Hauto].
  cbn [timers now treeState] in Ht, Hdl |- *.
  injection Ht as <-. cbn [deadline] in Hdl. subst d.
  assert (E : exists k, dwell v = k + 1)
    by (exists (dwell v - 1); pose proof (dwell_pos v); lia).
  destruct E as [k E]. rewrite E in *. rewrite N.add_assoc.
  split; [|split].
  - intros m Hm. rewrite advance_auto_wait by lia. now split.
  - now rewrite advance_auto_fire.
  - rewrite advance_auto_fire by assumption.
    split; [reflexivity|]. eexists; split; [reflexivity|]. now split.
Qed.

(** After a click, automatic mode stays off for exactly 10000 ms. *)
Lemma idle_runs s :
  shape s ->
  let s' := toggleState s in
  (forall d, d < 10000 ->
             isAutoMode (advance d s') = false /\ treeState (advance d s') = treeState s') /\
  isAutoMode (advance 10000 s') = true /\
  treeState (advance 10000 s') = treeState s' /\
  dwell_begins (advance 10000 s').
Proof.
  intros Hs s'. destruct (toggleState_shape Hs) as [nid E].
  subst s'. rewrite E. clear E.
  split; [|split; [|split]].
  - intros k Hk. rewrite advance_manual_wait by lia. now split.
  - change 10000 with (9999 + 1) at 1.
    replace (now s + 10000) with (now s + 9999 + 1) by lia.
    now rewrite advance_manual_fire.
  - change 10000 with (9999 + 1) at 1.
    replace (now s + 10000) with (now s + 9999 + 1) by lia.
    now rewrite advance_manual_fire.
  - change 10000 with (9999 + 1) at 1.
    replace (now s + 10000) with (now s + 9999 + 1) by lia.
    rewrite advance_manual_fire.
    split; [reflexivity|]. eexists; split; [reflexivity|]. now split.
Qed.

(** C4. In automatic mode the arrangement stays TREE_SHAPE for 8000 ms and
    then becomes SCATTERED, stays SCATTERED for 4000 ms and then becomes
    TREE_SHAPE again (each dwell period is followed by the next one).  A click
    flips the arrangement at once and switches automatic mode off; automatic
    mode comes back exactly 10000 ms after a click that no other click
    follows, so a second click made [d1 < 10000] ms after a first one moves
    the resumption to 10000 ms after the second. *)
Theorem C4_arrangement_schedule :
  (treeState mount = TREE_SHAPE /\ dwell_begins mount) /\
  (forall s, reachable s -> dwell_begins s -> treeState s = TREE_SHAPE ->
     (forall d, d < 8000 ->
        treeState (advance d s) = TREE_SHAPE /\ isAutoMode (advance d s) = true) /\
     treeState (advance 8000 s) = SCATTERED /\
     dwell_begins (advance 8000 s)) /\
  (forall s, reachable s -> dwell_begins s -> treeState s = SCATTERED ->
     (forall d, d < 4000 ->
        treeState (advance d s) = SCATTERED /\ isAutoMode (advance d s) = true) /\
     treeState (advance 4000 s) = TREE_SHAPE /\
     dwell_begins (advance 4000 s)) /\
  (forall s, reachable s ->
     (treeState s = TREE_SHAPE -> treeState (toggleState s) = SCATTERED) /\
     (treeState s = SCATTERED -> treeState (toggleState s) = TREE_SHAPE) /\
     isAutoMode (toggleState s) = false /\
     now (toggleState s) = now s) /\
  (forall s, reachable s ->
     (forall d, d < 10000 ->
        isAutoMode (advance d (toggleState s)) = false /\
        (treeState s = TREE_SHAPE ->
         treeState (advance d (toggleState s)) = SCATTERED) /\
        (treeState s = SCATTERED ->
         treeState (advance d (toggleState s)) = TREE_SHAPE)) /\
     isAutoMode (advance 10000 (toggleState s)) = true /\
     dwell_begins (advance 10000 (toggleState s))) /\
  (forall s d1, reachable s -> d1 < 10000 ->
     let s2 := toggleState (advance d1 (toggleState s)) in
     (forall d, d < 10000 -> isAutoMode (advance d s2) = false) /\
     isAutoMode (advance 10000 s2) = true).
Proof.
  split; [|split; [|split; [|split; [|split]]]].
  - split; [reflexivity|]. split; [reflexivity|].
    eexists; split; [reflexivity|]. now split.
  - intros s Hr Hb Ht.
    pose proof (dwell_runs (reachable_shape Hr) Hb) as H.
    rewrite Ht in H. exact H.
  - intros s Hr Hb Ht.
    pose proof (dwell_runs (reachable_shape Hr) Hb) as H.
    rewrite Ht in H. exact H.
  - intros s Hr. destruct (toggleState_shape (reachable_shape Hr)) as [nid ->].
    cbn [treeState isAutoMode now].
    split; [intros ->; reflexivity|]. split; [intros ->; reflexivity|]. now split.
  - intros s Hr.
    destruct (idle_runs (reachable_shape Hr)) as (Hw & Ha & Ht & Hb).
    assert (Hf : treeState (toggleState s) = flip (treeState s))
      by (destruct (toggleState_shape (reachable_shape Hr)) as [nid ->]; reflexivity).
    split; [|now split].
    intros d Hd. destruct (Hw d Hd) as [H1 H2]. split; [exact H1|].
    rewrite H2, Hf. split; intros ->; reflexivity.
  - intros s d1 Hr Hd1 s2.
    assert (Hr' : reachable (advance d1 (toggleState s)))
      by (apply reachable_advance, reach_click, Hr).
    destruct (idle_runs (reachable_shape Hr')) as (Hw & Ha & _).
    split; [|exact Ha]. intros d Hd. now destruct (Hw d Hd).
Qed.

Lemma C4_arrangement_schedule_witness :
  reachable mount /\
  treeState (advance 8000 mount) = SCATTERED /\
  treeState (toggleState mount) = SCATTERED /\
  treeState (advance 9999 (toggleState mount)) = SCATTERED /\
  treeState (toggleState (advance 8000 mount)) = TREE_SHAPE /\
  isAutoMode (toggleState mount) = false /\
  isAutoMode (advance 10000 (toggleState mount)) = true /\
  isAutoMode (advance 9999 (toggleState (advance 9999 (toggleState mount)))) = false.
Proof.
  destruct C4_arrangement_schedule as ((Hm & Hb) & Htree & _ & Hclick & Hidle & Hlast).
  assert (H8 : treeState (advance 8000 mount) = SCATTERED)
    by exact (proj1 (proj2 (Htree mount reach_mount Hb Hm))).
  assert (Hr8 : reachable (advance 8000 mount))
    by (apply reachable_advance; exact reach_mount).
  split; [exact reach_mount|]. split; [exact H8|].
  split; [exact (proj1 (Hclick mount reach_mount) Hm)|].
  split.
  { refine (proj1 (proj2 (proj1 (Hidle mount reach_mount) 9999 _)) Hm). reflexivity. }
  split; [exact (proj1 (proj2 (Hclick _ Hr8)) H8)|].
  split; [exact (proj1 (proj2 (proj2 (Hclick mount reach_mount))))|].
  split.
  - exact (proj1 (proj2 (Hidle mount reach_mount))).
  - refine (proj1 (Hlast mount 9999 reach_mount _) 9999 _); reflexivity.
Defined.

(** C5, as the code has it.  In every reachable state exactly one timer is
    pending: the arrangement-transition timer while automatic mode is on (and
    then no resume timer), the resume-auto-mode timer while manual override is
    active (and then no transition timer).  So neither kind ever has more
    than one pending timer, however often the user clicks. *)
Theorem C5_one_pending_timer s :
  reachable s ->
  (isAutoMode s = true ->
     pending_transitions s = 1%nat /\ pending_resumes s = 0%nat) /\
  (isAutoMode s = false ->
     pending_transitions s = 0%nat /\ pending_resumes s = 1%nat) /\
  (pending_transitions s <= 1)%nat /\ (pending_resumes s <= 1)%nat /\
  List.length (timers s) = 1%nat.
Proof.
  intros Hr.
  destruct (reachable_shape Hr) as [v idle id d nid nw _ _ _ | v j d nid nw _ _];
    cbv [pending_transitions pending_resumes timers isAutoMode filter
         is_transition is_resume action List.length];
    repeat split; intros; try discriminate; try reflexivity; lia.
Qed.

Lemma C5_one_pending_timer_witness :
  reachable (toggleState (toggleState mount)) /\
  pending_transitions (toggleState (toggleState mount)) = 0%nat /\
  pending_resumes (toggleState (toggleState mount)) = 1%nat.
Proof.
  assert (Hr : reachable (toggleState (toggleState mount)))
    by (do 2 apply reach_click; exact reach_mount).
  split; [exact Hr|].
  exact (proj1 (proj2 (C5_one_pending_timer Hr)) eq_refl).
Defined.

(** C5 as stated fails: after one click no arrangement-transition timer is
    pending (manual override is active; only the resume timer is). *)
Lemma C5_counterexample :
  reachable (toggleState mount) /\
  isAutoMode (toggleState mount) = false /\
  pending_transitions (toggleState mount) <> 1%nat.
Proof.
  split; [apply reach_click, reach_mount|]. split; [reflexivity|].
  cbv. discriminate.
Qed.

End AppFacts.

(** ** The frame callbacks *)

Section ListFacts.

Context {A : Type}.

Lemma length_set_nth (l : list A) i v : List.length (THREE.set_nth i v l) = List.length l.
Proof.
  revert i; induction l as [|h t IH]; intros [|i]; cbn; auto.
Qed.

Lemma nth_error_set_nth_eq (l : list A) i v :
  (i < List.length l)%nat -> nth_error (THREE.set_nth i v l) i = Some v.
Proof.
  revert i; induction l as [|h t IH]; intros [|i] H; cbn in *; try lia; auto.
  apply IH; lia.
Qed.

Lemma nth_error_set_nth_ne (l : list A) i j v :
  i <> j -> nth_error (THREE.set_nth i v l) j = nth_error l j.
Proof.
  revert i j; induction l as [|h t IH]; intros [|i] [|j] H; cbn; auto; congruence.
Qed.

End ListFacts.

Section MorphingGroupFacts.

Import JS MorphingGroup.
Local Open Scope R_scope.

Lemma same_layout_refl c : same_layout c c.
Proof. now repeat split. Qed.

Lemma same_layout_trans c1 c2 c3 :
  same_layout c1 c2 -> same_layout c2 c3 -> same_layout c1 c3.
Proof. unfold same_layout; intuition congruence. Qed.

Lemma isCandyCane_layout c c' : same_layout c c' -> isCandyCane c' = isCandyCane c.
Proof. intros (H & _). unfold isCandyCane. now rewrite H. Qed.

Lemma forEach_body_spec nf t i item c mesh :
  meshRef c = Some mesh ->
  exists c',
    forEach_body nf t i item c = Normal c' /\
    meshRef c' = Some (THREE.setMatrixAt i (item_matrix (isCandyCane c) nf t i item) mesh) /\
    same_layout c c'.
Proof.
  intros H. unfold forEach_body. rewrite H. cbn [deref bind].
  eexists; split; [reflexivity|].
  destruct (isGiftBox _); cbn; now repeat split.
Qed.

(** The loop never throws once the guard has passed; it writes the matrix of
    every item that has a slot and leaves the slots before [i] alone. *)
Lemma forEach_spec nf t items : forall i c mesh,
  meshRef c = Some mesh ->
  exists c' mesh',
    forEach nf t i items c = Normal c' /\
    meshRef c' = Some mesh' /\
    THREE.im_factor mesh' = THREE.im_factor mesh /\
    List.length (THREE.instanceMatrix mesh') = List.length (THREE.instanceMatrix mesh) /\
    same_layout c c' /\
    (forall k, (k < i)%nat ->
       nth_error (THREE.instanceMatrix mesh') k = nth_error (THREE.instanceMatrix mesh) k) /\
    (forall k item, nth_error items k = Some item ->
       (i + k < List.length (THREE.instanceMatrix mesh))%nat ->
       nth_error (THREE.instanceMatrix mesh') (i + k)
       = Some (item_matrix (isCandyCane c) nf t (i + k) item)).
Proof.
  induction items as [|item rest IH]; intros i c mesh H.
  - exists c, mesh. cbn [forEach]. repeat split; auto.
    intros [|k] it Hk; discriminate.
  - destruct (forEach_body_spec nf t i item c H) as (c1 & E1 & M1 & L1).
    destruct (IH (S i) c1 _ M1) as (c' & mesh' & E & M & F & Len & L & Before & At).
    exists c', mesh'. cbn [forEach]. rewrite E1. cbn [bind].
    cbn [THREE.setMatrixAt THREE.im_factor THREE.instanceMatrix] in F, Len, Before, At.
    rewrite length_set_nth in Len, At.
    repeat split; auto.
    + apply (same_layout_trans L1 L).
    + apply (same_layout_trans L1 L).
    + apply (same_layout_trans L1 L).
    + intros k Hk. rewrite Before by lia. apply nth_error_set_nth_ne; lia.
    + intros [|k] it Hk Hlen.
      * cbn in Hk. injection Hk as <-. rewrite Nat.add_0_r in *.
        rewrite Before by lia. now apply nth_error_set_nth_eq.
      * cbn in Hk. rewrite <- Nat.add_succ_comm in *.
        rewrite (At k it Hk Hlen). now rewrite (isCandyCane_layout L1).
Qed.

(** What a frame does to a group whose mesh exists. *)
Lemma group_useFrame_spec state t dt c mesh :
  meshRef c = Some mesh ->
  exists c' mesh',
    useFrame state t dt c = Normal c' /\
    meshRef c' = Some mesh' /\
    THREE.im_factor mesh' = Some (newFactor_of state dt mesh) /\
    List.length (THREE.instanceMatrix mesh') = List.length (THREE.instanceMatrix mesh) /\
    same_layout c c' /\
    (forall k item, nth_error (data c) k = Some item ->
       (k < List.length (THREE.instanceMatrix mesh))%nat ->
       nth_error (THREE.instanceMatrix mesh') k
       = Some (item_matrix (isCandyCane c) (newFactor_of state dt mesh) t k item)).
Proof.
  intros H. unfold useFrame. rewrite H.
  set (nf := newFactor_of state dt mesh).
  set (c1 := set_meshRef (THREE.set_factor nf mesh) c).
  assert (M1 : meshRef c1 = Some (THREE.set_factor nf mesh)) by reflexivity.
  assert (L1 : same_layout c c1) by (now repeat split).
  destruct (forEach_spec nf t (data c1) 0 c1 M1)
    as (c2 & mesh2 & E & M & F & Len & L & _ & At).
  rewrite E. cbn [bind]. rewrite M. cbn [deref bind].
  eexists. exists (THREE.set_needsUpdate mesh2).
  split; [reflexivity|].
  assert (L2 : same_layout c c2) by exact (same_layout_trans L1 L).
  repeat split.
  - destruct (isGiftBox _); reflexivity.
  - cbn. rewrite F. reflexivity.
  - cbn. rewrite Len. reflexivity.
  - destruct (isGiftBox _); cbn; apply L2.
  - destruct (isGiftBox _); cbn; apply L2.
  - destruct (isGiftBox _); cbn; apply L2.
  - intros k item Hk Hlen. cbn [THREE.set_needsUpdate THREE.instanceMatrix].
    rewrite <- (isCandyCane_layout L1).
    apply (At k item); [exact Hk | exact Hlen].
Qed.

End MorphingGroupFacts.

Section BlendFacts.

Local Open Scope R_scope.

Lemma lerp_error f target w :
  THREE.lerp f target w - target = (1 - w) * (f - target).
Proof. unfold THREE.lerp; ring. Qed.

Lemma lerp_up f w : 0 <= w <= 1 -> f <= 1 -> f <= THREE.lerp f 1 w <= 1.
Proof. intros Hw Hf. unfold THREE.lerp. split; nra. Qed.

Lemma lerp_down f w : 0 <= w <= 1 -> 0 <= f -> 0 <= THREE.lerp f 0 w <= f.
Proof. intros Hw Hf. unfold THREE.lerp. split; nra. Qed.

Lemma clamp_id w : 0 <= w <= 1 -> JS.clamp w 0 1 = w.
Proof.
  intros [H0 H1]. unfold JS.clamp.
  rewrite (Rmin_right 1 w) by exact H1. now apply Rmax_right.
Qed.

Lemma clamp_above w : 1 <= w -> JS.clamp w 0 1 = 1.
Proof.
  intros H. unfold JS.clamp.
  rewrite (Rmin_left 1 w) by exact H. apply Rmax_right; lra.
Qed.

Lemma targetFactor_range state : 0 <= targetFactor state <= 1.
Proof. destruct state; cbn; lra. Qed.

(** With frames of at most [1 / speed], the factor moves toward the target
    and never past it. *)
Lemma run_toward speed state fs : forall f,
  0 <= speed -> Blend.short_frames speed fs -> 0 <= f <= 1 ->
  let f' := Blend.run speed (targetFactor state) (map snd fs) f in
  0 <= f' <= 1 /\
  (state = TREE_SHAPE -> f <= f') /\
  (state = SCATTERED -> f' <= f).
Proof.
  induction fs as [|[t dt] rest IH]; intros f Hsp Hs Hf; cbn.
  - repeat split; try lra.
  - inversion Hs as [|x l [Hdt Hw] Hrest]; subst. cbn in Hdt, Hw.
    assert (Hw' : 0 <= dt * speed <= 1) by (split; [nra | exact Hw]).
    assert (H1 : 0 <= THREE.lerp f (targetFactor state) (dt * speed) <= 1).
    { destruct state; cbn.
      - pose proof (lerp_down Hw' (proj1 Hf)); lra.
      - pose proof (lerp_up Hw' (proj2 Hf)); lra. }
    destruct (IH _ Hsp Hrest H1) as (Hr & Hup & Hdown).
    split; [exact Hr|]. split; intros ->; cbn in *.
    + pose proof (lerp_up Hw' (proj2 Hf)). specialize (Hup eq_refl). lra.
    + pose proof (lerp_down Hw' (proj1 Hf)). specialize (Hdown eq_refl). lra.
Qed.

(** The exponential-approach law. *)
Lemma elapsed_cons dt rest : Blend.elapsed (dt :: rest) = dt + Blend.elapsed rest.
Proof. reflexivity. Qed.

Lemma run_exponential speed target fs : forall f,
  Blend.short_frames speed fs ->
  Rabs (Blend.run speed target (map snd fs) f - target)
  <= Rabs (f - target) * exp (- (speed * Blend.elapsed (map snd fs))).
Proof.
  induction fs as [|[t dt] rest IH]; intros f Hs.
  - cbn. rewrite Rmult_0_r, Ropp_0, exp_0. lra.
  - inversion Hs as [|x l [Hdt Hw] Hrest]; subst. cbn [snd] in Hdt, Hw.
    cbn [map snd Blend.run]. rewrite elapsed_cons.
    eapply Rle_trans; [apply IH; exact Hrest|].
    rewrite lerp_error, Rabs_mult.
    rewrite (Rabs_right (1 - dt * speed)) by lra.
    replace (- (speed * (dt + Blend.elapsed (map snd rest))))
      with (- (dt * speed) + - (speed * Blend.elapsed (map snd rest))) by ring.
    rewrite exp_plus.
    pose proof (exp_ineq1_le (- (dt * speed))) as He.
    pose proof (Rabs_pos (f - target)) as Ha.
    pose proof (exp_pos (- (speed * Blend.elapsed (map snd rest)))) as Hp.
    assert (H2 : (1 - dt * speed) * Rabs (f - target)
                 <= exp (- (dt * speed)) * Rabs (f - target))
      by (apply Rmult_le_compat_r; lra).
    nra.
Qed.

End BlendFacts.

Section FrameRuns.

Import JS.
Local Open Scope R_scope.

(** Any run of frames of a mounted group returns and keeps the layout. *)
Lemma group_frames_layout fs : forall c mesh,
  MorphingGroup.meshRef c = Some mesh ->
  exists c' mesh',
    MorphingGroup.frames fs c = Normal c' /\
    MorphingGroup.meshRef c' = Some mesh' /\
    MorphingGroup.same_layout c c'.
Proof.
  induction fs as [|[[state t] dt] rest IH]; intros c mesh H.
  - exists c, mesh. repeat split; auto.
  - destruct (group_useFrame_spec state t dt c H) as (c1 & mesh1 & E & M & _ & _ & L & _).
    destruct (IH c1 mesh1 M) as (c' & mesh' & E' & M' & L').
    exists c', mesh'. cbn [MorphingGroup.frames]. rewrite E. cbn [bind].
    repeat split; auto; apply (same_layout_trans L L').
Qed.

Lemma group_frames_hold state fs : forall c mesh,
  MorphingGroup.meshRef c = Some mesh ->
  exists c',
    MorphingGroup.frames (Blend.hold state fs) c = Normal c' /\
    nullish (MorphingGroup.factor c') 0
    = Blend.run MorphingGroup.speed (targetFactor state) (map snd fs)
                (nullish (THREE.im_factor mesh) 0).
Proof.
  induction fs as [|[t dt] rest IH]; intros c mesh H.
  - exists c. split; [reflexivity|]. unfold MorphingGroup.factor. now rewrite H.
  - destruct (group_useFrame_spec state t dt c H) as (c1 & mesh1 & E & M & F & _).
    destruct (IH c1 mesh1 M) as (c' & E' & R').
    exists c'. cbn [Blend.hold map fst snd MorphingGroup.frames].
    rewrite E. cbn [bind]. split; [exact E'|].
    rewrite R', F. reflexivity.
Qed.

Lemma star_useFrame_spec state t dt c o :
  TopStar.meshRef c = Some o ->
  exists c' o',
    TopStar.useFrame state t dt c = Normal c' /\
    TopStar.meshRef c' = Some o' /\
    TopStar.scatterPos c' = TopStar.scatterPos c /\
    THREE.userData_factor o' = Some (TopStar.newFactor_of state dt o) /\
    THREE.position o'
    = THREE.lerpVectors (TopStar.scatterPos c) TopStar.treePos
                        (TopStar.newFactor_of state dt o) /\
    THREE.rotation o'
    = THREE.Eul (sin t * ((1 - TopStar.newFactor_of state dt o) * 2))
                (t * 0.5)
                (cos (t * 0.8) * ((1 - TopStar.newFactor_of state dt o) * 2)).
Proof.
  intros H. unfold TopStar.useFrame. rewrite H.
  eexists; eexists. split; [reflexivity|]. now repeat split.
Qed.

Lemma star_frames_hold state fs : forall c o,
  TopStar.meshRef c = Some o ->
  exists c',
    TopStar.frames (Blend.hold state fs) c = Normal c' /\
    nullish (TopStar.factor c') 0
    = Blend.run TopStar.speed (targetFactor state) (map snd fs)
                (nullish (THREE.userData_factor o) 0).
Proof.
  induction fs as [|[t dt] rest IH]; intros c o H.
  - exists c. split; [reflexivity|]. unfold TopStar.factor. now rewrite H.
  - destruct (star_useFrame_spec state t dt c H) as (c1 & o1 & E & M & _ & F & _).
    destruct (IH c1 o1 M) as (c' & E' & R').
    exists c'. cbn [Blend.hold map fst snd TopStar.frames].
    rewrite E. cbn [bind]. split; [exact E'|].
    rewrite R', F. reflexivity.
Qed.

Lemma logo_useFrame_spec state t dt c o :
  LogoElement.meshRef c = Some o ->
  exists c' o',
    LogoElement.useFrame state t dt c = Normal c' /\
    LogoElement.meshRef c' = Some o' /\
    LogoElement.scatterConfig c' = LogoElement.scatterConfig c /\
    LogoElement.targetOffset c' = LogoElement.targetOffset c /\
    THREE.userData_factor o' = Some (LogoElement.newFactor_of state dt o) /\
    THREE.rotation o'
    = LogoElement.frame_rotation (LogoElement.scatterConfig c)
                                 (LogoElement.newFactor_of state dt o) t.
Proof.
  intros H. unfold LogoElement.useFrame. rewrite H.
  eexists; eexists. split; [reflexivity|]. now repeat split.
Qed.

Lemma logo_frames_hold state fs : forall c o,
  LogoElement.meshRef c = Some o ->
  exists c',
    LogoElement.frames (Blend.hold state fs) c = Normal c' /\
    nullish (LogoElement.factor c') 0
    = Blend.run LogoElement.speed (targetFactor state) (map snd fs)
                (nullish (THREE.userData_factor o) 0).
Proof.
  induction fs as [|[t dt] rest IH]; intros c o H.
  - exists c. split; [reflexivity|]. unfold LogoElement.factor. now rewrite H.
  - destruct (logo_useFrame_spec state t dt c H) as (c1 & o1 & E & M & _ & _ & F & _).
    destruct (IH c1 o1 M) as (c' & E' & R').
    exists c'. cbn [Blend.hold map fst snd LogoElement.frames].
    rewrite E. cbn [bind]. split; [exact E'|].
    rewrite R', F. reflexivity.
Qed.

(** The concrete instances, written out. *)
Lemma group0_meshRef :
  MorphingGroup.meshRef Example.group0 = Some (THREE.new_InstancedMesh 1).
Proof. reflexivity. Qed.

Lemma star0_meshRef : TopStar.meshRef Example.star0 = Some THREE.fresh_object.
Proof. reflexivity. Qed.

Lemma logo0_meshRef : LogoElement.meshRef Example.logo0 = Some THREE.fresh_object.
Proof. reflexivity. Qed.

End FrameRuns.

Section BlendClaims.

Import JS.
Local Open Scope R_scope.

(** C1, as the code has it.  Every frame of a morphing group, of the star and
    of a logo element whose render object exists stores
    [lerp(factor ?? 0, target, delta * speed)], with target 1 for TREE_SHAPE
    and 0 for SCATTERED and speed 2.5 for the groups, 2.0 for the star and
    the logo.  The weight [delta * speed] is used as it is; the stored value
    is the clamped formula's whenever [0 <= delta * speed <= 1]. *)
Theorem C1_factor_update :
  (forall state t dt c mesh,
     MorphingGroup.meshRef c = Some mesh ->
     exists c',
       MorphingGroup.useFrame state t dt c = Normal c' /\
       MorphingGroup.factor c'
       = Some (THREE.lerp (nullish (THREE.im_factor mesh) 0) (targetFactor state) (dt * 2.5))) /\
  (forall state t dt c o,
     TopStar.meshRef c = Some o ->
     exists c',
       TopStar.useFrame state t dt c = Normal c' /\
       TopStar.factor c'
       = Some (THREE.lerp (nullish (THREE.userData_factor o) 0) (targetFactor state) (dt * 2.0))) /\
  (forall state t dt c o,
     LogoElement.meshRef c = Some o ->
     exists c',
       LogoElement.useFrame state t dt c = Normal c' /\
       LogoElement.factor c'
       = Some (THREE.lerp (nullish (THREE.userData_factor o) 0) (targetFactor state) (dt * 2.0))) /\
  (targetFactor TREE_SHAPE = 1 /\ targetFactor SCATTERED = 0) /\
  (forall f target dt speed,
     0 <= dt * speed <= 1 ->
     THREE.lerp f target (dt * speed) = Spec.blend f target dt speed).
Proof.
  split; [|split; [|split; [|split]]].
  - intros state t dt c mesh H.
    destruct (group_useFrame_spec state t dt c H) as (c' & mesh' & E & M & F & _).
    exists c'. split; [exact E|]. unfold MorphingGroup.factor. rewrite M. exact F.
  - intros state t dt c o H.
    destruct (star_useFrame_spec state t dt c H) as (c' & o' & E & M & _ & F & _).
    exists c'. split; [exact E|]. unfold TopStar.factor. rewrite M. exact F.
  - intros state t dt c o H.
    destruct (logo_useFrame_spec state t dt c H) as (c' & o' & E & M & _ & _ & F & _).
    exists c'. split; [exact E|]. unfold LogoElement.factor. rewrite M. exact F.
  - split; reflexivity.
  - intros f target dt speed H. unfold Spec.blend. now rewrite clamp_id.
Qed.

Lemma C1_factor_update_witness :
  (exists c',
     MorphingGroup.useFrame SCATTERED 0 0.25 Example.group0 = Normal c' /\
     MorphingGroup.factor c' = Some (THREE.lerp 0 0 (0.25 * 2.5))) /\
  THREE.lerp 0.5 1 (0.25 * 2) = Spec.blend 0.5 1 0.25 2.
Proof.
  destruct C1_factor_update as (Hg & _ & _ & _ & Hc).
  split.
  - exact (Hg SCATTERED 0 0.25 Example.group0 _ group0_meshRef).
  - apply Hc. lra.
Defined.

(** C1 as stated fails: a first frame that lasts one second stores 2.5 in a
    group that is forming the tree, while the clamped formula gives 1. *)
Lemma C1_counterexample :
  exists c',
    MorphingGroup.useFrame TREE_SHAPE 0 1 Example.group0 = Normal c' /\
    MorphingGroup.factor c' = Some 2.5 /\
    Spec.blend (nullish (MorphingGroup.factor Example.group0) 0) 1 1 2.5 = 1.
Proof.
  destruct (group_useFrame_spec TREE_SHAPE 0 1 Example.group0 group0_meshRef)
    as (c' & mesh' & E & M & F & _).
  exists c'. split; [exact E|]. split.
  - unfold MorphingGroup.factor. rewrite M, F. f_equal.
    unfold MorphingGroup.newFactor_of, MorphingGroup.speed, THREE.lerp; cbn. lra.
  - unfold Spec.blend. rewrite clamp_above by lra.
    unfold THREE.lerp; cbn. lra.
Qed.

(** C2, as the code has it.  Start from a factor in [0, 1] (0 at mount) and
    run frames that hold one arrangement, each with [0 < delta] and
    [delta * speed <= 1].  Then the factor stays in [0, 1], does not decrease
    while the target is 1, does not increase while the target is 0, and its
    distance to the target is at most the initial distance times
    [exp(- (speed * elapsed))]. *)
Theorem C2_factor_monotone_convergent state fs :
  (forall c mesh,
     MorphingGroup.meshRef c = Some mesh ->
     Blend.short_frames 2.5 fs ->
     0 <= nullish (THREE.im_factor mesh) 0 <= 1 ->
     exists c',
       MorphingGroup.frames (Blend.hold state fs) c = Normal c' /\
       0 <= nullish (MorphingGroup.factor c') 0 <= 1 /\
       (state = TREE_SHAPE ->
          nullish (THREE.im_factor mesh) 0 <= nullish (MorphingGroup.factor c') 0) /\
       (state = SCATTERED ->
          nullish (MorphingGroup.factor c') 0 <= nullish (THREE.im_factor mesh) 0) /\
       Rabs (nullish (MorphingGroup.factor c') 0 - targetFactor state)
       <= Rabs (nullish (THREE.im_factor mesh) 0 - targetFactor state)
          * exp (- (2.5 * Blend.elapsed (map snd fs)))) /\
  (forall c o,
     LogoElement.meshRef c = Some o ->
     Blend.short_frames 2.0 fs ->
     0 <= nullish (THREE.userData_factor o) 0 <= 1 ->
     exists c',
       LogoElement.frames (Blend.hold state fs) c = Normal c' /\
       0 <= nullish (LogoElement.factor c') 0 <= 1 /\
       (state = TREE_SHAPE ->
          nullish (THREE.userData_factor o) 0 <= nullish (LogoElement.factor c') 0) /\
       (state = SCATTERED ->
          nullish (LogoElement.factor c') 0 <= nullish (THREE.userData_factor o) 0) /\
       Rabs (nullish (LogoElement.factor c') 0 - targetFactor state)
       <= Rabs (nullish (THREE.userData_factor o) 0 - targetFactor state)
          * exp (- (2.0 * Blend.elapsed (map snd fs)))) /\
  (forall c o,
     TopStar.meshRef c = Some o ->
     Blend.short_frames 2.0 fs ->
     0 <= nullish (THREE.userData_factor o) 0 <= 1 ->
     exists c',
       TopStar.frames (Blend.hold state fs) c = Normal c' /\
       0 <= nullish (TopStar.factor c') 0 <= 1 /\
       (state = TREE_SHAPE ->
          nullish (THREE.userData_factor o) 0 <= nullish (TopStar.factor c') 0) /\
       (state = SCATTERED ->
          nullish (TopStar.factor c') 0 <= nullish (THREE.userData_factor o) 0) /\
       Rabs (nullish (TopStar.factor c') 0 - targetFactor state)
       <= Rabs (nullish (THREE.userData_factor o) 0 - targetFactor state)
          * exp (- (2.0 * Blend.elapsed (map snd fs)))).
Proof.
  split; [|split].
  - intros c mesh H Hs Hf.
    destruct (group_frames_hold state fs c H) as (c' & E & R).
    exists c'. split; [exact E|]. unfold MorphingGroup.speed in R. rewrite R.
    assert (Hsp : 0 <= 2.5) by lra.
    destruct (run_toward state Hsp Hs Hf) as (Hr & Hup & Hdown).
    repeat split; try apply Hr; auto. now apply run_exponential.
  - intros c o H Hs Hf.
    destruct (logo_frames_hold state fs c H) as (c' & E & R).
    exists c'. split; [exact E|]. unfold LogoElement.speed in R. rewrite R.
    assert (Hsp : 0 <= 2.0) by lra.
    destruct (run_toward state Hsp Hs Hf) as (Hr & Hup & Hdown).
    repeat split; try apply Hr; auto. now apply run_exponential.
  - intros c o H Hs Hf.
    destruct (star_frames_hold state fs c H) as (c' & E & R).
    exists c'. split; [exact E|]. unfold TopStar.speed in R. rewrite R.
    assert (Hsp : 0 <= 2.0) by lra.
    destruct (run_toward state Hsp Hs Hf) as (Hr & Hup & Hdown).
    repeat split; try apply Hr; auto. now apply run_exponential.
Qed.

Lemma C2_factor_monotone_convergent_witness :
  Blend.short_frames 2.5 [(0, 0.25); (0.25, 0.125)] /\
  exists c',
    MorphingGroup.frames (Blend.hold TREE_SHAPE [(0, 0.25); (0.25, 0.125)]) Example.group0
    = Normal c' /\
    0 <= nullish (MorphingGroup.factor c') 0 <= 1 /\
    Rabs (nullish (MorphingGroup.factor c') 0 - 1)
    <= Rabs (0 - 1) * exp (- (2.5 * Blend.elapsed [0.25; 0.125])).
Proof.
  assert (Hs : Blend.short_frames 2.5 [(0, 0.25); (0.25, 0.125)])
    by (repeat constructor; cbn; lra).
  split; [exact Hs|].
  assert (Hf : 0 <= nullish (THREE.im_factor (THREE.new_InstancedMesh 1)) 0 <= 1)
    by (cbn; lra).
  destruct (proj1 (C2_factor_monotone_convergent TREE_SHAPE [(0, 0.25); (0.25, 0.125)])
              Example.group0 _ group0_meshRef Hs Hf)
    as (c' & E & Hr & _ & _ & Hexp).
  exists c'. split; [exact E|]. split; [exact Hr|]. exact Hexp.
Defined.

(** C2 as stated fails: two frames of one second each take a group that is
    forming the tree from 0 to 2.5 and then down to -1.25. *)
Lemma C2_counterexample :
  exists c1 c2,
    MorphingGroup.useFrame TREE_SHAPE 1 1 Example.group0 = Normal c1 /\
    MorphingGroup.useFrame TREE_SHAPE 2 1 c1 = Normal c2 /\
    MorphingGroup.factor c1 = Some 2.5 /\
    MorphingGroup.factor c2 = Some (-1.25) /\
    -1.25 < 2.5.
Proof.
  destruct (group_useFrame_spec TREE_SHAPE 1 1 Example.group0 group0_meshRef)
    as (c1 & mesh1 & E1 & M1 & F1 & _).
  destruct (group_useFrame_spec TREE_SHAPE 2 1 c1 M1)
    as (c2 & mesh2 & E2 & M2 & F2 & _).
  exists c1, c2. split; [exact E1|]. split; [exact E2|].
  assert (V1 : THREE.im_factor mesh1 = Some 2.5).
  { rewrite F1. f_equal.
    unfold MorphingGroup.newFactor_of, MorphingGroup.speed, THREE.lerp; cbn. lra. }
  split; [|split; [|lra]].
  - unfold MorphingGroup.factor. now rewrite M1.
  - unfold MorphingGroup.factor. rewrite M2, F2. f_equal.
    unfold MorphingGroup.newFactor_of. rewrite V1.
    unfold MorphingGroup.speed, THREE.lerp; cbn. lra.
Qed.

End BlendClaims.

Section RotationClaims.

Import JS.
Local Open Scope R_scope.

Lemma group0_data :
  exists item,
    MorphingGroup.data Example.group0 = [item] /\
    rotation item = THREE.Eul (0 * PI) (0 * PI) (0 * PI).
Proof. eexists. split; reflexivity. Qed.

Lemma group0_isCandyCane : MorphingGroup.isCandyCane Example.group0 = false.
Proof. reflexivity. Qed.

Lemma Eul_eq a b c a' b' c' :
  a = a' -> b = b' -> c = c' -> THREE.Eul a b c = THREE.Eul a' b' c'.
Proof. now intros -> -> ->. Qed.

(** The rotation a group writes for an item does not look at the factor. *)
Lemma item_matrix_rotation candy nf t i item :
  THREE.m_rotation (MorphingGroup.item_matrix candy nf t i item)
  = let w := if candy then 0.5 else 0.2 in
    THREE.Eul (THREE.ex (rotation item) + t * w)
              (THREE.ey (rotation item) + t * w)
              (THREE.ez (rotation item)).
Proof. destruct candy; reflexivity. Qed.

Lemma logo_rotation_snapped sc f t :
  0.95 < f -> LogoElement.frame_rotation sc f t = THREE.Eul 0 0 0.
Proof.
  intros H. unfold LogoElement.frame_rotation.
  destruct (Rlt_dec 0.95 f); [reflexivity | contradiction].
Qed.

Lemma logo_rotation_tumble sc f t :
  f <= 0.95 ->
  LogoElement.frame_rotation sc f t
  = THREE.Eul ((t + LogoElement.randomPhase sc) * THREE.x (LogoElement.rotSpeed sc) * (1 - f))
              ((t + LogoElement.randomPhase sc) * THREE.y (LogoElement.rotSpeed sc) * (1 - f))
              ((t + LogoElement.randomPhase sc) * THREE.z (LogoElement.rotSpeed sc) * 0.5 * (1 - f)).
Proof.
  intros H. unfold LogoElement.frame_rotation.
  destruct (Rlt_dec 0.95 f); [lra | reflexivity].
Qed.

(** C3, as the code has it.  A logo element whose new factor exceeds 0.95 gets
    the rotation (0, 0, 0); otherwise its rotation is the time-driven tumble
    [(t + phase) * rotSpeed] scaled by [1 - factor], and nothing snaps it at
    the scattered end: at factor 0 the tumble keeps changing with time.  The
    instanced groups and the star are never snapped: a group instance turns
    at its base rotation plus [0.2 * t] (candy canes [0.5 * t]) about x and
    y, whatever the factor, and the star spins at [0.5 * t] about y with an
    x/z tumble scaled by [2 * (1 - factor)]. *)
Theorem C3_rotation :
  (forall state t dt c o,
     LogoElement.meshRef c = Some o ->
     exists c' o' f',
       LogoElement.useFrame state t dt c = Normal c' /\
       LogoElement.meshRef c' = Some o' /\
       THREE.userData_factor o' = Some f' /\
       (0.95 < f' -> THREE.rotation o' = THREE.Eul 0 0 0) /\
       (f' <= 0.95 ->
          let sc := LogoElement.scatterConfig c in
          let time := t + LogoElement.randomPhase sc in
          THREE.rotation o'
          = THREE.Eul (time * THREE.x (LogoElement.rotSpeed sc) * (1 - f'))
                      (time * THREE.y (LogoElement.rotSpeed sc) * (1 - f'))
                      (time * THREE.z (LogoElement.rotSpeed sc) * 0.5 * (1 - f')))) /\
  (forall sc t1 t2,
     THREE.x (LogoElement.rotSpeed sc) <> 0 -> t1 <> t2 ->
     LogoElement.frame_rotation sc 0 t1 <> LogoElement.frame_rotation sc 0 t2) /\
  (forall state t dt c mesh k item,
     MorphingGroup.meshRef c = Some mesh ->
     nth_error (MorphingGroup.data c) k = Some item ->
     (k < List.length (THREE.instanceMatrix mesh))%nat ->
     exists c' mesh' m,
       MorphingGroup.useFrame state t dt c = Normal c' /\
       MorphingGroup.meshRef c' = Some mesh' /\
       nth_error (THREE.instanceMatrix mesh') k = Some m /\
       THREE.m_rotation m
       = let w := if MorphingGroup.isCandyCane c then 0.5 else 0.2 in
         THREE.Eul (THREE.ex (rotation item) + t * w)
                   (THREE.ey (rotation item) + t * w)
                   (THREE.ez (rotation item))) /\
  (forall state t dt c o,
     TopStar.meshRef c = Some o ->
     exists c' o' f',
       TopStar.useFrame state t dt c = Normal c' /\
       TopStar.meshRef c' = Some o' /\
       THREE.userData_factor o' = Some f' /\
       THREE.rotation o'
       = THREE.Eul (sin t * ((1 - f') * 2)) (t * 0.5) (cos (t * 0.8) * ((1 - f') * 2))).
Proof.
  split; [|split; [|split]].
  - intros state t dt c o H.
    destruct (logo_useFrame_spec state t dt c H) as (c' & o' & E & M & _ & _ & F & Rot).
    exists c', o', (LogoElement.newFactor_of state dt o).
    split; [exact E|]. split; [exact M|]. split; [exact F|].
    rewrite Rot. split; intros Hf.
    + now apply logo_rotation_snapped.
    + now apply logo_rotation_tumble.
  - intros sc t1 t2 Hx Ht.
    rewrite !logo_rotation_tumble by lra. intros Heq.
    injection Heq as H1 _ _. apply Ht.
    assert (H2 : (t1 - t2) * THREE.x (LogoElement.rotSpeed sc) = 0) by lra.
    apply Rmult_integral in H2. destruct H2; [lra | contradiction].
  - intros state t dt c mesh k item H Hk Hlen.
    destruct (group_useFrame_spec state t dt c H) as (c' & mesh' & E & M & _ & _ & _ & At).
    exists c', mesh'. eexists.
    split; [exact E|]. split; [exact M|]. split; [exact (At k item Hk Hlen)|].
    apply item_matrix_rotation.
  - intros state t dt c o H.
    destruct (star_useFrame_spec state t dt c H) as (c' & o' & E & M & _ & F & _ & Rot).
    exists c', o', (TopStar.newFactor_of state dt o).
    split; [exact E|]. split; [exact M|]. split; [exact F|]. exact Rot.
Qed.

Lemma C3_rotation_witness :
  exists c' o' f',
    LogoElement.useFrame TREE_SHAPE 3 0.5 Example.logo0 = Normal c' /\
    LogoElement.meshRef c' = Some o' /\
    THREE.userData_factor o' = Some f' /\
    THREE.rotation o' = THREE.Eul 0 0 0.
Proof.
  destruct (proj1 C3_rotation TREE_SHAPE 3 0.5 Example.logo0 _ logo0_meshRef)
    as (c' & o' & f' & E & M & F & Snap & _).
  exists c', o', f'. split; [exact E|]. split; [exact M|]. split; [exact F|].
  apply Snap.
  destruct (logo_useFrame_spec TREE_SHAPE 3 0.5 Example.logo0 logo0_meshRef)
    as (c2 & o2 & E2 & M2 & _ & _ & F2 & _).
  rewrite E in E2. injection E2 as <-. rewrite M in M2. injection M2 as <-.
  rewrite F in F2. injection F2 as ->.
  unfold LogoElement.newFactor_of, LogoElement.speed, THREE.lerp; cbn. lra.
Defined.

(** C3 as stated fails for the instanced groups: with the factor at 1 the
    instance of [group0] is written with rotation (0, 0, 0) at time 0 and
    with rotation (1, 1, 0) at time 5. *)
Lemma C3_counterexample :
  exists c1 c2 m1 m2,
    MorphingGroup.useFrame TREE_SHAPE 0 0.4 Example.group0 = Normal c1 /\
    MorphingGroup.useFrame TREE_SHAPE 5 0.4 Example.group0 = Normal c2 /\
    MorphingGroup.factor c1 = Some 1 /\
    MorphingGroup.factor c2 = Some 1 /\
    0.95 < 1 /\
    Example.matrix_at 0 (Normal c1) = Some m1 /\
    Example.matrix_at 0 (Normal c2) = Some m2 /\
    THREE.m_rotation m1 = THREE.Eul 0 0 0 /\
    THREE.m_rotation m2 = THREE.Eul 1 1 0.
Proof.
  destruct group0_data as (item & D & Rot).
  assert (Hk : nth_error (MorphingGroup.data Example.group0) 0 = Some item)
    by (rewrite D; reflexivity).
  assert (Hlen : (0 < List.length (THREE.instanceMatrix (THREE.new_InstancedMesh 1)))%nat)
    by (cbn; lia).
  assert (Hf : MorphingGroup.newFactor_of TREE_SHAPE 0.4 (THREE.new_InstancedMesh 1) = 1)
    by (unfold MorphingGroup.newFactor_of, MorphingGroup.speed, THREE.lerp; cbn; lra).
  destruct (group_useFrame_spec TREE_SHAPE 0 0.4 Example.group0 group0_meshRef)
    as (c1 & mesh1 & E1 & M1 & F1 & _ & _ & At1).
  destruct (group_useFrame_spec TREE_SHAPE 5 0.4 Example.group0 group0_meshRef)
    as (c2 & mesh2 & E2 & M2 & F2 & _ & _ & At2).
  exists c1, c2. eexists. eexists.
  split; [exact E1|]. split; [exact E2|].
  split; [unfold MorphingGroup.factor; rewrite M1, F1, Hf; reflexivity|].
  split; [unfold MorphingGroup.factor; rewrite M2, F2, Hf; reflexivity|].
  split; [lra|].
  split; [unfold Example.matrix_at; rewrite M1; exact (At1 0%nat item Hk Hlen)|].
  split; [unfold Example.matrix_at; rewrite M2; exact (At2 0%nat item Hk Hlen)|].
  rewrite !item_matrix_rotation, group0_isCandyCane, Rot. cbn.
  split; apply Eul_eq; lra.
Qed.

End RotationClaims.

Section SnowClaims.

Import JS.
Local Open Scope R_scope.

(** The remainder keeps the sign of the dividend. *)
Lemma rem_nonneg a b : 0 < b -> 0 <= a -> 0 <= rem a b < b.
Proof.
  intros Hb Ha. unfold rem, trunc.
  assert (Hq : 0 <= a / b) by (apply Rmult_le_pos; [lra | left; now apply Rinv_0_lt_compat]).
  destruct (Rlt_dec (a / b) 0) as [Hn|_]; [lra|].
  pose proof (Zfloor_bound (a / b)) as [H1 H2].
  assert (Ha' : a = b * (a / b)) by (field; lra).
  split; nra.
Qed.

Lemma rem_neg a b : 0 < b -> a < 0 -> - b < rem a b <= 0.
Proof.
  intros Hb Ha. unfold rem, trunc.
  assert (Hi : 0 < / b) by now apply Rinv_0_lt_compat.
  assert (Hq : a / b < 0) by (unfold Rdiv; nra).
  destruct (Rlt_dec (a / b) 0) as [_|Hn]; [|lra].
  pose proof (Zceil_bound (a / b)) as [H1 H2].
  assert (Ha' : a = b * (a / b)) by (field; lra).
  split; nra.
Qed.

Lemma rem_minus_175 : rem (-175) 100 = -75.
Proof.
  unfold rem, trunc.
  destruct (Rlt_dec (-175 / 100) 0) as [_|Hn]; [|lra].
  rewrite (Zceil_eq (-1) (-175 / 100)) by lra. lra.
Qed.

(** Once the drift has carried a particle past the lower edge, the written
    coordinate stays in the band below the one it started in. *)
Lemma loopY_after_first_pass p t :
  FloatingSnow.y p - t * FloatingSnow.speed p * 5 < -50 ->
  -150 < FloatingSnow.loopY p t <= -50.
Proof.
  intros H. unfold FloatingSnow.loopY.
  assert (Hb : (0 < 100)%R) by lra.
  assert (Ha : FloatingSnow.y p - t * FloatingSnow.speed p * 5 + 100 / 2 < 0) by lra.
  pose proof (rem_neg Hb Ha). lra.
Qed.

Lemma loopY_first_pass p t :
  -50 <= FloatingSnow.y p - t * FloatingSnow.speed p * 5 < 50 ->
  FloatingSnow.loopY p t = FloatingSnow.y p - t * FloatingSnow.speed p * 5.
Proof.
  intros H. unfold FloatingSnow.loopY.
  set (a := FloatingSnow.y p - t * FloatingSnow.speed p * 5 + 100 / 2).
  assert (Ha : 0 <= a < 100) by (unfold a; lra).
  unfold rem, trunc.
  destruct (Rlt_dec (a / 100) 0) as [Hn|_].
  - exfalso. assert (0 <= a / 100) by lra. lra.
  - rewrite (Zfloor_eq 0 (a / 100)) by lra. unfold a. lra.
Qed.

Lemma particle0_fields :
  FloatingSnow.y Example.particle0 = (0.5 - 0.5) * 100 /\
  FloatingSnow.speed Example.particle0 = 0.02 + 0.5 * 0.05.
Proof. split; reflexivity. Qed.

(** C6 does not hold of the code: the particle made from draws that are all
    0.5 (y = 0, speed = 0.045) is written at y = -125 when the clock shows
    1000 seconds, which is outside the band [-50, 50]. *)
Theorem C6_snow_leaves_band :
  FloatingSnow.loopY Example.particle0 1000 = -125 /\
  THREE.y (THREE.m_position (FloatingSnow.particle_matrix 1000 Example.particle0)) = -125 /\
  ~ Spec.in_wrap_band (FloatingSnow.loopY Example.particle0 1000).
Proof.
  assert (H : FloatingSnow.loopY Example.particle0 1000 = -125).
  { unfold FloatingSnow.loopY.
    destruct particle0_fields as [-> ->].
    replace ((0.5 - 0.5) * 100 - 1000 * (0.02 + 0.5 * 0.05) * 5 + 100 / 2)
      with (-175) by lra.
    rewrite rem_minus_175. lra. }
  split; [exact H|]. split; [exact H|].
  rewrite H. unfold Spec.in_wrap_band. lra.
Qed.

End SnowClaims.

Section LayoutClaims.

Import JS.
Local Open Scope R_scope.

(** *** The cube root *)

Lemma cbrt_0 : Math_cbrt 0 = 0.
Proof.
  unfold Math_cbrt. destruct (Rlt_dec 0 0); [lra|]. destruct (Rlt_dec 0 0); [lra|reflexivity].
Qed.

Lemma cbrt_pos u : 0 < u -> 0 < Math_cbrt u.
Proof.
  intros H. unfold Math_cbrt. destruct (Rlt_dec 0 u); [|contradiction].
  unfold Rpower. apply exp_pos.
Qed.

Lemma cbrt_cube u : 0 <= u -> Math_cbrt u * Math_cbrt u * Math_cbrt u = u.
Proof.
  intros [H|<-].
  - unfold Math_cbrt. destruct (Rlt_dec 0 u); [|contradiction].
    assert (Hp : 0 < Rpower u (/ 3)) by (unfold Rpower; apply exp_pos).
    transitivity (Rpower u (/ 3) ^ 3); [ring|].
    rewrite <- (Rpower_pow 3 _ Hp), Rpower_mult.
    replace (/ 3 * INR 3) with 1 by (cbn; field).
    now apply Rpower_1.
  - rewrite cbrt_0. ring.
Qed.

Lemma cbrt_nonneg u : 0 <= u -> 0 <= Math_cbrt u.
Proof.
  intros [H|<-]; [left; now apply cbrt_pos | rewrite cbrt_0; lra].
Qed.

Lemma cbrt_lt_1 u : 0 <= u < 1 -> Math_cbrt u < 1.
Proof.
  intros [H0 H1]. pose proof (cbrt_nonneg H0) as Hc. pose proof (cbrt_cube H0) as H3.
  destruct (Rlt_dec (Math_cbrt u) 1) as [|Hn]; [assumption|exfalso].
  assert (1 <= Math_cbrt u) by lra.
  assert (1 <= Math_cbrt u * Math_cbrt u) by nra.
  nra.
Qed.

(** The inverse-CDF step: the radius is at most [rho] exactly when the draw
    is at most the volume fraction of the ball of radius [rho]. *)
Lemma cbrt_inverse_cdf R0 u rho :
  0 < R0 -> 0 <= u -> 0 <= rho ->
  (R0 * Math_cbrt u <= rho <-> u <= (rho / R0) * (rho / R0) * (rho / R0)).
Proof.
  intros HR Hu Hrho.
  pose proof (cbrt_nonneg Hu) as Hc. pose proof (cbrt_cube Hu) as H3.
  set (c := Math_cbrt u) in *. set (q := rho / R0).
  assert (Hq : 0 <= q).
  { unfold q, Rdiv. apply Rmult_le_pos; [assumption|]. left. now apply Rinv_0_lt_compat. }
  assert (Hrq : rho = R0 * q) by (unfold q; field; lra).
  split; intros H.
  - assert (c <= q) by nra.
    assert (c * c <= q * q) by nra.
    rewrite <- H3. nra.
  - destruct (Rle_dec c q) as [|Hn]; [nra|exfalso].
    assert (q < c) by lra.
    assert (q * q < c * c) by nra.
    assert (q * q * q < c * c * c) by nra.
    lra.
Qed.

(** *** Spherical coordinates *)

Lemma lengthSq_spherical r theta phi :
  THREE.lengthSq (THREE.spherical r theta phi) = r * r.
Proof.
  unfold THREE.lengthSq, THREE.spherical; cbn.
  pose proof (sin2_cos2 theta) as Ht. pose proof (sin2_cos2 phi) as Hp.
  unfold Rsqr in Ht, Hp.
  replace (r * sin phi * cos theta * (r * sin phi * cos theta) +
           r * sin phi * sin theta * (r * sin phi * sin theta) +
           r * cos phi * (r * cos phi))
    with (r * r * (sin phi * sin phi * (sin theta * sin theta + cos theta * cos theta)
                   + cos phi * cos phi)) by ring.
  rewrite Ht, Rmult_1_r, Hp. ring.
Qed.

(** *** The generator, item by item *)

Lemma make_item_scatterPos sm g :
  scatterPos (fst (MorphingGroup.make_item sm g))
  = Spec.scatter 35 (draws g (cursor g)) (draws g (cursor g + 1)%N) (draws g (cursor g + 2)%N).
Proof.
  replace (cursor g + 1)%N with (N.succ (cursor g)) by lia.
  replace (cursor g + 2)%N with (N.succ (N.succ (cursor g))) by lia.
  reflexivity.
Qed.

Lemma make_item_rng sm g :
  draws (snd (MorphingGroup.make_item sm g)) = draws g /\
  cursor (snd (MorphingGroup.make_item sm g)) = (cursor g + 10)%N.
Proof. split; [reflexivity|]. cbn. lia. Qed.

Lemma generate_S n sm g :
  fst (MorphingGroup.generate (S n) sm g)
  = fst (MorphingGroup.make_item sm g)
    :: fst (MorphingGroup.generate n sm (snd (MorphingGroup.make_item sm g))).
Proof.
  cbn [MorphingGroup.generate].
  destruct (MorphingGroup.make_item sm g) as [item g']. cbn [fst snd].
  destruct (MorphingGroup.generate n sm g') as [items g'']. reflexivity.
Qed.

Lemma generate_S_rng n sm g :
  snd (MorphingGroup.generate (S n) sm g)
  = snd (MorphingGroup.generate n sm (snd (MorphingGroup.make_item sm g))).
Proof.
  cbn [MorphingGroup.generate].
  destruct (MorphingGroup.make_item sm g) as [item g']. cbn [fst snd].
  destruct (MorphingGroup.generate n sm g') as [items g'']. reflexivity.
Qed.

(** Generating [n] items takes [10 n] draws. *)
Lemma generate_rng n sm : forall g,
  draws (snd (MorphingGroup.generate n sm g)) = draws g /\
  cursor (snd (MorphingGroup.generate n sm g)) = (cursor g + 10 * N.of_nat n)%N.
Proof.
  induction n as [|n IH]; intros g.
  - cbn. split; [reflexivity|lia].
  - rewrite generate_S_rng.
    destruct (IH (snd (MorphingGroup.make_item sm g))) as [-> ->].
    destruct (make_item_rng sm g) as [-> ->]. split; [reflexivity|lia].
Qed.

Lemma generate_length n sm : forall g,
  List.length (fst (MorphingGroup.generate n sm g)) = n.
Proof.
  induction n as [|n IH]; intros g; [reflexivity|].
  rewrite generate_S. cbn [List.length]. now rewrite IH.
Qed.

Lemma generate_scatterPos n sm : forall g i,
  (i < n)%nat ->
  exists item,
    nth_error (fst (MorphingGroup.generate n sm g)) i = Some item /\
    scatterPos item
    = Spec.scatter 35 (draws g (cursor g + 10 * N.of_nat i)%N)
                      (draws g (cursor g + 10 * N.of_nat i + 1)%N)
                      (draws g (cursor g + 10 * N.of_nat i + 2)%N).
Proof.
  induction n as [|n IH]; intros g i Hi; [lia|].
  rewrite generate_S. destruct i as [|i].
  - eexists. split; [reflexivity|]. rewrite make_item_scatterPos.
    replace (cursor g + 10 * N.of_nat 0)%N with (cursor g) by lia. reflexivity.
  - destruct (IH (snd (MorphingGroup.make_item sm g)) i) as (item & Hn & Hs); [lia|].
    exists item. split; [exact Hn|]. rewrite Hs.
    destruct (make_item_rng sm g) as [-> ->].
    replace (cursor g + 10 + 10 * N.of_nat i)%N
      with (cursor g + 10 * N.of_nat (S i))%N by lia.
    reflexivity.
Qed.

Lemma star_scatterPos_spherical g :
  fst (TopStar.compute_scatterPos g)
  = THREE.spherical 40 (draws g (cursor g) * PI * 2)
                    (acos (2 * draws g (cursor g + 1)%N - 1)).
Proof. replace (cursor g + 1)%N with (N.succ (cursor g)) by lia. reflexivity. Qed.

Lemma scatter_inside R0 u v w :
  0 < R0 -> 0 <= u < 1 -> THREE.lengthSq (Spec.scatter R0 u v w) < R0 * R0.
Proof.
  intros HR Hu. unfold Spec.scatter. rewrite lengthSq_spherical.
  pose proof (cbrt_lt_1 Hu). pose proof (cbrt_nonneg (proj1 Hu)).
  assert (R0 * Math_cbrt u < R0) by nra.
  assert (0 <= R0 * Math_cbrt u) by nra.
  nra.
Qed.

(** C7, as the code has it.  Every item of a group's layout has the scattered
    position [spherical(35 * cbrt(u), 2 pi v, acos(2 w - 1))] for the first
    three of its ten draws [u], [v], [w] (item [i] starts at draw [10 i]); such a point lies inside the ball
    of radius 35, and its radius is at most [rho] exactly when [u] is at most
    the volume fraction [(rho / 35)^3] (the inverse-CDF law of uniform
    density).  The star's scatter position takes the same direction from its
    two draws but the fixed radius 40, so it lies on the sphere of radius
    40, not inside it. *)
Theorem C7_scatter_sampling :
  (forall cfg g i,
     (i < Z.to_nat (count cfg))%nat ->
     exists item,
       nth_error (fst (MorphingGroup.compute_data cfg g)) i = Some item /\
       scatterPos item
       = Spec.scatter 35 (draws g (cursor g + 10 * N.of_nat i)%N)
                         (draws g (cursor g + 10 * N.of_nat i + 1)%N)
                         (draws g (cursor g + 10 * N.of_nat i + 2)%N)) /\
  (forall u v w,
     0 <= u < 1 ->
     THREE.lengthSq (Spec.scatter 35 u v w) = (35 * Math_cbrt u) * (35 * Math_cbrt u) /\
     THREE.lengthSq (Spec.scatter 35 u v w) < 35 * 35 /\
     forall rho, 0 <= rho ->
       (35 * Math_cbrt u <= rho <-> u <= (rho / 35) * (rho / 35) * (rho / 35))) /\
  (forall g,
     fst (TopStar.compute_scatterPos g)
     = THREE.spherical 40 (draws g (cursor g) * PI * 2)
                       (acos (2 * draws g (cursor g + 1)%N - 1)) /\
     THREE.lengthSq (fst (TopStar.compute_scatterPos g)) = 40 * 40).
Proof.
  split; [|split].
  - intros cfg g i Hi. unfold MorphingGroup.compute_data.
    now apply generate_scatterPos.
  - intros u v w Hu. split; [|split].
    + unfold Spec.scatter. apply lengthSq_spherical.
    + apply scatter_inside; [lra | exact Hu].
    + intros rho Hrho. apply cbrt_inverse_cdf; lra.
  - intros g. split; [apply star_scatterPos_spherical|].
    rewrite star_scatterPos_spherical. apply lengthSq_spherical.
Qed.

Lemma C7_scatter_sampling_witness :
  (exists item,
     nth_error (fst (MorphingGroup.compute_data Example.config0 Example.zero_rng)) 0
     = Some item /\
     scatterPos item = Spec.scatter 35 0 0 0) /\
  THREE.lengthSq (Spec.scatter 35 0.5 0.5 0.5) < 35 * 35.
Proof.
  destruct C7_scatter_sampling as (Hg & Hin & _).
  split.
  - apply (Hg Example.config0 Example.zero_rng 0%nat). cbn. lia.
  - apply (Hin 0.5 0.5 0.5). lra.
Defined.

(** C7 as stated fails for the star: its scatter position has radius 40,
    while [40 * cbrt(u)] is smaller than 40 for every [u] in (0, 1). *)
Lemma C7_counterexample :
  THREE.lengthSq (TopStar.scatterPos Example.star0) = 1600 /\
  (forall u v w, 0 < u < 1 -> THREE.lengthSq (Spec.scatter 40 u v w) < 1600) /\
  (forall u v w, 0 < u < 1 -> TopStar.scatterPos Example.star0 <> Spec.scatter 40 u v w).
Proof.
  assert (H1 : THREE.lengthSq (TopStar.scatterPos Example.star0) = 1600).
  { change (TopStar.scatterPos Example.star0)
      with (fst (TopStar.compute_scatterPos Example.half_rng)).
    rewrite star_scatterPos_spherical, lengthSq_spherical. lra. }
  assert (H2 : forall u v w, 0 < u < 1 -> THREE.lengthSq (Spec.scatter 40 u v w) < 1600).
  { intros u v w Hu.
    assert (H : THREE.lengthSq (Spec.scatter 40 u v w) < 40 * 40)
      by (apply scatter_inside; lra).
    lra. }
  split; [exact H1|]. split; [exact H2|].
  intros u v w Hu Heq. specialize (H2 u v w Hu). rewrite <- Heq, H1 in H2. lra.
Qed.

End LayoutClaims.

Section GuardClaims.

Import JS.
Local Open Scope R_scope.

Lemma group_frames_unattached fs : forall c,
  MorphingGroup.meshRef c = None -> MorphingGroup.frames fs c = Normal c.
Proof.
  induction fs as [|[[state t] dt] rest IH]; intros c H; [reflexivity|].
  cbn [MorphingGroup.frames]. unfold MorphingGroup.useFrame at 1. rewrite H.
  cbn [bind]. now apply IH.
Qed.

(** C8. A frame callback that finds its render object missing returns at
    once: the component instance is unchanged and nothing is thrown.  This
    holds for the morphing groups, the snow field, the star and the logo
    elements, and so for any run of frames of a group whose mesh is
    missing. *)
Theorem C8_frame_skipped_without_handle :
  (forall state t dt c,
     MorphingGroup.meshRef c = None ->
     MorphingGroup.useFrame state t dt c = Normal c) /\
  (forall t c,
     FloatingSnow.meshRef c = None ->
     FloatingSnow.useFrame t c = Normal c) /\
  (forall state t dt c,
     TopStar.meshRef c = None ->
     TopStar.useFrame state t dt c = Normal c) /\
  (forall state t dt c,
     LogoElement.meshRef c = None ->
     LogoElement.useFrame state t dt c = Normal c) /\
  (forall fs c,
     MorphingGroup.meshRef c = None ->
     MorphingGroup.frames fs c = Normal c).
Proof.
  split; [|split; [|split; [|split]]].
  - intros state t dt c H. unfold MorphingGroup.useFrame. now rewrite H.
  - intros t c H. unfold FloatingSnow.useFrame. now rewrite H.
  - intros state t dt c H. unfold TopStar.useFrame. now rewrite H.
  - intros state t dt c H. unfold LogoElement.useFrame. now rewrite H.
  - intros fs c H. now apply group_frames_unattached.
Qed.

Lemma C8_frame_skipped_without_handle_witness :
  MorphingGroup.useFrame TREE_SHAPE 0 0.016 Example.group_unattached
  = Normal Example.group_unattached /\
  FloatingSnow.useFrame 0 Example.snow_unattached = Normal Example.snow_unattached /\
  TopStar.useFrame TREE_SHAPE 0 0.016 Example.star_unattached
  = Normal Example.star_unattached /\
  LogoElement.useFrame TREE_SHAPE 0 0.016 Example.logo_unattached
  = Normal Example.logo_unattached.
Proof.
  destruct C8_frame_skipped_without_handle as (Hg & Hs & Ht & Hl & _).
  split; [|split; [|split]].
  - apply Hg. reflexivity.
  - apply Hs. reflexivity.
  - apply Ht. reflexivity.
  - apply Hl. reflexivity.
Defined.

End GuardClaims.

Section SceneFacts.

Import JS.
Local Open Scope N_scope.

Lemma compute_data_rng cfg g :
  draws (snd (MorphingGroup.compute_data cfg g)) = draws g /\
  cursor (snd (MorphingGroup.compute_data cfg g))
  = cursor g + 10 * N.of_nat (Z.to_nat (count cfg)).
Proof. unfold MorphingGroup.compute_data. apply generate_rng. Qed.

Lemma group_mount_spec cfg g :
  MorphingGroup.data (fst (MorphingGroup.mount cfg g))
  = fst (MorphingGroup.compute_data (snd cfg) g) /\
  MorphingGroup.data_deps (fst (MorphingGroup.mount cfg g)) = fst cfg /\
  snd (MorphingGroup.mount cfg g) = snd (MorphingGroup.compute_data (snd cfg) g).
Proof.
  unfold MorphingGroup.mount.
  destruct (MorphingGroup.compute_data (snd cfg) g) as [d g']. now repeat split.
Qed.

(** A render with a [config] object other than the memoised one computes the
    layout again, from fresh draws. *)
Lemma group_render_miss cfg c g :
  MorphingGroup.data_deps c <> fst cfg ->
  MorphingGroup.data (fst (MorphingGroup.render cfg c g))
  = fst (MorphingGroup.compute_data (snd cfg) g) /\
  MorphingGroup.data_deps (fst (MorphingGroup.render cfg c g)) = fst cfg /\
  snd (MorphingGroup.render cfg c g) = snd (MorphingGroup.compute_data (snd cfg) g).
Proof.
  intros H. unfold MorphingGroup.render.
  apply Pos.eqb_neq in H. rewrite H.
  destruct (MorphingGroup.compute_data (snd cfg) g) as [d g']. now repeat split.
Qed.

(** A render with the memoised object keeps the layout and draws nothing. *)
Lemma group_render_hit cfg c g :
  MorphingGroup.data_deps c = fst cfg ->
  MorphingGroup.data (fst (MorphingGroup.render cfg c g)) = MorphingGroup.data c /\
  snd (MorphingGroup.render cfg c g) = g.
Proof.
  intros H. unfold MorphingGroup.render.
  apply Pos.eqb_eq in H. rewrite H. now split.
Qed.

Lemma mount_groups_cons lit lits next g :
  Scene.mount_groups (lit :: lits) next g
  = let r := Scene.mount_groups lits (Pos.succ next)
               (snd (MorphingGroup.mount (next, lit) g)) in
    (MorphingGroup.attach (fst (MorphingGroup.mount (next, lit) g)) :: fst (fst r),
     snd (fst r), snd r).
Proof.
  cbn [Scene.mount_groups].
  destruct (MorphingGroup.mount (next, lit) g) as [c g1]. cbn [fst snd].
  destruct (Scene.mount_groups lits (Pos.succ next) g1) as [[cs next'] g2]. reflexivity.
Qed.

Lemma render_groups_cons lit lits c cs next g :
  Scene.render_groups (lit :: lits) (c :: cs) next g
  = let r := Scene.render_groups lits cs (Pos.succ next)
               (snd (MorphingGroup.render (next, lit) c g)) in
    (fst (MorphingGroup.render (next, lit) c g) :: fst (fst r), snd (fst r), snd r).
Proof.
  cbn [Scene.render_groups].
  destruct (MorphingGroup.render (next, lit) c g) as [c' g1]. cbn [fst snd].
  destruct (Scene.render_groups lits cs (Pos.succ next) g1) as [[cs' next'] g2]. reflexivity.
Qed.

Lemma attach_deps c :
  MorphingGroup.data_deps (MorphingGroup.attach c) = MorphingGroup.data_deps c /\
  MorphingGroup.data (MorphingGroup.attach c) = MorphingGroup.data c.
Proof. split; reflexivity. Qed.

(** Mounting the groups: ten draws per instance, one object per literal, and
    every memo remembers an object older than the next one to be allocated. *)
Lemma mount_groups_spec lits : forall next g,
  let r := Scene.mount_groups lits next g in
  draws (snd r) = draws g /\
  cursor (snd r) = cursor g + 10 * Scene.total_instances lits /\
  List.length (fst (fst r)) = List.length lits /\
  (next <= snd (fst r))%positive /\
  Forall (fun c => (MorphingGroup.data_deps c < snd (fst r))%positive) (fst (fst r)).
Proof.
  induction lits as [|lit lits IH]; intros next g.
  - cbn. repeat split; try lia. constructor.
  - rewrite mount_groups_cons. cbn zeta. cbn [fst snd].
    destruct (IH (Pos.succ next) (snd (MorphingGroup.mount (next, lit) g)))
      as (Hd & Hc & Hl & Hn & Hf).
    destruct (group_mount_spec (next, lit) g) as (_ & Hdeps & Hg).
    destruct (compute_data_rng lit g) as [Hd1 Hc1].
    cbn [fst snd] in Hdeps, Hg. rewrite Hg in *.
    rewrite Hd, Hc, Hd1, Hc1. cbn [Scene.total_instances fold_right List.length].
    fold (Scene.total_instances lits).
    repeat split; try lia.
    constructor; [|exact Hf].
    destruct (attach_deps (fst (MorphingGroup.mount (next, lit) g))) as [-> _].
    rewrite Hdeps. lia.
Qed.

(** Rendering the groups again with literals allocated after every memoised
    object: every group draws its layout again. *)
Lemma render_groups_spec lits : forall cs next g,
  List.length cs = List.length lits ->
  Forall (fun c => (MorphingGroup.data_deps c < next)%positive) cs ->
  let r := Scene.render_groups lits cs next g in
  draws (snd r) = draws g /\
  cursor (snd r) = cursor g + 10 * Scene.total_instances lits /\
  List.length (fst (fst r)) = List.length lits.
Proof.
  induction lits as [|lit lits IH]; intros [|c cs] next g Hlen Hf; try discriminate.
  - cbn. repeat split; lia.
  - rewrite render_groups_cons. cbn zeta. cbn [fst snd].
    inversion Hf as [|? ? Hc Hcs]; subst.
    assert (Hcs' : Forall (fun c => (MorphingGroup.data_deps c < Pos.succ next)%positive) cs).
    { eapply Forall_impl; [|exact Hcs]. cbn. intros; lia. }
    destruct (IH cs (Pos.succ next) (snd (MorphingGroup.render (next, lit) c g)))
      as (Hd & Hcur & Hl); [cbn in Hlen; lia | exact Hcs' |].
    destruct (@group_render_miss (next, lit) c g) as (_ & _ & Hg); [cbn; lia|].
    destruct (compute_data_rng lit g) as [Hd1 Hc1].
    cbn [fst snd] in Hg. rewrite Hg in *.
    rewrite Hd, Hcur, Hd1, Hc1. cbn [Scene.total_instances fold_right List.length].
    fold (Scene.total_instances lits).
    repeat split; lia.
Qed.

Lemma star_mount_rng g :
  draws (snd (TopStar.mount g)) = draws g /\
  cursor (snd (TopStar.mount g)) = cursor g + 2.
Proof. split; [reflexivity|]. cbn. lia. Qed.

Lemma logo_mount_rng o g :
  draws (snd (LogoElement.mount o g)) = draws g /\
  cursor (snd (LogoElement.mount o g)) = cursor g + 7.
Proof. split; [reflexivity|]. cbn. lia. Qed.

Lemma mount_logo_rng offsets : forall g,
  draws (snd (Scene.mount_logo offsets g)) = draws g /\
  cursor (snd (Scene.mount_logo offsets g)) = cursor g + 7 * N.of_nat (List.length offsets).
Proof.
  induction offsets as [|o offsets IH]; intros g.
  - cbn. split; [reflexivity|lia].
  - cbn [Scene.mount_logo].
    pose proof (logo_mount_rng o g) as [Hd Hc].
    destruct (LogoElement.mount o g) as [c g1]. cbn [snd] in Hd, Hc.
    specialize (IH g1). destruct (Scene.mount_logo offsets g1) as [cs g2].
    cbn [snd] in *. destruct IH as [-> ->]. rewrite Hd, Hc.
    split; [reflexivity|]. cbn [List.length]. lia.
Qed.

Lemma make_particles_rng n : forall g,
  draws (snd (FloatingSnow.make_particles n g)) = draws g /\
  cursor (snd (FloatingSnow.make_particles n g)) = cursor g + 8 * N.of_nat n.
Proof.
  induction n as [|n IH]; intros g.
  - cbn. split; [reflexivity|lia].
  - cbn [FloatingSnow.make_particles].
    assert (Hp : draws (snd (FloatingSnow.make_particle g)) = draws g /\
                 cursor (snd (FloatingSnow.make_particle g)) = cursor g + 8)
      by (split; [reflexivity | cbn; lia]).
    destruct (FloatingSnow.make_particle g) as [p g1]. cbn [snd] in Hp.
    specialize (IH g1). destruct (FloatingSnow.make_particles n g1) as [ps g2].
    cbn [snd] in *. destruct IH as [-> ->]. destruct Hp as [-> ->].
    split; [reflexivity|lia].
Qed.

Lemma snow_mount_rng g :
  draws (snd (FloatingSnow.mount g)) = draws g /\
  cursor (snd (FloatingSnow.mount g)) = cursor g + 16000.
Proof.
  unfold FloatingSnow.mount.
  pose proof (make_particles_rng FloatingSnow.count g) as [Hd Hc].
  destruct (FloatingSnow.make_particles FloatingSnow.count g) as [ps g1].
  cbn [snd] in *. rewrite Hd, Hc. split; [reflexivity|].
  change (N.of_nat FloatingSnow.count) with 2000. lia.
Qed.

Lemma total_instances_scene : Scene.total_instances Scene.config_literals = 1380.
Proof. reflexivity. Qed.

(** Mounting the scene makes 29844 draws: 13800 for the groups, 2 for the
    star, 42 for the logo and 16000 for the snow. *)
Lemma scene_mount_spec g :
  let r := Scene.mount_groups Scene.config_literals 1%positive g in
  Scene.groups (Scene.mount g) = fst (fst r) /\
  Scene.next_object (Scene.mount g) = snd (fst r) /\
  draws (Scene.rng (Scene.mount g)) = draws g /\
  cursor (Scene.rng (Scene.mount g)) = cursor g + 29844.
Proof.
  cbn zeta. unfold Scene.mount.
  pose proof (mount_groups_spec Scene.config_literals 1%positive g) as (Hd & Hc & _).
  rewrite total_instances_scene in Hc.
  destruct (Scene.mount_groups Scene.config_literals 1%positive g) as [[gs next] g1].
  cbn [fst snd] in *.
  pose proof (star_mount_rng g1) as [Hd2 Hc2].
  destruct (TopStar.mount g1) as [st g2]. cbn [snd] in *.
  pose proof (mount_logo_rng Scene.logo_offsets g2) as [Hd3 Hc3].
  destruct (Scene.mount_logo Scene.logo_offsets g2) as [lg g3]. cbn [snd] in *.
  pose proof (snow_mount_rng g3) as [Hd4 Hc4].
  destruct (FloatingSnow.mount g3) as [sn g4]. cbn [snd] in *.
  cbn [Scene.groups Scene.next_object Scene.rng].
  repeat split; try congruence.
  rewrite Hc4, Hc3, Hc2, Hc. cbn [Scene.logo_offsets List.length]. lia.
Qed.

Lemma scene_render_spec t :
  let r := Scene.render_groups Scene.config_literals (Scene.groups t)
             (Scene.next_object t) (Scene.rng t) in
  Scene.groups (Scene.render t) = fst (fst r) /\
  Scene.rng (Scene.render t) = snd r.
Proof.
  cbn zeta. unfold Scene.render.
  destruct (Scene.render_groups _ _ _ _) as [[gs next] g1]. now split.
Qed.

Lemma make_item_scale sm g :
  scale (fst (MorphingGroup.make_item sm g))
  = ((0.5 + draws g (cursor g + 9) * 1.5) * sm)%R.
Proof.
  replace (cursor g + 9)
    with (N.succ (N.succ (N.succ (N.succ (N.succ (N.succ (N.succ (N.succ (N.succ
            (cursor g)))))))))) by lia.
  reflexivity.
Qed.

End SceneFacts.

Section LayoutLifetime.

Import JS.

(** The layout has one entry per instance. *)
Lemma compute_data_length cfg g :
  (0 <= count cfg)%Z ->
  Z.of_nat (List.length (fst (MorphingGroup.compute_data cfg g))) = count cfg.
Proof.
  intros H. unfold MorphingGroup.compute_data. rewrite generate_length. lia.
Qed.

(** No run of frames touches the layout of a group. *)
Lemma frames_keep_layout fs c c' :
  MorphingGroup.frames fs c = Normal c' -> MorphingGroup.same_layout c c'.
Proof.
  intros E. destruct (MorphingGroup.meshRef c) as [mesh|] eqn:M.
  - destruct (group_frames_layout fs c M) as (c2 & mesh2 & E2 & _ & L).
    rewrite E in E2. injection E2 as <-. exact L.
  - rewrite (group_frames_unattached fs c M) in E. injection E as <-.
    apply same_layout_refl.
Qed.

Lemma frames_return fs c : exists c', MorphingGroup.frames fs c = Normal c'.
Proof.
  destruct (MorphingGroup.meshRef c) as [mesh|] eqn:M.
  - destruct (group_frames_layout fs c M) as (c2 & mesh2 & E2 & _). now exists c2.
  - exists c. now apply group_frames_unattached.
Qed.

(** A second render of the mounted scene computes the first group's layout
    again, from the draws that follow those of the mount; the second render
    makes 13800 draws, ten per instance. *)
Lemma scene_rerender_regenerates g :
  cursor (Scene.rng (Scene.mount g)) = (cursor g + 29844)%N /\
  cursor (Scene.rng (Scene.render (Scene.mount g)))
  = (cursor (Scene.rng (Scene.mount g)) + 13800)%N /\
  exists lit lits c0 cs0 c1 cs1,
    Scene.config_literals = lit :: lits /\
    Scene.groups (Scene.mount g) = c0 :: cs0 /\
    Scene.groups (Scene.render (Scene.mount g)) = c1 :: cs1 /\
    MorphingGroup.data c0 = fst (MorphingGroup.compute_data lit g) /\
    MorphingGroup.data c1
    = fst (MorphingGroup.compute_data lit (Scene.rng (Scene.mount g))).
Proof.
  destruct (scene_mount_spec g) as (Hg0 & Hn0 & Hd0 & Hc0).
  destruct (scene_render_spec (Scene.mount g)) as (Hg1 & Hr1).
  destruct (mount_groups_spec Scene.config_literals 1%positive g)
    as (_ & _ & Hlen & _ & Hf).
  rewrite <- Hg0, <- Hn0 in Hf. rewrite <- Hg0 in Hlen.
  destruct (@render_groups_spec Scene.config_literals (Scene.groups (Scene.mount g))
              (Scene.next_object (Scene.mount g)) (Scene.rng (Scene.mount g)) Hlen Hf)
    as (_ & Hc1 & _).
  rewrite <- Hr1, total_instances_scene in Hc1.
  split; [exact Hc0|]. split; [rewrite Hc1; lia|].
  unfold Scene.config_literals in Hg0, Hg1.
  rewrite mount_groups_cons in Hg0. cbn zeta in Hg0. cbn [fst snd] in Hg0.
  rewrite Hg0 in Hg1, Hf. rewrite render_groups_cons in Hg1.
  cbn zeta in Hg1. cbn [fst snd] in Hg1.
  apply Forall_inv in Hf.
  do 6 eexists. split; [reflexivity|].
  split; [exact Hg0|]. split; [exact Hg1|]. split.
  - rewrite (proj2 (attach_deps _)). apply group_mount_spec.
  - apply group_render_miss. cbn [fst]. lia.
Qed.

(** The first item of a non-empty layout and the draw that decides its scale. *)
Lemma compute_data_first lit g n :
  Z.to_nat (count lit) = S n ->
  exists item rest,
    fst (MorphingGroup.compute_data lit g) = item :: rest /\
    scale item = ((0.5 + draws g (cursor g + 9)%N * 1.5) * scaleMultiplier lit)%R.
Proof.
  intros H. unfold MorphingGroup.compute_data. rewrite H, generate_S.
  do 2 eexists. split; [reflexivity|]. apply make_item_scale.
Qed.

(** If the draw that decides the first item's scale is 0 at mount and 0.5 in
    the second render, the first instance changes its scale from 0.4 to 1. *)
Lemma rerender_changes_scale g :
  draws g (cursor g + 9)%N = 0%R ->
  draws g (cursor g + 29844 + 9)%N = 0.5%R ->
  exists c0 cs0 c1 cs1 item0 rest0 item1 rest1,
    Scene.groups (Scene.mount g) = c0 :: cs0 /\
    Scene.groups (Scene.render (Scene.mount g)) = c1 :: cs1 /\
    MorphingGroup.data c0 = item0 :: rest0 /\
    MorphingGroup.data c1 = item1 :: rest1 /\
    scale item0 = 0.4%R /\
    scale item1 = 1%R.
Proof.
  intros H0 H1.
  destruct (scene_rerender_regenerates g)
    as (Hc0 & Hc1 & lit & lits & c0 & cs0 & c1 & cs1 & HL & Hg0 & Hg1 & D0 & D1).
  destruct (scene_mount_spec g) as (_ & _ & Hd & _).
  assert (Hn : Z.to_nat (count lit) = S 349 /\ scaleMultiplier lit = 0.8%R)
    by (injection HL as <- _; split; reflexivity).
  destruct Hn as [Hn Hsm].
  destruct (compute_data_first lit g Hn) as (item0 & rest0 & E0 & S0).
  destruct (compute_data_first lit (Scene.rng (Scene.mount g)) Hn)
    as (item1 & rest1 & E1 & S1).
  exists c0, cs0, c1, cs1, item0, rest0, item1, rest1.
  split; [exact Hg0|]. split; [exact Hg1|].
  split; [congruence|]. split; [congruence|].
  rewrite S0, S1, Hd, Hc0, H0, H1, Hsm. split; lra.
Qed.

(** C9 does not hold of the code: mount the scene, then render it once more
    (what the first change of [treeState] or [isAutoMode] does).  The second render
    calls [Math.random] 13800 more times, ten per instance, and the first
    group's layout is the one computed from those later draws, not the one
    computed at mount: with a random source that answers 0 while the scene
    mounts and 0.5 afterwards, the first golden sphere has scale 0.4 after
    mount and scale 1 after the second render. *)
Theorem C9_layout_regenerated_by_rerender :
  cursor (Scene.rng (Scene.render (Scene.mount Example.late_rng)))
  = (cursor (Scene.rng (Scene.mount Example.late_rng)) + 13800)%N /\
  exists c0 cs0 c1 cs1 item0 rest0 item1 rest1,
    Scene.groups (Scene.mount Example.late_rng) = c0 :: cs0 /\
    Scene.groups (Scene.render (Scene.mount Example.late_rng)) = c1 :: cs1 /\
    MorphingGroup.data c0 = item0 :: rest0 /\
    MorphingGroup.data c1 = item1 :: rest1 /\
    scale item0 = 0.4%R /\
    scale item1 = 1%R.
Proof.
  split.
  - exact (proj1 (proj2 (scene_rerender_regenerates Example.late_rng))).
  - apply (rerender_changes_scale Example.late_rng); reflexivity.
Qed.

End LayoutLifetime.

Section FirstFrame.

Import JS.
Local Open Scope R_scope.


Lemma lerpVectors_0 a b : THREE.lerpVectors a b 0 = a.
Proof.
  destruct a as [ax ay az]. unfold THREE.lerpVectors; cbn.
  f_equal; ring.
Qed.










End FirstFrame.


(** ** More on the arrangement state machine *)

Section AppSchedule.

Import App.
Local Open Scope N_scope.

Lemma advance_add a b s : advance (a + b) s = advance a (advance b s).
Proof. unfold advance. apply N.iter_add. Qed.

Lemma one_cycle s :
  reachable s -> dwell_begins s -> treeState s = TREE_SHAPE ->
  reachable (advance 12000 s) /\
  dwell_begins (advance 12000 s) /\
  treeState (advance 12000 s) = TREE_SHAPE.
Proof.
  intros Hr Hb Ht.
  destruct (dwell_runs (reachable_shape Hr) Hb) as (_ & Hf & Hb1).
  rewrite Ht in Hf, Hb1. cbn [dwell flip] in Hf, Hb1.
  assert (Hr1 : reachable (advance 8000 s)) by now apply reachable_advance.
  destruct (dwell_runs (reachable_shape Hr1) Hb1) as (_ & Hf2 & Hb2).
  rewrite Hf in Hf2, Hb2. cbn [dwell flip] in Hf2, Hb2.
  change 12000 with (4000 + 8000). rewrite advance_add.
  split; [now apply reachable_advance|]. split; assumption.
Qed.

Lemma many_cycles q : forall s,
  reachable s -> dwell_begins s -> treeState s = TREE_SHAPE ->
  reachable (advance (12000 * q) s) /\
  dwell_begins (advance (12000 * q) s) /\
  treeState (advance (12000 * q) s) = TREE_SHAPE.
Proof.
  induction q as [|q IH] using N.peano_ind; intros s Hr Hb Ht.
  - rewrite N.mul_0_r. change (advance 0 s) with s. split; [|split]; assumption.
  - replace (12000 * N.succ q) with (12000 + 12000 * q) by lia.
    rewrite advance_add.
    destruct (IH s Hr Hb Ht) as (Hr' & Hb' & Ht').
    now apply one_cycle.
Qed.

(** X1. As long as nobody clicks, the arrangement [t] ms after a tree dwell
    began is TREE_SHAPE when [t mod 12000 < 8000] and SCATTERED otherwise, and
    automatic mode stays on: the automatic run is periodic with period 12 s. *)
Theorem X1_auto_cycle s t :
  reachable s -> dwell_begins s -> treeState s = TREE_SHAPE ->
  treeState (advance t s) = Schedule.auto_arrangement t /\
  isAutoMode (advance t s) = true.
Proof.
  intros Hr Hb Ht.
  pose proof (N.div_mod t 12000) as Hdm.
  pose proof (N.mod_lt t 12000) as Hlt.
  set (r := t mod 12000) in *. set (q := t / 12000) in *.
  assert (E : t = r + 12000 * q) by lia.
  assert (Hr12 : r < 12000) by lia. clear Hdm Hlt.
  destruct (many_cycles q Hr Hb Ht) as (Hr0 & Hb0 & Ht0).
  unfold Schedule.auto_arrangement. fold r.
  rewrite E, advance_add.
  set (s0 := advance (12000 * q) s) in *.
  destruct (dwell_runs (reachable_shape Hr0) Hb0) as (Hw & Hf & Hb1).
  rewrite Ht0 in Hw, Hf, Hb1. cbn [dwell flip] in Hw, Hf, Hb1.
  destruct (N.ltb_spec r 8000) as [Hlt|Hge].
  - exact (Hw r Hlt).
  - assert (Hr1 : reachable (advance 8000 s0)) by now apply reachable_advance.
    destruct (dwell_runs (reachable_shape Hr1) Hb1) as (Hw2 & _).
    rewrite Hf in Hw2. cbn [dwell] in Hw2.
    replace r with ((r - 8000) + 8000) by lia. rewrite advance_add.
    apply Hw2. lia.
Qed.

Lemma X1_auto_cycle_witness :
  treeState (advance 33000 mount) = SCATTERED /\
  isAutoMode (advance 33000 mount) = true.
Proof.
  apply (@X1_auto_cycle mount 33000).
  - exact reach_mount.
  - split; [reflexivity|]. eexists; split; [reflexivity|]. now split.
  - reflexivity.
Defined.

(** X2. After a click that no other click follows, the arrangement the click
    produced is shown for exactly 10000 ms plus its dwell time (18000 ms for
    a tree, 14000 ms for a scatter); only then does the first automatic
    transition happen, and it brings back the arrangement shown before the
    click. *)
Theorem X2_quiet_time_after_click s :
  reachable s ->
  let v := flip (treeState s) in
  (forall d, d < Schedule.quiet_time v -> treeState (advance d (toggleState s)) = v) /\
  treeState (advance (Schedule.quiet_time v) (toggleState s)) = treeState s /\
  isAutoMode (advance (Schedule.quiet_time v) (toggleState s)) = true /\
  Schedule.quiet_time TREE_SHAPE = 18000 /\
  Schedule.quiet_time SCATTERED = 14000.
Proof.
  intros Hr v.
  destruct (idle_runs (reachable_shape Hr)) as (Hw & Ha & Ht & Hb).
  cbn zeta in Hw, Ha, Ht, Hb.
  assert (Hv : treeState (toggleState s) = v)
    by (destruct (toggleState_shape (reachable_shape Hr)) as [nid ->]; reflexivity).
  rewrite Hv in Hw, Ht.
  set (s1 := advance 10000 (toggleState s)) in *.
  assert (Hr1 : reachable s1) by (apply reachable_advance, reach_click, Hr).
  destruct (dwell_runs (reachable_shape Hr1) Hb) as (Hw1 & Hf1 & Hb1).
  rewrite Ht in Hw1, Hf1, Hb1.
  unfold Schedule.quiet_time.
  split; [|split; [|split; [|split; reflexivity]]].
  - intros d Hd. destruct (N.ltb_spec d 10000) as [Hlt|Hge].
    + now destruct (Hw d Hlt).
    + replace d with ((d - 10000) + 10000) by lia. rewrite advance_add.
      fold s1. apply Hw1. lia.
  - rewrite N.add_comm, advance_add. fold s1. rewrite Hf1.
    unfold v. now destruct (treeState s).
  - rewrite N.add_comm, advance_add. fold s1. apply Hb1.
Qed.

Lemma X2_quiet_time_after_click_witness :
  treeState (advance 13999 (toggleState mount)) = SCATTERED /\
  treeState (advance 14000 (toggleState mount)) = TREE_SHAPE.
Proof.
  destruct (X2_quiet_time_after_click reach_mount) as (Hw & Hf & _).
  split.
  - apply (Hw 13999). reflexivity.
  - exact Hf.
Defined.

(** X3. Two clicks less than 10000 ms apart bring back the arrangement that
    was shown before the first one, and automatic mode is still off. *)
Theorem X3_double_click s d :
  reachable s -> d < 10000 ->
  treeState (toggleState (advance d (toggleState s))) = treeState s /\
  isAutoMode (toggleState (advance d (toggleState s))) = false.
Proof.
  intros Hr Hd.
  destruct (idle_runs (reachable_shape Hr)) as (Hw & _).
  destruct (Hw d Hd) as [_ Ht].
  assert (Hv : treeState (toggleState s) = flip (treeState s))
    by (destruct (toggleState_shape (reachable_shape Hr)) as [nid ->]; reflexivity).
  assert (Hr' : reachable (advance d (toggleState s)))
    by (apply reachable_advance, reach_click, Hr).
  destruct (toggleState_shape (reachable_shape Hr')) as [nid ->].
  cbn [treeState isAutoMode]. rewrite Ht, Hv.
  split; [now destruct (treeState s) | reflexivity].
Qed.

Lemma X3_double_click_witness :
  treeState (toggleState (advance 500 (toggleState mount))) = TREE_SHAPE /\
  isAutoMode (toggleState (advance 500 (toggleState mount))) = false.
Proof.
  apply (@X3_double_click mount 500); [exact reach_mount | reflexivity].
Defined.

(** X4. From every state the application can reach, automatic mode is active
    again after at most 10000 ms without a click, and the clock has advanced
    by exactly the time waited. *)
Theorem X4_auto_mode_returns s :
  reachable s ->
  exists d, d <= 10000 /\
            isAutoMode (advance d s) = true /\
            now (advance d s) = now s + d.
Proof.
  intros Hr.
  destruct (reachable_shape Hr) as [v idle id d nid nw Hd Hid Hidle | v j d nid nw Hd Hj].
  - exists 0. split; [lia|]. cbn. split; [reflexivity|lia].
  - exists (d - nw). split; [lia|].
    replace (d - nw) with ((d - nw - 1) + 1) by lia.
    replace d with (nw + (d - nw - 1) + 1) at 2 4 by lia.
    rewrite advance_manual_fire. cbn [isAutoMode now]. split; [reflexivity|lia].
Qed.

Lemma X4_auto_mode_returns_witness :
  exists d, d <= 10000 /\
            isAutoMode (advance d (toggleState mount)) = true /\
            now (advance d (toggleState mount)) = now (toggleState mount) + d.
Proof.
  apply X4_auto_mode_returns. apply reach_click, reach_mount.
Defined.

End AppSchedule.

(** ** More on the layout generator *)

Section LayoutBounds.

Import JS.
Local Open Scope R_scope.

(** Every item of a generated layout is one turn of the loop, run on the same
    draws. *)
Lemma generate_item n sm : forall g i,
  (i < n)%nat ->
  exists g',
    nth_error (fst (MorphingGroup.generate n sm g)) i
    = Some (fst (MorphingGroup.make_item sm g')) /\
    draws g' = draws g.
Proof.
  induction n as [|n IH]; intros g i Hi; [lia|].
  rewrite generate_S. destruct i as [|i].
  - exists g. now split.
  - destruct (IH (snd (MorphingGroup.make_item sm g)) i) as (g' & Hn & Hd); [lia|].
    exists g'. split; [exact Hn|]. rewrite Hd. apply make_item_rng.
Qed.

Lemma layout_item cfg g item :
  In item (fst (MorphingGroup.compute_data cfg g)) ->
  exists g',
    item = fst (MorphingGroup.make_item (scaleMultiplier cfg) g') /\
    draws g' = draws g.
Proof.
  intros Hin. apply In_nth_error in Hin. destruct Hin as [i Hi].
  assert (Hlt : (i < Z.to_nat (count cfg))%nat).
  { unfold MorphingGroup.compute_data in Hi.
    rewrite <- (generate_length (Z.to_nat (count cfg)) (scaleMultiplier cfg) g).
    apply nth_error_Some. rewrite Hi. discriminate. }
  destruct (generate_item (scaleMultiplier cfg) g Hlt) as (g' & Hn & Hd).
  unfold MorphingGroup.compute_data in Hi. rewrite Hi in Hn. injection Hn as ->.
  now exists g'.
Qed.

Lemma in_unit_same g g' : draws g' = draws g -> Draws.in_unit g -> Draws.in_unit g'.
Proof. intros H Hu k. rewrite H. apply Hu. Qed.

Lemma make_item_tree sm g :
  Draws.in_unit g ->
  let p := treePos (fst (MorphingGroup.make_item sm g)) in
  -9 <= THREE.y p < 9 /\
  THREE.x p * THREE.x p + THREE.z p * THREE.z p
  < (6.5 - (THREE.y p + 9) / 3) * (6.5 - (THREE.y p + 9) / 3).
Proof.
  intros Hu. cbn.
  set (h := draws g (N.succ (N.succ (N.succ (cursor g))))).
  set (u5 := draws g (N.succ (N.succ (N.succ (N.succ (cursor g)))))).
  set (a := (h * 18 - 9) * 5 + _).
  pose proof (Hu (N.succ (N.succ (N.succ (cursor g))))) as Hh. fold h in Hh.
  pose proof (Hu (N.succ (N.succ (N.succ (N.succ (cursor g)))))) as H5. fold u5 in H5.
  split; [lra|].
  pose proof (sin2_cos2 a) as Ha. unfold Rsqr in Ha.
  set (m := (1 - (h * 18 - 9 + 9) / 18) * 6 + 0.5).
  assert (Hm : 0.5 < m) by (unfold m; lra).
  replace (cos a * (u5 * m) * (cos a * (u5 * m)) + sin a * (u5 * m) * (sin a * (u5 * m)))
    with ((u5 * m) * (u5 * m) * (sin a * sin a + cos a * cos a)) by ring.
  rewrite Ha, Rmult_1_r.
  replace (6.5 - (h * 18 - 9 + 9) / 3) with m by (unfold m; lra).
  assert (0 <= u5 * m) by nra. assert (u5 * m < m) by nra. nra.
Qed.

Lemma make_item_rotation_scale sm g :
  Draws.in_unit g -> 0 < sm ->
  let it := fst (MorphingGroup.make_item sm g) in
  0 <= THREE.ex (rotation it) < PI /\
  0 <= THREE.ey (rotation it) < PI /\
  0 <= THREE.ez (rotation it) < PI /\
  0.5 * sm <= scale it < 2 * sm.
Proof.
  intros Hu Hsm. cbn.
  pose proof PI_RGT_0 as Hpi.
  repeat match goal with
         | |- context [draws g ?k] =>
             let u := fresh "u" in
             let H := fresh "H" in
             pose proof (Hu k) as H; set (u := draws g k) in *; clearbody u
         end.
  repeat split; nra.
Qed.

Lemma Example_zero_in_unit : Draws.in_unit Example.zero_rng.
Proof. intros k. cbn. lra. Qed.

Lemma Example_half_in_unit : Draws.in_unit Example.half_rng.
Proof. intros k. cbn. lra. Qed.

(** X5. With draws in [0, 1), every instance of a generated layout has its
    tree position inside the cone: its height y lies in [-9, 9) and its
    horizontal distance from the axis is less than [6.5 - (y + 9) / 3], the
    radius that shrinks from 6.5 at the base to 0.5 at the top; in particular
    it is less than 6.5 from the axis. *)
Theorem X5_tree_positions_in_cone cfg g item :
  Draws.in_unit g ->
  In item (fst (MorphingGroup.compute_data cfg g)) ->
  let p := treePos item in
  -9 <= THREE.y p < 9 /\
  THREE.x p * THREE.x p + THREE.z p * THREE.z p
  < (6.5 - (THREE.y p + 9) / 3) * (6.5 - (THREE.y p + 9) / 3) /\
  THREE.x p * THREE.x p + THREE.z p * THREE.z p < 6.5 * 6.5.
Proof.
  intros Hu Hin.
  destruct (layout_item cfg g item Hin) as (g' & -> & Hd).
  destruct (make_item_tree (scaleMultiplier cfg) (@in_unit_same g g' Hd Hu)) as [Hy Hr].
  cbn zeta. split; [exact Hy|]. split; [exact Hr|].
  set (p := treePos (fst (MorphingGroup.make_item (scaleMultiplier cfg) g'))) in *.
  assert (0 < 6.5 - (THREE.y p + 9) / 3 <= 6.5) by lra. nra.
Qed.

Lemma X5_tree_positions_in_cone_witness :
  let p := treePos (fst (MorphingGroup.make_item 0.8 Example.zero_rng)) in
  -9 <= THREE.y p < 9.
Proof.
  apply (@X5_tree_positions_in_cone Example.config0 Example.zero_rng
           (fst (MorphingGroup.make_item 0.8 Example.zero_rng))).
  - exact Example_zero_in_unit.
  - left. reflexivity.
Defined.

(** X6. With draws in [0, 1) and a positive scale multiplier, every instance
    of a generated layout has its three base rotation angles in [0, pi) and a
    scale of at least half and less than twice the group's multiplier. *)
Theorem X6_rotation_and_scale_ranges cfg g item :
  Draws.in_unit g ->
  0 < scaleMultiplier cfg ->
  In item (fst (MorphingGroup.compute_data cfg g)) ->
  0 <= THREE.ex (rotation item) < PI /\
  0 <= THREE.ey (rotation item) < PI /\
  0 <= THREE.ez (rotation item) < PI /\
  0.5 * scaleMultiplier cfg <= scale item < 2 * scaleMultiplier cfg.
Proof.
  intros Hu Hsm Hin.
  destruct (layout_item cfg g item Hin) as (g' & -> & Hd).
  exact (make_item_rotation_scale (@in_unit_same g g' Hd Hu) Hsm).
Qed.

Lemma X6_rotation_and_scale_ranges_witness :
  0.5 * 0.8 <= scale (fst (MorphingGroup.make_item 0.8 Example.half_rng)) < 2 * 0.8.
Proof.
  apply (@X6_rotation_and_scale_ranges Example.config0 Example.half_rng
           (fst (MorphingGroup.make_item 0.8 Example.half_rng))).
  - exact Example_half_in_unit.
  - cbn. lra.
  - left. reflexivity.
Defined.

(** X7. Generating a layout makes one entry per instance asked for and takes
    exactly ten draws per entry, leaving the later draws as they were; a count
    of zero or less gives the empty layout and takes no draw. *)
Theorem X7_layout_size_and_draws cfg g :
  List.length (fst (MorphingGroup.compute_data cfg g)) = Z.to_nat (count cfg) /\
  draws (snd (MorphingGroup.compute_data cfg g)) = draws g /\
  cursor (snd (MorphingGroup.compute_data cfg g))
  = (cursor g + 10 * N.of_nat (Z.to_nat (count cfg)))%N /\
  ((count cfg <= 0)%Z -> MorphingGroup.compute_data cfg g = ([], g)).
Proof.
  split; [apply generate_length|].
  split; [apply compute_data_rng|]. split; [apply compute_data_rng|].
  intros H. unfold MorphingGroup.compute_data.
  replace (Z.to_nat (count cfg)) with 0%nat by lia. reflexivity.
Qed.

Lemma X7_layout_size_and_draws_witness :
  MorphingGroup.compute_data
    (Scene.group (-3) String.EmptyString 1 0.1 sphere 0.8 None None) Example.half_rng
  = ([], Example.half_rng).
Proof.
  apply X7_layout_size_and_draws. cbn. lia.
Defined.

(** X8. In the tree formation the logo stands in front of the ornaments: every
    logo element the scene creates has its tree position at z = 11, and every
    instance of a layout generated from draws in [0, 1) has a tree position
    whose z is more than 4.5 smaller. *)
Theorem X8_logo_in_front_of_tree cfg g item c :
  Draws.in_unit g ->
  In item (fst (MorphingGroup.compute_data cfg g)) ->
  In (LogoElement.targetOffset c) Scene.logo_offsets ->
  THREE.z (LogoElement.finalTreePos c) = 11 /\
  THREE.z (treePos item) + 4.5 < THREE.z (LogoElement.finalTreePos c).
Proof.
  intros Hu Hin Hoff.
  assert (Hz : THREE.z (LogoElement.finalTreePos c) = 11).
  { unfold LogoElement.finalTreePos. cbn.
    repeat (destruct Hoff as [<-|Hoff]; [cbn; lra|]). destruct Hoff. }
  split; [exact Hz|]. rewrite Hz.
  destruct (layout_item cfg g item Hin) as (g' & -> & Hd).
  destruct (make_item_tree (scaleMultiplier cfg) (@in_unit_same g g' Hd Hu)) as [Hy Hr].
  set (p := treePos (fst (MorphingGroup.make_item (scaleMultiplier cfg) g'))) in *.
  assert (0 < 6.5 - (THREE.y p + 9) / 3 <= 6.5) by lra.
  assert (THREE.z p * THREE.z p < 6.5 * 6.5) by nra.
  nra.
Qed.

Lemma X8_logo_in_front_of_tree_witness :
  THREE.z (treePos (fst (MorphingGroup.make_item 0.8 Example.zero_rng))) + 4.5
  < THREE.z (LogoElement.finalTreePos Example.logo0).
Proof.
  apply (@X8_logo_in_front_of_tree Example.config0 Example.zero_rng
           (fst (MorphingGroup.make_item 0.8 Example.zero_rng)) Example.logo0).
  - exact Example_zero_in_unit.
  - left. reflexivity.
  - cbn. right. right. right. right. left. reflexivity.
Defined.

End LayoutBounds.

(** ** More on the frame callbacks *)

Section BufferFacts.

Context {A B : Type}.

Lemma set_nth_twice (l : list B) i a b :
  THREE.set_nth i a (THREE.set_nth i b l) = THREE.set_nth i a l.
Proof.
  revert i; induction l as [|h t IH]; intros [|i]; cbn; auto. now rewrite IH.
Qed.

Lemma set_nth_comm (l : list B) i j a b :
  i <> j ->
  THREE.set_nth i a (THREE.set_nth j b l) = THREE.set_nth j b (THREE.set_nth i a l).
Proof.
  revert i j; induction l as [|h t IH]; intros [|i] [|j] H; cbn; auto; try congruence.
  rewrite IH; [reflexivity|congruence].
Qed.

Lemma write_all_set_nth (f : nat -> A -> B) items : forall j i v l,
  (i < j)%nat ->
  THREE.set_nth i v (Buffer.write_all f j items l)
  = Buffer.write_all f j items (THREE.set_nth i v l).
Proof.
  induction items as [|a rest IH]; intros j i v l H; cbn; [reflexivity|].
  rewrite IH by lia. f_equal. apply set_nth_comm. lia.
Qed.

(** A later loop over the same items overwrites everything an earlier loop
    wrote. *)
Lemma write_all_twice (f g : nat -> A -> B) items : forall i l,
  Buffer.write_all f i items (Buffer.write_all g i items l) = Buffer.write_all f i items l.
Proof.
  induction items as [|a rest IH]; intros i l; cbn; [reflexivity|].
  rewrite write_all_set_nth by lia. rewrite set_nth_twice. apply IH.
Qed.

Lemma length_write_all (f : nat -> A -> B) items : forall i l,
  List.length (Buffer.write_all f i items l) = List.length l.
Proof.
  induction items as [|a rest IH]; intros i l; cbn; [reflexivity|].
  rewrite IH. apply length_set_nth.
Qed.

Lemma nth_error_write_all_before (f : nat -> A -> B) items : forall i l k,
  (k < i)%nat -> nth_error (Buffer.write_all f i items l) k = nth_error l k.
Proof.
  induction items as [|a rest IH]; intros i l k H; cbn; [reflexivity|].
  rewrite IH by lia. apply nth_error_set_nth_ne. lia.
Qed.

Lemma nth_error_write_all (f : nat -> A -> B) items : forall i l k a,
  nth_error items k = Some a ->
  (i + k < List.length l)%nat ->
  nth_error (Buffer.write_all f i items l) (i + k) = Some (f (i + k)%nat a).
Proof.
  induction items as [|a0 rest IH]; intros i l [|k] a Hk Hl; try discriminate; cbn in *.
  - injection Hk as <-. rewrite Nat.add_0_r in *.
    rewrite nth_error_write_all_before by lia. now apply nth_error_set_nth_eq.
  - rewrite <- Nat.add_succ_comm. apply IH; [exact Hk|].
    rewrite length_set_nth. lia.
Qed.

Lemma nth_error_write_all_after (f : nat -> A -> B) items : forall i l k,
  (i + List.length items <= k)%nat ->
  nth_error (Buffer.write_all f i items l) k = nth_error l k.
Proof.
  induction items as [|a rest IH]; intros i l k H; cbn in *; [reflexivity|].
  rewrite IH by lia. apply nth_error_set_nth_ne. lia.
Qed.

End BufferFacts.

Section GroupFrameFacts.

Import JS.
Local Open Scope R_scope.

Lemma written_nil {A} (f : nat -> A -> THREE.Matrix4) i mesh :
  Buffer.written f i [] mesh = mesh.
Proof. destruct mesh. reflexivity. Qed.

Lemma decoration_nil {A} gift (f : nat -> A -> THREE.Matrix4) i r :
  Buffer.decoration gift f i [] r = r.
Proof.
  unfold Buffer.decoration. destruct gift; [|reflexivity].
  destruct r as [m|]; [|reflexivity]. cbn. now rewrite written_nil.
Qed.

(** The whole effect of the [forEach] loop of a group whose mesh exists. *)
Lemma group_forEach_eq nf t items : forall i cfg deps dat mesh r1 r2 b,
  let c := MorphingGroup.Instance cfg deps dat (Some mesh) r1 r2 b in
  let F := MorphingGroup.item_matrix (MorphingGroup.isCandyCane c) nf t in
  let gift := MorphingGroup.isGiftBox c in
  MorphingGroup.forEach nf t i items c
  = Normal (MorphingGroup.Instance cfg deps dat
              (Some (Buffer.written F i items mesh))
              (Buffer.decoration gift F i items r1)
              (Buffer.decoration gift F i items r2)
              (Buffer.decoration gift F i items b)).
Proof.
  induction items as [|item rest IH]; intros i cfg deps dat mesh r1 r2 b; cbn zeta.
  - cbn [MorphingGroup.forEach]. now rewrite written_nil, !decoration_nil.
  - cbn [MorphingGroup.forEach]. unfold MorphingGroup.forEach_body.
    cbn [MorphingGroup.meshRef deref bind].
    unfold MorphingGroup.isGiftBox, MorphingGroup.isCandyCane in *.
    unfold MorphingGroup.set_meshRef, MorphingGroup.set_decorations.
    cbn [MorphingGroup.config MorphingGroup.data_deps MorphingGroup.data
         MorphingGroup.meshRef MorphingGroup.ribbon1Ref MorphingGroup.ribbon2Ref
         MorphingGroup.bowRef] in *.
    destruct (geometryType (snd cfg)) eqn:G; cbn iota;
      rewrite IH; cbn [MorphingGroup.config]; unfold Buffer.decoration;
      rewrite G; try reflexivity;
      destruct r1, r2, b; reflexivity.
Qed.

(** The whole effect of a frame on a group whose mesh exists. *)
Lemma group_useFrame_eq state t dt cfg deps dat mesh r1 r2 b :
  let c := MorphingGroup.Instance cfg deps dat (Some mesh) r1 r2 b in
  let nf := MorphingGroup.newFactor_of state dt mesh in
  let F := MorphingGroup.item_matrix (MorphingGroup.isCandyCane c) nf t in
  let gift := MorphingGroup.isGiftBox c in
  let flag := fun r => if gift then option_map THREE.set_needsUpdate r else r in
  MorphingGroup.useFrame state t dt c
  = Normal (MorphingGroup.Instance cfg deps dat
              (Some (THREE.set_needsUpdate
                       (Buffer.written F 0 dat (THREE.set_factor nf mesh))))
              (flag (Buffer.decoration gift F 0 dat r1))
              (flag (Buffer.decoration gift F 0 dat r2))
              (flag (Buffer.decoration gift F 0 dat b))).
Proof.
  cbn zeta. unfold MorphingGroup.useFrame.
  cbn [MorphingGroup.meshRef]. unfold MorphingGroup.set_meshRef at 2.
  cbn [MorphingGroup.config MorphingGroup.data_deps MorphingGroup.data
       MorphingGroup.ribbon1Ref MorphingGroup.ribbon2Ref MorphingGroup.bowRef].
  rewrite group_forEach_eq. cbn [bind deref MorphingGroup.meshRef].
  unfold MorphingGroup.set_meshRef, MorphingGroup.set_decorations,
         MorphingGroup.isGiftBox, MorphingGroup.isCandyCane.
  cbn [MorphingGroup.config MorphingGroup.data_deps MorphingGroup.data
       MorphingGroup.meshRef MorphingGroup.ribbon1Ref MorphingGroup.ribbon2Ref
       MorphingGroup.bowRef].
  destruct (match geometryType (snd cfg) with giftBox => true | _ => false end);
    reflexivity.
Qed.

(** X9.  A frame of a morphing group whose mesh exists returns, and the
    matrix it writes for an item that has a slot lies within
    [0.5 * |1 - 0.8 * factor|] of the blended position in x and in y, has
    exactly the blended z, and has the item's scale on all three axes; the
    blend is at the factor the frame stores. *)
Theorem X9_float_offset_bounded state t dt c mesh k item :
  MorphingGroup.meshRef c = Some mesh ->
  nth_error (MorphingGroup.data c) k = Some item ->
  (k < List.length (THREE.instanceMatrix mesh))%nat ->
  exists c' mesh' m nf,
    MorphingGroup.useFrame state t dt c = Normal c' /\
    MorphingGroup.meshRef c' = Some mesh' /\
    THREE.im_factor mesh' = Some nf /\
    nth_error (THREE.instanceMatrix mesh') k = Some m /\
    let base := THREE.lerpVectors (scatterPos item) (treePos item) nf in
    Rabs (THREE.x (THREE.m_position m) - THREE.x base) <= 0.5 * Rabs (1 - nf * 0.8) /\
    Rabs (THREE.y (THREE.m_position m) - THREE.y base) <= 0.5 * Rabs (1 - nf * 0.8) /\
    THREE.z (THREE.m_position m) = THREE.z base /\
    THREE.m_scale m = THREE.setScalar (scale item).
Proof.
  intros H Hk Hlen.
  destruct (group_useFrame_spec state t dt c H) as (c' & mesh' & E & M & F & _ & _ & At).
  do 4 eexists. split; [exact E|]. split; [exact M|]. split; [exact F|].
  split; [exact (At k item Hk Hlen)|].
  set (nf := MorphingGroup.newFactor_of state dt mesh).
  unfold MorphingGroup.item_matrix.
  cbn [THREE.m_position THREE.m_scale THREE.add THREE.x THREE.y THREE.z].
  assert (B : forall a, Rabs a <= 1 ->
                Rabs (a * 0.5 * (1 - nf * 0.8)) <= 0.5 * Rabs (1 - nf * 0.8)).
  { intros a Ha. rewrite !Rabs_mult, (Rabs_right 0.5) by lra.
    pose proof (Rabs_pos (1 - nf * 0.8)). nra. }
  split; [|split; [|split]].
  - match goal with |- Rabs (?p + ?q - ?p') <= _ => replace (p + q - p') with q by ring end.
    apply B. apply Rabs_le. pose proof (COS_bound (t * 0.5 + INR k * 5)). lra.
  - match goal with |- Rabs (?p + ?q - ?p') <= _ => replace (p + q - p') with q by ring end.
    apply B. apply Rabs_le. pose proof (SIN_bound (t + INR k * 10)). lra.
  - ring.
  - reflexivity.
Qed.

Lemma X9_float_offset_bounded_witness :
  exists c' mesh' m nf,
    MorphingGroup.useFrame TREE_SHAPE 0 0.1 Example.group0 = Normal c' /\
    MorphingGroup.meshRef c' = Some mesh' /\
    THREE.im_factor mesh' = Some nf /\
    nth_error (THREE.instanceMatrix mesh') 0 = Some m /\
    let item := fst (MorphingGroup.make_item 0.8 Example.zero_rng) in
    let base := THREE.lerpVectors (scatterPos item) (treePos item) nf in
    Rabs (THREE.x (THREE.m_position m) - THREE.x base) <= 0.5 * Rabs (1 - nf * 0.8) /\
    Rabs (THREE.y (THREE.m_position m) - THREE.y base) <= 0.5 * Rabs (1 - nf * 0.8) /\
    THREE.z (THREE.m_position m) = THREE.z base /\
    THREE.m_scale m = THREE.setScalar (scale item).
Proof.
  apply (@X9_float_offset_bounded TREE_SHAPE 0 0.1 Example.group0
           (THREE.new_InstancedMesh 1) 0%nat
           (fst (MorphingGroup.make_item 0.8 Example.zero_rng))).
  - reflexivity.
  - reflexivity.
  - cbn. lia.
Defined.

(** X10.  In a gift-box group whose two ribbons and bow hold the same
    matrices as the boxes, a frame returns and, for every item that has a
    slot, writes one and the same matrix at the item's index of all four
    buffers: the matrix of that item at the factor the frame stores, with the
    slow spin of a group that is not made of candy canes.  The four buffers
    therefore still agree, and all four are marked for upload. *)
Theorem X10_decorations_follow_boxes state t dt c :
  MorphingGroup.isGiftBox c = true ->
  Buffer.in_step c ->
  exists c' mesh' r1' r2' b' nf,
    MorphingGroup.useFrame state t dt c = Normal c' /\
    MorphingGroup.meshRef c' = Some mesh' /\
    MorphingGroup.ribbon1Ref c' = Some r1' /\
    MorphingGroup.ribbon2Ref c' = Some r2' /\
    MorphingGroup.bowRef c' = Some b' /\
    THREE.im_factor mesh' = Some nf /\
    (forall k item,
       nth_error (MorphingGroup.data c) k = Some item ->
       (k < List.length (THREE.instanceMatrix mesh'))%nat ->
       exists m,
         nth_error (THREE.instanceMatrix mesh') k = Some m /\
         nth_error (THREE.instanceMatrix r1') k = Some m /\
         nth_error (THREE.instanceMatrix r2') k = Some m /\
         nth_error (THREE.instanceMatrix b') k = Some m /\
         m = MorphingGroup.item_matrix false nf t k item /\
         THREE.z (THREE.m_position m)
         = THREE.z (scatterPos item)
           + (THREE.z (treePos item) - THREE.z (scatterPos item)) * nf /\
         THREE.m_rotation m
         = THREE.Eul (THREE.ex (rotation item) + t * 0.2)
                     (THREE.ey (rotation item) + t * 0.2)
                     (THREE.ez (rotation item)) /\
         THREE.m_scale m = THREE.Vec3 (scale item) (scale item) (scale item)) /\
    Buffer.in_step c' /\
    THREE.needsUpdate mesh' = true /\
    THREE.needsUpdate r1' = true /\
    THREE.needsUpdate r2' = true /\
    THREE.needsUpdate b' = true.
Proof.
  intros G (mesh & r1 & r2 & b & M & R1 & R2 & B & E1 & E2 & E3).
  destruct c as [cfg deps dat m0 q1 q2 q0]. cbn in M, R1, R2, B. subst.
  assert (Hc : MorphingGroup.isCandyCane
                 (MorphingGroup.Instance cfg deps dat (Some mesh) (Some r1) (Some r2) (Some b))
               = false).
  { unfold MorphingGroup.isGiftBox, MorphingGroup.isCandyCane in *.
    destruct (geometryType _); (reflexivity || discriminate). }
  do 6 eexists. split; [apply group_useFrame_eq|].
  rewrite G, Hc. unfold Buffer.decoration, Buffer.in_step.
  cbn [MorphingGroup.meshRef MorphingGroup.ribbon1Ref MorphingGroup.ribbon2Ref
       MorphingGroup.bowRef option_map MorphingGroup.data].
  do 4 (split; [reflexivity|]).
  unfold Buffer.written, Buffer.with_matrices.
  cbn [THREE.set_needsUpdate THREE.set_factor THREE.instanceMatrix THREE.im_factor
       THREE.needsUpdate].
  rewrite E1, E2, E3.
  split; [reflexivity|]. split; [|split; [|now repeat split]].
  - intros k item Hk Hlen. rewrite length_write_all in Hlen.
    pose proof (@nth_error_write_all _ _
                  (MorphingGroup.item_matrix false
                     (MorphingGroup.newFactor_of state dt mesh) t)
                  dat 0%nat (THREE.instanceMatrix mesh) k item Hk Hlen) as Hn.
    cbn [Nat.add] in Hn.
    eexists. do 4 (split; [exact Hn|]). split; [reflexivity|].
    unfold MorphingGroup.item_matrix, THREE.lerpVectors, THREE.add, THREE.setScalar.
    cbn [THREE.m_position THREE.m_rotation THREE.m_scale THREE.x THREE.y THREE.z].
    split; [ring|]. split; reflexivity.
  - do 4 eexists. repeat (split; [reflexivity|]). now repeat split.
Qed.

Lemma X10_decorations_follow_boxes_witness :
  exists c' mesh' r1' r2' b' nf,
    MorphingGroup.useFrame TREE_SHAPE 0 0.1 Example.gift0 = Normal c' /\
    MorphingGroup.meshRef c' = Some mesh' /\
    MorphingGroup.ribbon1Ref c' = Some r1' /\
    MorphingGroup.ribbon2Ref c' = Some r2' /\
    MorphingGroup.bowRef c' = Some b' /\
    THREE.im_factor mesh' = Some nf /\
    (forall k item,
       nth_error (MorphingGroup.data Example.gift0) k = Some item ->
       (k < List.length (THREE.instanceMatrix mesh'))%nat ->
       exists m,
         nth_error (THREE.instanceMatrix mesh') k = Some m /\
         nth_error (THREE.instanceMatrix r1') k = Some m /\
         nth_error (THREE.instanceMatrix r2') k = Some m /\
         nth_error (THREE.instanceMatrix b') k = Some m /\
         m = MorphingGroup.item_matrix false nf 0 k item /\
         THREE.z (THREE.m_position m)
         = THREE.z (scatterPos item)
           + (THREE.z (treePos item) - THREE.z (scatterPos item)) * nf /\
         THREE.m_rotation m
         = THREE.Eul (THREE.ex (rotation item) + 0 * 0.2)
                     (THREE.ey (rotation item) + 0 * 0.2)
                     (THREE.ez (rotation item)) /\
         THREE.m_scale m = THREE.Vec3 (scale item) (scale item) (scale item)) /\
    Buffer.in_step c' /\
    THREE.needsUpdate mesh' = true /\
    THREE.needsUpdate r1' = true /\
    THREE.needsUpdate r2' = true /\
    THREE.needsUpdate b' = true.
Proof.
  apply (@X10_decorations_follow_boxes TREE_SHAPE 0 0.1 Example.gift0).
  - reflexivity.
  - exists (THREE.new_InstancedMesh 2), (THREE.new_InstancedMesh 2),
           (THREE.new_InstancedMesh 2), (THREE.new_InstancedMesh 2).
    repeat (split; [reflexivity|]). reflexivity.
Defined.

(** X11.  A frame of a group that is not a gift-box group leaves the three
    decoration refs as they are, whatever they hold. *)
Theorem X11_decorations_untouched state t dt c c' :
  MorphingGroup.isGiftBox c = false ->
  MorphingGroup.useFrame state t dt c = Normal c' ->
  MorphingGroup.ribbon1Ref c' = MorphingGroup.ribbon1Ref c /\
  MorphingGroup.ribbon2Ref c' = MorphingGroup.ribbon2Ref c /\
  MorphingGroup.bowRef c' = MorphingGroup.bowRef c.
Proof.
  intros G E. destruct c as [cfg deps dat [mesh|] r1 r2 b].
  - rewrite group_useFrame_eq in E. rewrite G in E. injection E as <-.
    unfold Buffer.decoration. now repeat split.
  - cbn in E. injection E as <-. now repeat split.
Qed.

Lemma X11_decorations_untouched_witness :
  exists c',
    MorphingGroup.useFrame TREE_SHAPE 0 0.1 Example.group0 = Normal c' /\
    MorphingGroup.ribbon1Ref c' = MorphingGroup.ribbon1Ref Example.group0 /\
    MorphingGroup.ribbon2Ref c' = MorphingGroup.ribbon2Ref Example.group0 /\
    MorphingGroup.bowRef c' = MorphingGroup.bowRef Example.group0.
Proof.
  destruct (group_useFrame_spec TREE_SHAPE 0 0.1 Example.group0 group0_meshRef)
    as (c' & _ & E & _).
  exists c'. split; [exact E|].
  apply (@X11_decorations_untouched TREE_SHAPE 0 0.1 Example.group0 c');
    [reflexivity | exact E].
Defined.

End GroupFrameFacts.

(** ** The factor under changing arrangements and under long frames *)

Section MixedRuns.

Import JS.
Local Open Scope R_scope.

Lemma lerp_unit f target w :
  0 <= w <= 1 -> 0 <= f <= 1 -> 0 <= target <= 1 -> 0 <= THREE.lerp f target w <= 1.
Proof. intros Hw Hf Ht. unfold THREE.lerp. split; nra. Qed.

Lemma group_frames_unit fs : forall c mesh,
  MorphingGroup.meshRef c = Some mesh ->
  Mixed.short 2.5 fs ->
  0 <= nullish (THREE.im_factor mesh) 0 <= 1 ->
  exists c',
    MorphingGroup.frames fs c = Normal c' /\
    0 <= nullish (MorphingGroup.factor c') 0 <= 1.
Proof.
  induction fs as [|[[state t] dt] rest IH]; intros c mesh H Hs Hf.
  - exists c. split; [reflexivity|]. unfold MorphingGroup.factor. now rewrite H.
  - inversion Hs as [|x l Hw Hrest]; subst. cbn [snd] in Hw.
    destruct (group_useFrame_spec state t dt c H) as (c1 & mesh1 & E & M & F & _).
    assert (H1 : 0 <= nullish (THREE.im_factor mesh1) 0 <= 1).
    { rewrite F. cbn [nullish]. unfold MorphingGroup.newFactor_of, MorphingGroup.speed.
      apply lerp_unit; [exact Hw | exact Hf | apply targetFactor_range]. }
    destruct (IH c1 mesh1 M Hrest H1) as (c' & E' & R').
    exists c'. cbn [MorphingGroup.frames]. rewrite E. cbn [bind]. now split.
Qed.

Lemma star_frames_unit fs : forall c o,
  TopStar.meshRef c = Some o ->
  Mixed.short 2.0 fs ->
  0 <= nullish (THREE.userData_factor o) 0 <= 1 ->
  exists c',
    TopStar.frames fs c = Normal c' /\
    0 <= nullish (TopStar.factor c') 0 <= 1.
Proof.
  induction fs as [|[[state t] dt] rest IH]; intros c o H Hs Hf.
  - exists c. split; [reflexivity|]. unfold TopStar.factor. now rewrite H.
  - inversion Hs as [|x l Hw Hrest]; subst. cbn [snd] in Hw.
    destruct (star_useFrame_spec state t dt c H) as (c1 & o1 & E & M & _ & F & _).
    assert (H1 : 0 <= nullish (THREE.userData_factor o1) 0 <= 1).
    { rewrite F. cbn [nullish]. unfold TopStar.newFactor_of, TopStar.speed.
      apply lerp_unit; [exact Hw | exact Hf | apply targetFactor_range]. }
    destruct (IH c1 o1 M Hrest H1) as (c' & E' & R').
    exists c'. cbn [TopStar.frames]. rewrite E. cbn [bind]. now split.
Qed.

Lemma logo_frames_unit fs : forall c o,
  LogoElement.meshRef c = Some o ->
  Mixed.short 2.0 fs ->
  0 <= nullish (THREE.userData_factor o) 0 <= 1 ->
  exists c',
    LogoElement.frames fs c = Normal c' /\
    0 <= nullish (LogoElement.factor c') 0 <= 1.
Proof.
  induction fs as [|[[state t] dt] rest IH]; intros c o H Hs Hf.
  - exists c. split; [reflexivity|]. unfold LogoElement.factor. now rewrite H.
  - inversion Hs as [|x l Hw Hrest]; subst. cbn [snd] in Hw.
    destruct (logo_useFrame_spec state t dt c H) as (c1 & o1 & E & M & _ & _ & F & _).
    assert (H1 : 0 <= nullish (THREE.userData_factor o1) 0 <= 1).
    { rewrite F. cbn [nullish]. unfold LogoElement.newFactor_of, LogoElement.speed.
      apply lerp_unit; [exact Hw | exact Hf | apply targetFactor_range]. }
    destruct (IH c1 o1 M Hrest H1) as (c' & E' & R').
    exists c'. cbn [LogoElement.frames]. rewrite E. cbn [bind]. now split.
Qed.

(** X12.  The stored factor of a mounted group, of the star and of a logo
    element stays in [0, 1] through any run of frames whose weights
    [delta * speed] are in [0, 1], however the arrangement changes from one
    frame to the next; the run returns. *)
Theorem X12_factor_stays_in_unit_interval fs :
  (forall c mesh,
     MorphingGroup.meshRef c = Some mesh ->
     Mixed.short 2.5 fs ->
     0 <= nullish (THREE.im_factor mesh) 0 <= 1 ->
     exists c',
       MorphingGroup.frames fs c = Normal c' /\
       0 <= nullish (MorphingGroup.factor c') 0 <= 1) /\
  (forall c o,
     TopStar.meshRef c = Some o ->
     Mixed.short 2.0 fs ->
     0 <= nullish (THREE.userData_factor o) 0 <= 1 ->
     exists c',
       TopStar.frames fs c = Normal c' /\
       0 <= nullish (TopStar.factor c') 0 <= 1) /\
  (forall c o,
     LogoElement.meshRef c = Some o ->
     Mixed.short 2.0 fs ->
     0 <= nullish (THREE.userData_factor o) 0 <= 1 ->
     exists c',
       LogoElement.frames fs c = Normal c' /\
       0 <= nullish (LogoElement.factor c') 0 <= 1).
Proof.
  split; [|split].
  - apply group_frames_unit.
  - apply star_frames_unit.
  - apply logo_frames_unit.
Qed.

Lemma X12_factor_stays_in_unit_interval_witness :
  Mixed.short 2.5 [(TREE_SHAPE, 0, 0.25); (SCATTERED, 0.25, 0.125); (TREE_SHAPE, 0.375, 0.4)] /\
  exists c',
    MorphingGroup.frames
      [(TREE_SHAPE, 0, 0.25); (SCATTERED, 0.25, 0.125); (TREE_SHAPE, 0.375, 0.4)]
      Example.group0 = Normal c' /\
    0 <= nullish (MorphingGroup.factor c') 0 <= 1.
Proof.
  assert (Hs : Mixed.short 2.5
                 [(TREE_SHAPE, 0, 0.25); (SCATTERED, 0.25, 0.125); (TREE_SHAPE, 0.375, 0.4)])
    by (repeat constructor; cbn; lra).
  split; [exact Hs|].
  assert (Hf : 0 <= nullish (THREE.im_factor (THREE.new_InstancedMesh 1)) 0 <= 1)
    by (cbn; lra).
  exact (proj1 (X12_factor_stays_in_unit_interval
                  [(TREE_SHAPE, 0, 0.25); (SCATTERED, 0.25, 0.125); (TREE_SHAPE, 0.375, 0.4)])
               Example.group0 _ group0_meshRef Hs Hf).
Defined.

(** X13.  A frame of a mounted group multiplies the distance of the factor
    to its target by [|1 - delta * 2.5|], whatever the delta: a factor that
    is at the target stays there, and a frame longer than 0.8 s leaves the
    factor further from the target than it was. *)
Theorem X13_frame_scales_the_error state t dt c mesh :
  MorphingGroup.meshRef c = Some mesh ->
  exists c',
    MorphingGroup.useFrame state t dt c = Normal c' /\
    let f := nullish (THREE.im_factor mesh) 0 in
    let f' := nullish (MorphingGroup.factor c') 0 in
    Rabs (f' - targetFactor state) = Rabs (1 - dt * 2.5) * Rabs (f - targetFactor state) /\
    (f = targetFactor state -> f' = targetFactor state) /\
    (0.8 < dt -> f <> targetFactor state ->
     Rabs (f - targetFactor state) < Rabs (f' - targetFactor state)).
Proof.
  intros H.
  destruct (group_useFrame_spec state t dt c H) as (c' & mesh' & E & M & F & _).
  exists c'. split; [exact E|]. cbn zeta.
  unfold MorphingGroup.factor. rewrite M, F. cbn [nullish].
  unfold MorphingGroup.newFactor_of, MorphingGroup.speed.
  set (f := nullish (THREE.im_factor mesh) 0). set (T := targetFactor state).
  assert (Eq : Rabs (THREE.lerp f T (dt * 2.5) - T) = Rabs (1 - dt * 2.5) * Rabs (f - T))
    by (rewrite lerp_error; apply Rabs_mult).
  split; [exact Eq|]. split.
  - intros ->. unfold THREE.lerp. ring.
  - intros Hdt Hne. rewrite Eq.
    assert (Hpos : 0 < Rabs (f - T)) by (apply Rabs_pos_lt; lra).
    assert (Hbig : 1 < Rabs (1 - dt * 2.5)).
    { rewrite Rabs_left by lra. lra. }
    nra.
Qed.

Lemma X13_frame_scales_the_error_witness :
  exists c',
    MorphingGroup.useFrame TREE_SHAPE 0 1 Example.group0 = Normal c' /\
    let f := nullish (THREE.im_factor (THREE.new_InstancedMesh 1)) 0 in
    let f' := nullish (MorphingGroup.factor c') 0 in
    Rabs (f' - targetFactor TREE_SHAPE)
    = Rabs (1 - 1 * 2.5) * Rabs (f - targetFactor TREE_SHAPE) /\
    (f = targetFactor TREE_SHAPE -> f' = targetFactor TREE_SHAPE) /\
    (0.8 < 1 -> f <> targetFactor TREE_SHAPE ->
     Rabs (f - targetFactor TREE_SHAPE) < Rabs (f' - targetFactor TREE_SHAPE)).
Proof.
  apply (@X13_frame_scales_the_error TREE_SHAPE 0 1 Example.group0
           (THREE.new_InstancedMesh 1)).
  reflexivity.
Defined.

End MixedRuns.

(** ** The star: glow, pulse and outline *)

Section StarFacts.

Import JS.
Local Open Scope R_scope.

(** X14.  A frame of the mounted star whose weight [delta * 2] is in [0, 1]
    and whose stored factor is in [0, 1] (or absent) returns and leaves the
    light at an intensity between 15 and 25 times the new factor, the
    material's emissive intensity between [0.5 + 3 * factor] and
    [0.5 + 6 * factor], and a uniform scale within 5 percent of
    [0.8 + 0.4 * factor]. *)
Theorem X14_star_glow_ranges state t dt c o l m :
  TopStar.meshRef c = Some o ->
  TopStar.lightRef c = Some l ->
  TopStar.materialRef c = Some m ->
  0 <= nullish (THREE.userData_factor o) 0 <= 1 ->
  0 <= dt * 2.0 <= 1 ->
  exists c' o' l' m' nf s,
    TopStar.useFrame state t dt c = Normal c' /\
    TopStar.meshRef c' = Some o' /\
    TopStar.lightRef c' = Some l' /\
    TopStar.materialRef c' = Some m' /\
    THREE.userData_factor o' = Some nf /\
    15 * nf <= TopStar.intensity l' <= 25 * nf /\
    0.5 + 3 * nf <= TopStar.emissiveIntensity m' <= 0.5 + 6 * nf /\
    THREE.scale o' = THREE.setScalar s /\
    0.95 * (0.8 + 0.4 * nf) <= s <= 1.05 * (0.8 + 0.4 * nf).
Proof.
  intros M L Mt Hf Hw. unfold TopStar.useFrame. rewrite M, L, Mt.
  cbn [option_map].
  assert (Hn : 0 <= TopStar.newFactor_of state dt o <= 1).
  { unfold TopStar.newFactor_of, TopStar.speed.
    apply lerp_unit; [exact Hw | exact Hf | apply targetFactor_range]. }
  set (nf := TopStar.newFactor_of state dt o) in *.
  pose proof (SIN_bound (t * 3)) as [S1 S2].
  do 6 eexists. split; [reflexivity|].
  cbn [TopStar.meshRef TopStar.lightRef TopStar.materialRef THREE.userData_factor
       THREE.scale TopStar.intensity TopStar.emissiveIntensity].
  repeat (split; [reflexivity|]).
  unfold Math_max, THREE.lerp.
  set (p := sin (t * 3)) in *.
  assert (P1 : 0 <= (p + 1) * nf) by (apply Rmult_le_pos; lra).
  assert (P2 : 0 <= (1 - p) * nf) by (apply Rmult_le_pos; lra).
  cbn [TopStar.intensity TopStar.emissiveIntensity THREE.scale].
  rewrite Rmax_right by lra.
  split; [split; lra|]. split; [split; lra|]. split; [reflexivity|].
  assert (P3 : 0 <= (0.8 + 0.4 * nf) * (p + 1)) by (apply Rmult_le_pos; lra).
  assert (P4 : 0 <= (0.8 + 0.4 * nf) * (1 - p)) by (apply Rmult_le_pos; lra).
  fold p. split; nra.
Qed.

Lemma X14_star_glow_ranges_witness :
  exists c' o' l' m' nf s,
    TopStar.useFrame TREE_SHAPE 0 0.1 Example.star0 = Normal c' /\
    TopStar.meshRef c' = Some o' /\
    TopStar.lightRef c' = Some l' /\
    TopStar.materialRef c' = Some m' /\
    THREE.userData_factor o' = Some nf /\
    15 * nf <= TopStar.intensity l' <= 25 * nf /\
    0.5 + 3 * nf <= TopStar.emissiveIntensity m' <= 0.5 + 6 * nf /\
    THREE.scale o' = THREE.setScalar s /\
    0.95 * (0.8 + 0.4 * nf) <= s <= 1.05 * (0.8 + 0.4 * nf).
Proof.
  apply (@X14_star_glow_ranges TREE_SHAPE 0 0.1 Example.star0 THREE.fresh_object
           {| TopStar.intensity := 1 |} {| TopStar.emissiveIntensity := 1 |}).
  - reflexivity.
  - reflexivity.
  - reflexivity.
  - cbn. lra.
  - lra.
Defined.

(** X15.  The outline of the star has ten vertices; vertex [i] lies at
    distance 1.2 from the centre when [i] is even and 0.6 when it is odd, and
    vertex 0 is the point (0, -1.2). *)
Theorem X15_star_outline :
  List.length StarShape.pts = 10%nat /\
  (forall i, (i < 10)%nat -> nth_error StarShape.pts i = Some (StarShape.point i)) /\
  (forall i,
     fst (StarShape.point i) * fst (StarShape.point i)
     + snd (StarShape.point i) * snd (StarShape.point i)
     = if Nat.even i then 1.2 * 1.2 else 0.6 * 0.6) /\
  StarShape.point 0 = (0, -1.2).
Proof.
  split; [reflexivity|]. split; [|split].
  - intros i Hi. unfold StarShape.pts.
    rewrite nth_error_map, nth_error_seq.
    change (StarShape.numPoints * 2)%nat with 10%nat.
    destruct (Nat.ltb_spec i 10) as [_|Hge]; [reflexivity | lia].
  - intros i. unfold StarShape.point. cbn [fst snd].
    set (a := INR i / INR (StarShape.numPoints * 2) * PI * 2 - PI / 2).
    pose proof (sin2_cos2 a) as H. unfold Rsqr in H.
    unfold StarShape.outerRadius, StarShape.innerRadius.
    destruct (Nat.even i); nra.
  - unfold StarShape.point. cbn [Nat.even INR].
    replace (0 / INR (StarShape.numPoints * 2) * PI * 2 - PI / 2) with (- (PI / 2))
      by (unfold Rdiv; ring).
    rewrite cos_neg, sin_neg, cos_PI2, sin_PI2.
    unfold StarShape.outerRadius. f_equal; lra.
Qed.

Lemma X15_star_outline_witness :
  nth_error StarShape.pts 3 = Some (StarShape.point 3).
Proof.
  apply (proj1 (proj2 X15_star_outline) 3%nat). lia.
Defined.

End StarFacts.

(** ** The logo elements *)

Section LogoFacts.

Import JS.
Local Open Scope R_scope.

(** X16.  Mounting a logo element takes seven draws; with draws in [0, 1)
    its scatter position lies in the box [-22.5, 22.5) x [-17.5, 17.5) x
    [-10, 10), each rotation speed in [0, 0.5) and the phase in [0, 10); the
    element keeps the offset it was given and has no render object yet. *)
Theorem X16_logo_scatter_ranges offset g :
  Draws.in_unit g ->
  let c := fst (LogoElement.mount offset g) in
  let sc := LogoElement.scatterConfig c in
  (-22.5 <= THREE.x (LogoElement.pos sc) < 22.5 /\
   -17.5 <= THREE.y (LogoElement.pos sc) < 17.5 /\
   -10 <= THREE.z (LogoElement.pos sc) < 10) /\
  (0 <= THREE.x (LogoElement.rotSpeed sc) < 0.5 /\
   0 <= THREE.y (LogoElement.rotSpeed sc) < 0.5 /\
   0 <= THREE.z (LogoElement.rotSpeed sc) < 0.5) /\
  0 <= LogoElement.randomPhase sc < 10 /\
  LogoElement.targetOffset c = offset /\
  LogoElement.meshRef c = None /\
  cursor (snd (LogoElement.mount offset g)) = (cursor g + 7)%N.
Proof.
  intros Hu. cbn zeta.
  unfold LogoElement.mount, LogoElement.compute_scatterConfig, Math_random.
  cbn [fst snd LogoElement.scatterConfig LogoElement.pos LogoElement.rotSpeed
       LogoElement.randomPhase LogoElement.targetOffset LogoElement.meshRef
       THREE.x THREE.y THREE.z draws cursor].
  pose proof (Hu (cursor g)).
  pose proof (Hu (N.succ (cursor g))).
  pose proof (Hu (N.succ (N.succ (cursor g)))).
  pose proof (Hu (N.succ (N.succ (N.succ (cursor g))))).
  pose proof (Hu (N.succ (N.succ (N.succ (N.succ (cursor g)))))).
  pose proof (Hu (N.succ (N.succ (N.succ (N.succ (N.succ (cursor g))))))).
  pose proof (Hu (N.succ (N.succ (N.succ (N.succ (N.succ (N.succ (cursor g)))))))).
  repeat split; try lra; try reflexivity. lia.
Qed.

Lemma X16_logo_scatter_ranges_witness :
  let c := fst (LogoElement.mount (THREE.Vec3 0 (-0.6) 0) Example.half_rng) in
  let sc := LogoElement.scatterConfig c in
  (-22.5 <= THREE.x (LogoElement.pos sc) < 22.5 /\
   -17.5 <= THREE.y (LogoElement.pos sc) < 17.5 /\
   -10 <= THREE.z (LogoElement.pos sc) < 10) /\
  (0 <= THREE.x (LogoElement.rotSpeed sc) < 0.5 /\
   0 <= THREE.y (LogoElement.rotSpeed sc) < 0.5 /\
   0 <= THREE.z (LogoElement.rotSpeed sc) < 0.5) /\
  0 <= LogoElement.randomPhase sc < 10 /\
  LogoElement.targetOffset c = THREE.Vec3 0 (-0.6) 0 /\
  LogoElement.meshRef c = None /\
  cursor (snd (LogoElement.mount (THREE.Vec3 0 (-0.6) 0) Example.half_rng))
  = (cursor Example.half_rng + 7)%N.
Proof.
  apply (@X16_logo_scatter_ranges (THREE.Vec3 0 (-0.6) 0) Example.half_rng).
  intros k. cbn. lra.
Defined.

(** X17.  A frame of a mounted logo element returns; the position it writes
    has the x and z of the blend between the scatter position and the final
    tree position at the stored factor, its y is within 0.002 of the blend's
    and is exactly the blend's when the factor is at most 0.8; the scale of
    the element is never written. *)
Theorem X17_logo_bob state t dt c o :
  LogoElement.meshRef c = Some o ->
  exists c' o' nf,
    LogoElement.useFrame state t dt c = Normal c' /\
    LogoElement.meshRef c' = Some o' /\
    THREE.userData_factor o' = Some nf /\
    THREE.scale o' = THREE.scale o /\
    let base := THREE.lerpVectors (LogoElement.pos (LogoElement.scatterConfig c))
                                  (LogoElement.finalTreePos c) nf in
    THREE.x (THREE.position o') = THREE.x base /\
    THREE.z (THREE.position o') = THREE.z base /\
    Rabs (THREE.y (THREE.position o') - THREE.y base) <= 0.002 /\
    (nf <= 0.8 -> THREE.position o' = base).
Proof.
  intros M. unfold LogoElement.useFrame. rewrite M.
  do 3 eexists. split; [reflexivity|].
  cbn [LogoElement.meshRef THREE.userData_factor THREE.scale THREE.position].
  repeat (split; [reflexivity|]). cbn zeta.
  set (nf := LogoElement.newFactor_of state dt o).
  destruct (Rlt_dec 0.8 nf) as [Hgt|Hle];
    cbn [THREE.position THREE.x THREE.y THREE.z].
  - split; [reflexivity|]. split; [reflexivity|]. split; [|intros; lra].
    match goal with |- Rabs (?p + ?q - ?p') <= _ => replace (p + q - p') with q by ring end.
    rewrite Rabs_mult, (Rabs_right 0.002) by lra.
    match goal with |- Rabs (sin ?a) * _ <= _ =>
      pose proof (SIN_bound a) as HS; assert (Rabs (sin a) <= 1) by (apply Rabs_le; lra)
    end.
    lra.
  - split; [reflexivity|]. split; [reflexivity|]. split; [|reflexivity].
    rewrite Rminus_diag, Rabs_R0. lra.
Qed.

Lemma X17_logo_bob_witness :
  exists c' o' nf,
    LogoElement.useFrame TREE_SHAPE 0 0.1 Example.logo0 = Normal c' /\
    LogoElement.meshRef c' = Some o' /\
    THREE.userData_factor o' = Some nf /\
    THREE.scale o' = THREE.scale THREE.fresh_object /\
    let base := THREE.lerpVectors (LogoElement.pos (LogoElement.scatterConfig Example.logo0))
                                  (LogoElement.finalTreePos Example.logo0) nf in
    THREE.x (THREE.position o') = THREE.x base /\
    THREE.z (THREE.position o') = THREE.z base /\
    Rabs (THREE.y (THREE.position o') - THREE.y base) <= 0.002 /\
    (nf <= 0.8 -> THREE.position o' = base).
Proof.
  apply (@X17_logo_bob TREE_SHAPE 0 0.1 Example.logo0 THREE.fresh_object).
  reflexivity.
Defined.

End LogoFacts.

(** ** The snow field *)

Section SnowFacts.

Import JS.
Local Open Scope R_scope.

Lemma make_particles_S n g :
  FloatingSnow.make_particles (S n) g
  = (fst (FloatingSnow.make_particle g)
       :: fst (FloatingSnow.make_particles n (snd (FloatingSnow.make_particle g))),
     snd (FloatingSnow.make_particles n (snd (FloatingSnow.make_particle g)))).
Proof.
  cbn [FloatingSnow.make_particles].
  destruct (FloatingSnow.make_particle g) as [p g1]. cbn [fst snd].
  now destruct (FloatingSnow.make_particles n g1).
Qed.

Lemma make_particles_length n : forall g,
  List.length (fst (FloatingSnow.make_particles n g)) = n.
Proof.
  induction n as [|n IH]; intros g; [reflexivity|].
  rewrite make_particles_S. cbn [fst List.length]. now rewrite IH.
Qed.

Lemma make_particles_in n : forall g p,
  In p (fst (FloatingSnow.make_particles n g)) ->
  exists g', p = fst (FloatingSnow.make_particle g') /\ draws g' = draws g.
Proof.
  induction n as [|n IH]; intros g p Hin; [contradiction|].
  rewrite make_particles_S in Hin. destruct Hin as [<-|Hin].
  - exists g. now split.
  - destruct (IH _ _ Hin) as (g' & Hp & Hd). exists g'. split; [exact Hp|].
    rewrite Hd. reflexivity.
Qed.

Lemma make_particle_ranges g :
  Draws.in_unit g -> SnowField.in_ranges (fst (FloatingSnow.make_particle g)).
Proof.
  intros Hu. unfold SnowField.in_ranges, FloatingSnow.make_particle, Math_random.
  cbn [fst FloatingSnow.x FloatingSnow.y FloatingSnow.z FloatingSnow.speed
       FloatingSnow.wobbleSpeed FloatingSnow.wobbleRadius FloatingSnow.randomOffset
       FloatingSnow.scale draws cursor].
  pose proof (Hu (cursor g)).
  pose proof (Hu (N.succ (cursor g))).
  pose proof (Hu (N.succ (N.succ (cursor g)))).
  pose proof (Hu (N.succ (N.succ (N.succ (cursor g))))).
  pose proof (Hu (N.succ (N.succ (N.succ (N.succ (cursor g)))))).
  pose proof (Hu (N.succ (N.succ (N.succ (N.succ (N.succ (cursor g))))))).
  pose proof (Hu (N.succ (N.succ (N.succ (N.succ (N.succ (N.succ (cursor g)))))))).
  pose proof (Hu (N.succ (N.succ (N.succ (N.succ (N.succ (N.succ (N.succ (cursor g))))))))).
  repeat split; lra.
Qed.

Lemma snow_mount_particles g :
  FloatingSnow.particles (fst (FloatingSnow.mount g))
  = fst (FloatingSnow.make_particles FloatingSnow.count g) /\
  FloatingSnow.meshRef (fst (FloatingSnow.mount g)) = None.
Proof.
  unfold FloatingSnow.mount.
  now destruct (FloatingSnow.make_particles FloatingSnow.count g).
Qed.

Lemma particles_ranges n g p :
  Draws.in_unit g ->
  In p (fst (FloatingSnow.make_particles n g)) ->
  SnowField.in_ranges p.
Proof.
  intros Hu Hin.
  destruct (make_particles_in _ _ _ Hin) as (g' & -> & Hd).
  apply make_particle_ranges. exact (@in_unit_same g g' Hd Hu).
Qed.

(** X18.  Mounting the snow field takes 16000 draws and makes 2000
    particles; with draws in [0, 1) every particle has x and y in [-50, 50),
    z in [-40, 20), speed in [0.02, 0.07), wobble speed in [0.5, 1.5), wobble
    radius in [0.5, 2), offset in [0, 100) and scale in [0.1, 0.5); the mesh
    ref is still null. *)
Theorem X18_snow_particles g :
  Draws.in_unit g ->
  let c := fst (FloatingSnow.mount g) in
  List.length (FloatingSnow.particles c) = 2000%nat /\
  (forall p, In p (FloatingSnow.particles c) -> SnowField.in_ranges p) /\
  FloatingSnow.meshRef c = None /\
  cursor (snd (FloatingSnow.mount g)) = (cursor g + 16000)%N.
Proof.
  intros Hu. cbn zeta. split; [|split; [|split]].
  - rewrite (proj1 (snow_mount_particles g)). apply make_particles_length.
  - intros p Hin. rewrite (proj1 (snow_mount_particles g)) in Hin.
    exact (@particles_ranges FloatingSnow.count g p Hu Hin).
  - apply snow_mount_particles.
  - apply snow_mount_rng.
Qed.

Lemma X18_snow_particles_witness :
  let c := fst (FloatingSnow.mount Example.half_rng) in
  List.length (FloatingSnow.particles c) = 2000%nat /\
  (forall p, In p (FloatingSnow.particles c) -> SnowField.in_ranges p) /\
  FloatingSnow.meshRef c = None /\
  cursor (snd (FloatingSnow.mount Example.half_rng)) = (cursor Example.half_rng + 16000)%N.
Proof.
  apply (@X18_snow_particles Example.half_rng).
  intros k. cbn. lra.
Defined.

(** X19.  From 1000 seconds on, a particle whose fields are in the ranges
    of the mounted field is written at a height in (-150, -50]: below the
    band it started in, and it never comes back. *)
Theorem X19_snow_sinks_below_band p t :
  SnowField.in_ranges p ->
  1000 <= t ->
  -150 < FloatingSnow.loopY p t <= -50 /\
  -150 < THREE.y (THREE.m_position (FloatingSnow.particle_matrix t p)) <= -50.
Proof.
  intros (_ & Hy & _ & Hs & _) Ht.
  assert (H : -150 < FloatingSnow.loopY p t <= -50)
    by (apply loopY_after_first_pass; nra).
  split; exact H.
Qed.

Lemma X19_snow_sinks_below_band_witness :
  -150 < FloatingSnow.loopY Example.particle0 1000 <= -50 /\
  -150 < THREE.y (THREE.m_position
                    (FloatingSnow.particle_matrix 1000 Example.particle0)) <= -50.
Proof.
  apply (@X19_snow_sinks_below_band Example.particle0 1000).
  - apply make_particle_ranges. intros k. cbn. lra.
  - lra.
Defined.

(** The whole effect of the [forEach] loop of the snow field. *)
Lemma snow_forEach_eq t ps : forall i ps0 mesh,
  FloatingSnow.forEach t i ps (FloatingSnow.Instance ps0 (Some mesh))
  = Normal (FloatingSnow.Instance ps0
              (Some (Buffer.written (fun _ => FloatingSnow.particle_matrix t) i ps mesh))).
Proof.
  induction ps as [|p rest IH]; intros i ps0 mesh.
  - cbn [FloatingSnow.forEach]. now rewrite written_nil.
  - cbn [FloatingSnow.forEach FloatingSnow.meshRef deref bind].
    unfold FloatingSnow.set_meshRef. cbn [FloatingSnow.particles].
    rewrite IH. reflexivity.
Qed.

Lemma snow_useFrame_eq t ps mesh :
  FloatingSnow.useFrame t (FloatingSnow.Instance ps (Some mesh))
  = Normal (FloatingSnow.Instance ps
              (Some (THREE.set_needsUpdate
                       (Buffer.written (fun _ => FloatingSnow.particle_matrix t) 0 ps mesh)))).
Proof.
  unfold FloatingSnow.useFrame. cbn [FloatingSnow.meshRef FloatingSnow.particles].
  rewrite snow_forEach_eq. reflexivity.
Qed.

(** X20.  The snow field keeps no memory of earlier frames: a frame at time
    [t'] leaves the field in the same state whether or not a frame at time
    [t] ran before it, and neither frame throws. *)
Theorem X20_snow_frame_forgets t t' c :
  (exists c', FloatingSnow.useFrame t c = Normal c') /\
  bind (FloatingSnow.useFrame t c) (FloatingSnow.useFrame t')
  = FloatingSnow.useFrame t' c.
Proof.
  destruct c as [ps [mesh|]].
  - rewrite !snow_useFrame_eq. split; [eexists; reflexivity|].
    cbn [bind]. rewrite snow_useFrame_eq. do 3 f_equal.
    unfold Buffer.written, Buffer.with_matrices.
    cbn [THREE.set_needsUpdate THREE.instanceMatrix THREE.im_factor THREE.needsUpdate].
    now rewrite write_all_twice.
  - split; [eexists; reflexivity|]. reflexivity.
Qed.

(** X21.  A frame of the snow field whose mesh exists returns, marks the
    buffer for upload and keeps its length; the matrix of a particle that has
    a slot is at most the particle's wobble radius away from the particle's
    own x and z, has the looped height, tilts by at most 0.5 about x and y,
    and has the particle's scale on all three axes. *)
Theorem X21_snow_frame_writes t c mesh k p :
  FloatingSnow.meshRef c = Some mesh ->
  nth_error (FloatingSnow.particles c) k = Some p ->
  (k < List.length (THREE.instanceMatrix mesh))%nat ->
  exists c' mesh' m,
    FloatingSnow.useFrame t c = Normal c' /\
    FloatingSnow.particles c' = FloatingSnow.particles c /\
    FloatingSnow.meshRef c' = Some mesh' /\
    THREE.needsUpdate mesh' = true /\
    List.length (THREE.instanceMatrix mesh') = List.length (THREE.instanceMatrix mesh) /\
    nth_error (THREE.instanceMatrix mesh') k = Some m /\
    Rabs (THREE.x (THREE.m_position m) - FloatingSnow.x p) <= Rabs (FloatingSnow.wobbleRadius p) /\
    Rabs (THREE.z (THREE.m_position m) - FloatingSnow.z p) <= Rabs (FloatingSnow.wobbleRadius p) /\
    THREE.y (THREE.m_position m) = FloatingSnow.loopY p t /\
    Rabs (THREE.ex (THREE.m_rotation m)) <= 0.5 /\
    Rabs (THREE.ey (THREE.m_rotation m)) <= 0.5 /\
    THREE.m_scale m = THREE.setScalar (FloatingSnow.scale p).
Proof.
  intros M Hk Hlen. destruct c as [ps mref]. cbn in M, Hk. subst mref.
  exists (FloatingSnow.Instance ps
            (Some (THREE.set_needsUpdate
                     (Buffer.written (fun _ => FloatingSnow.particle_matrix t) 0 ps mesh)))),
         (THREE.set_needsUpdate
            (Buffer.written (fun _ => FloatingSnow.particle_matrix t) 0 ps mesh)),
         (FloatingSnow.particle_matrix t p).
  split; [apply snow_useFrame_eq|].
  do 3 (split; [reflexivity|]).
  cbn [THREE.set_needsUpdate THREE.instanceMatrix Buffer.written Buffer.with_matrices].
  split; [apply length_write_all|].
  split.
  { exact (@nth_error_write_all _ _ (fun _ => FloatingSnow.particle_matrix t) ps 0%nat
             (THREE.instanceMatrix mesh) k p Hk Hlen). }
  unfold FloatingSnow.particle_matrix.
  cbn [THREE.m_position THREE.m_rotation THREE.m_scale THREE.x THREE.y THREE.z
       THREE.ex THREE.ey].
  assert (B : forall a r, Rabs a <= 1 -> Rabs (a * r) <= Rabs r).
  { intros a r Ha. rewrite Rabs_mult. pose proof (Rabs_pos r). nra. }
  assert (Bs : forall a, Rabs (sin a) <= 1)
    by (intros a; apply Rabs_le; pose proof (SIN_bound a); lra).
  assert (Bc : forall a, Rabs (cos a) <= 1)
    by (intros a; apply Rabs_le; pose proof (COS_bound a); lra).
  repeat split.
  - match goal with |- Rabs (?a + ?q - ?a) <= _ => replace (a + q - a) with q by ring end.
    apply B, Bs.
  - match goal with |- Rabs (?a + ?q - ?a) <= _ => replace (a + q - a) with q by ring end.
    apply B, Bc.
  - rewrite Rabs_mult, (Rabs_right 0.5) by lra.
    pose proof (Bs (t * 0.5 + FloatingSnow.randomOffset p)). lra.
  - rewrite Rabs_mult, (Rabs_right 0.5) by lra.
    pose proof (Bc (t * 0.3 + FloatingSnow.randomOffset p)). lra.
Qed.

Lemma X21_snow_frame_writes_witness :
  exists c' mesh' m,
    FloatingSnow.useFrame 1 (FloatingSnow.Instance [Example.particle0]
                               (Some (THREE.new_InstancedMesh 1))) = Normal c' /\
    FloatingSnow.particles c' = [Example.particle0] /\
    FloatingSnow.meshRef c' = Some mesh' /\
    THREE.needsUpdate mesh' = true /\
    List.length (THREE.instanceMatrix mesh') = 1%nat /\
    nth_error (THREE.instanceMatrix mesh') 0 = Some m /\
    Rabs (THREE.x (THREE.m_position m) - FloatingSnow.x Example.particle0)
    <= Rabs (FloatingSnow.wobbleRadius Example.particle0) /\
    Rabs (THREE.z (THREE.m_position m) - FloatingSnow.z Example.particle0)
    <= Rabs (FloatingSnow.wobbleRadius Example.particle0) /\
    THREE.y (THREE.m_position m) = FloatingSnow.loopY Example.particle0 1 /\
    Rabs (THREE.ex (THREE.m_rotation m)) <= 0.5 /\
    Rabs (THREE.ey (THREE.m_rotation m)) <= 0.5 /\
    THREE.m_scale m = THREE.setScalar (FloatingSnow.scale Example.particle0).
Proof.
  apply (@X21_snow_frame_writes 1
           (FloatingSnow.Instance [Example.particle0] (Some (THREE.new_InstancedMesh 1)))
           (THREE.new_InstancedMesh 1) 0%nat Example.particle0).
  - reflexivity.
  - reflexivity.
  - cbn. lia.
Defined.

(** Below zero, lowering the dividend by the divisor leaves the remainder. *)
Lemma rem_shift a : a < 0 -> rem (a - 100) 100 = rem a 100.
Proof.
  intros Ha. unfold rem, trunc.
  destruct (Rlt_dec ((a - 100) / 100) 0) as [_|Hn]; [|lra].
  destruct (Rlt_dec (a / 100) 0) as [_|Hn]; [|lra].
  pose proof (Zceil_bound (a / 100)) as [H1 H2].
  rewrite (Zceil_eq (Zceil (a / 100) - 1) ((a - 100) / 100)).
  - rewrite minus_IZR. lra.
  - rewrite minus_IZR. lra.
Qed.

(** X25.  Once the drift has carried a particle that falls (speed above 0)
    below the lower edge of the band, the height written for it repeats every
    [20 / speed] seconds. *)
Theorem X25_snow_height_periodic p t :
  0 < FloatingSnow.speed p ->
  FloatingSnow.y p - t * FloatingSnow.speed p * 5 < -50 ->
  FloatingSnow.loopY p (t + 20 / FloatingSnow.speed p) = FloatingSnow.loopY p t.
Proof.
  intros Hs Hy. unfold FloatingSnow.loopY.
  replace (FloatingSnow.y p - (t + 20 / FloatingSnow.speed p) * FloatingSnow.speed p * 5
           + 100 / 2)
    with (FloatingSnow.y p - t * FloatingSnow.speed p * 5 + 100 / 2 - 100)
    by (field; lra).
  rewrite rem_shift by lra. reflexivity.
Qed.

Lemma X25_snow_height_periodic_witness :
  FloatingSnow.loopY Example.particle0 (1000 + 20 / FloatingSnow.speed Example.particle0)
  = FloatingSnow.loopY Example.particle0 1000.
Proof.
  apply (@X25_snow_height_periodic Example.particle0 1000).
  - destruct particle0_fields as [_ ->]. lra.
  - destruct particle0_fields as [-> ->]. lra.
Defined.

End SnowFacts.

(** ** The record button *)

Section RecordFacts.

Import RecordButton.

(** X22.  The type [startRecording] selects is an entry of its preference
    list, every entry before it is unsupported, and it is supported whenever
    some entry is; when no entry is supported it is the last one. *)
Theorem X22_mime_type_selection (isTypeSupported : String.string -> bool) :
  let selected := selectMimeType isTypeSupported in
  (exists pre post,
     mimeTypes = pre ++ selected :: post /\
     forall type, In type pre -> isTypeSupported type = false) /\
  (forall type, In type mimeTypes -> isTypeSupported type = true ->
     isTypeSupported selected = true) /\
  ((forall type, In type mimeTypes -> isTypeSupported type = false) ->
   Some selected = nth_error mimeTypes 2).
Proof.
  cbn zeta. unfold selectMimeType, mimeTypes. cbn [first_supported].
  match goal with |- context [if isTypeSupported ?a then _ else if isTypeSupported ?b
                              then _ else if isTypeSupported ?c then _ else _] =>
    destruct (isTypeSupported a) eqn:E1;
    [|destruct (isTypeSupported b) eqn:E2; [|destruct (isTypeSupported c) eqn:E3]]
  end.
  - split; [|split].
    + exists (firstn 0 mimeTypes), (skipn 1 mimeTypes).
      split; [reflexivity|]. intros type [].
    + intros _ _ _. exact E1.
    + intros H. rewrite H in E1; [discriminate | now left].
  - split; [|split].
    + exists (firstn 1 mimeTypes), (skipn 2 mimeTypes).
      split; [reflexivity|]. intros type [<-|[]]. exact E1.
    + intros _ _ _. exact E2.
    + intros H. rewrite H in E2; [discriminate | right; now left].
  - split; [|split].
    + exists (firstn 2 mimeTypes), (skipn 3 mimeTypes).
      split; [reflexivity|]. intros type [<-|[<-|[]]]; assumption.
    + intros _ _ _. exact E3.
    + intros _. reflexivity.
  - split; [|split].
    + exists (firstn 2 mimeTypes), (skipn 3 mimeTypes).
      split; [reflexivity|]. intros type [<-|[<-|[]]]; assumption.
    + intros type [<-|[<-|[<-|[]]]] H; congruence.
    + intros _. reflexivity.
Qed.

Lemma X22_mime_type_selection_witness :
  Some (selectMimeType (fun _ => false)) = nth_error mimeTypes 2.
Proof.
  apply (proj2 (proj2 (X22_mime_type_selection (fun _ => false)))).
  intros type _. reflexivity.
Defined.

(** Until the [stop] event arrives the button stays taken: clicks do nothing,
    every non-empty blob is appended to the chunk buffer, and the recorder is
    inactive from the first firing of the timeout on. *)
Lemma fold_handle isTypeSupported events : forall r c,
  Forall (fun e => e <> Stopped) events ->
  isRecording c = true ->
  fold_left (handle isTypeSupported) events (r, c)
  = (if existsb is_timeout events then onTimeout r else r,
     Component true
       (chunksRef c ++ filter (fun b => (0 <? size b)%N) (delivered events))
       (downloads c)).
Proof.
  induction events as [|e rest IH]; intros r c Hs H.
  - cbn. rewrite app_nil_r. destruct c; cbn in *; now subst.
  - inversion Hs as [|? ? He Hrest]; subst.
    cbn [fold_left existsb]. destruct e as [b| | |]; [| | |congruence].
    + cbn [handle fst snd is_timeout orb]. unfold ondataavailable at 1.
      cbn [delivered flat_map app filter].
      destruct (0 <? size b)%N.
      * rewrite IH by (exact Hrest || exact H). cbn [chunksRef downloads].
        now rewrite <- app_assoc.
      * apply IH; assumption.
    + cbn [handle snd is_timeout orb]. rewrite H. apply IH; assumption.
    + cbn [handle fst snd is_timeout orb]. rewrite IH by assumption.
      f_equal. unfold onTimeout, stop. destruct r as [[|] mt]; cbn;
        destruct (existsb is_timeout rest); reflexivity.
Qed.

(** X23.  A recording, from the click that starts it to the [stop] event of
    its recorder, whatever the environment does in between (data, clicks and
    firings of the timeout in any order, no second [stop] event).  Until the
    [stop] event the button stays taken, and the recorder is inactive exactly
    when the timeout has fired.  At the [stop] event one file is offered for
    download, of the selected type and made of the chunks that were already
    buffered followed by the non-empty blobs in the order they arrived,
    whether they arrived before or after the timeout called [stop()]; the
    buffer is emptied and the button released; a later firing of the timeout
    does nothing. *)
Theorem X23_recording_session isTypeSupported events c :
  Forall (fun e => e <> Stopped) events ->
  let before := record isTypeSupported events c in
  let after := record isTypeSupported (events ++ [Stopped]) c in
  isRecording (snd before) = true /\
  state (fst before) = (if existsb is_timeout events then inactive else recording) /\
  downloads (snd before) = downloads c /\
  state (fst after) = inactive /\
  mimeType (fst after) = selectMimeType isTypeSupported /\
  isRecording (snd after) = false /\
  chunksRef (snd after) = [] /\
  downloads (snd after)
  = downloads c
    ++ [(selectMimeType isTypeSupported,
         chunksRef c ++ filter (fun b => (0 <? size b)%N) (delivered events))] /\
  handle isTypeSupported after Timeout = after.
Proof.
  intros Hs. cbn zeta. unfold record. rewrite fold_left_app.
  unfold startRecording. rewrite (@fold_handle isTypeSupported events _ _ Hs) by reflexivity.
  cbn [fold_left handle fst snd isRecording chunksRef downloads onstop].
  destruct (existsb is_timeout events);
    cbn [onTimeout stop state mimeType]; repeat split.
Qed.

Lemma X23_recording_session_witness :
  let blob := {| size := 3; bytes := [] |} in
  let before := record (fun _ => true) [Click; Timeout; Click; Data blob] initial in
  let after := record (fun _ => true) [Click; Timeout; Click; Data blob; Stopped] initial in
  Forall (fun e => e <> Stopped) [Click; Timeout; Click; Data blob] /\
  isRecording (snd before) = true /\
  state (fst before) = inactive /\
  state (fst after) = inactive /\
  isRecording (snd after) = false /\
  chunksRef (snd after) = [] /\
  downloads (snd after) = [(selectMimeType (fun _ => true), [blob])].
Proof.
  cbn zeta.
  assert (Hs : Forall (fun e => e <> Stopped)
                 [Click; Timeout; Click; Data {| size := 3; bytes := [] |}])
    by (repeat constructor; discriminate).
  destruct (@X23_recording_session (fun _ => true)
              [Click; Timeout; Click; Data {| size := 3; bytes := [] |}] initial Hs)
    as (H1 & H2 & _ & H4 & _ & H6 & H7 & H8 & _).
  split; [exact Hs|]. split; [exact H1|]. split; [exact H2|]. split; [exact H4|].
  split; [exact H6|]. split; [exact H7|exact H8].
Defined.

End RecordFacts.

(** ** Renders of the scene after the first *)

Section RerenderFacts.

Import JS.

Lemma group_render_refs cfg c g :
  MorphingGroup.meshRef (fst (MorphingGroup.render cfg c g)) = MorphingGroup.meshRef c.
Proof.
  unfold MorphingGroup.render. destruct (Pos.eqb _ _); [reflexivity|].
  now destruct (MorphingGroup.compute_data (snd cfg) g).
Qed.

Lemma render_groups_inv lits : forall cs next g,
  List.length cs = List.length lits ->
  Forall (fun c => (MorphingGroup.data_deps c < next)%positive) cs ->
  let r := Scene.render_groups lits cs next g in
  (next <= snd (fst r))%positive /\
  Forall (fun c => (MorphingGroup.data_deps c < snd (fst r))%positive) (fst (fst r)) /\
  map MorphingGroup.meshRef (fst (fst r)) = map MorphingGroup.meshRef cs.
Proof.
  induction lits as [|lit lits IH]; intros [|c cs] next g Hlen Hf; try discriminate.
  - cbn. repeat split; [lia | constructor].
  - rewrite render_groups_cons. cbn zeta. cbn [fst snd].
    inversion Hf as [|? ? Hc Hcs]; subst.
    assert (Hcs' : Forall (fun c => (MorphingGroup.data_deps c < Pos.succ next)%positive) cs).
    { eapply Forall_impl; [|exact Hcs]. cbn. intros; lia. }
    destruct (IH cs (Pos.succ next) (snd (MorphingGroup.render (next, lit) c g)))
      as (Hn & Hf' & Hm); [cbn in Hlen; lia | exact Hcs' |].
    destruct (@group_render_miss (next, lit) c g) as (_ & Hdeps & _); [cbn; lia|].
    cbn [fst] in Hdeps.
    split; [lia|]. split.
    + constructor; [rewrite Hdeps; lia | exact Hf'].
    + cbn [map]. now rewrite group_render_refs, Hm.
Qed.

Lemma scene_render_fields t :
  let r := Scene.render_groups Scene.config_literals (Scene.groups t)
             (Scene.next_object t) (Scene.rng t) in
  Scene.next_object (Scene.render t) = snd (fst r) /\
  Scene.star (Scene.render t) = Scene.star t /\
  Scene.logo (Scene.render t) = Scene.logo t /\
  Scene.snow (Scene.render t) = Scene.snow t.
Proof.
  cbn zeta. unfold Scene.render.
  destruct (Scene.render_groups _ _ _ _) as [[gs next] g1]. now repeat split.
Qed.

Lemma scene_mount_fresh g : Rerender.fresh (Scene.mount g).
Proof.
  destruct (scene_mount_spec g) as (Hg0 & Hn0 & _).
  destruct (mount_groups_spec Scene.config_literals 1%positive g)
    as (_ & _ & Hlen & _ & Hf).
  rewrite <- Hg0, <- Hn0 in Hf. rewrite <- Hg0 in Hlen. now split.
Qed.

Lemma scene_render_fresh t :
  Rerender.fresh t ->
  Rerender.fresh (Scene.render t) /\
  draws (Scene.rng (Scene.render t)) = draws (Scene.rng t) /\
  cursor (Scene.rng (Scene.render t)) = (cursor (Scene.rng t) + 13800)%N /\
  map MorphingGroup.meshRef (Scene.groups (Scene.render t))
  = map MorphingGroup.meshRef (Scene.groups t).
Proof.
  intros [Hlen Hf].
  destruct (scene_render_spec t) as (Hg & Hr).
  destruct (scene_render_fields t) as (Hn & _).
  destruct (@render_groups_spec Scene.config_literals (Scene.groups t)
              (Scene.next_object t) (Scene.rng t) Hlen Hf) as (Hd & Hc & Hl).
  destruct (@render_groups_inv Scene.config_literals (Scene.groups t)
              (Scene.next_object t) (Scene.rng t) Hlen Hf) as (_ & Hf' & Hm).
  rewrite <- Hr in Hd, Hc. rewrite <- Hg in Hl, Hf', Hm. rewrite <- Hn in Hf'.
  rewrite total_instances_scene in Hc.
  split; [split; assumption|]. split; [exact Hd|].
  split; [rewrite Hc; lia | exact Hm].
Qed.

(** X24.  Every render of the scene after the first computes all nine
    layouts again: after [n] such renders the scene has called [Math.random]
    [29844 + 13800 * n] times.  The groups keep the meshes they had (and with
    them the stored factors); the star, the logo elements and the snow field
    are untouched. *)
Theorem X24_every_rerender_regenerates g n :
  let t0 := Scene.mount g in
  let t := Rerender.times n t0 in
  Rerender.fresh t /\
  draws (Scene.rng t) = draws g /\
  cursor (Scene.rng t) = (cursor g + 29844 + 13800 * N.of_nat n)%N /\
  map MorphingGroup.meshRef (Scene.groups t) = map MorphingGroup.meshRef (Scene.groups t0) /\
  Scene.star t = Scene.star t0 /\
  Scene.logo t = Scene.logo t0 /\
  Scene.snow t = Scene.snow t0.
Proof.
  cbn zeta. induction n as [|n IH].
  - cbn [Rerender.times].
    destruct (scene_mount_spec g) as (_ & _ & Hd & Hc).
    split; [apply scene_mount_fresh|].
    split; [exact Hd|]. split; [rewrite Hc; lia|]. now repeat split.
  - destruct IH as (Hfresh & Hd & Hc & Hm & Hs & Hl & Hsn).
    cbn [Rerender.times].
    destruct (scene_render_fresh Hfresh) as (Hfresh' & Hd' & Hc' & Hm').
    destruct (scene_render_fields (Rerender.times n (Scene.mount g)))
      as (_ & Hs' & Hl' & Hsn').
    split; [exact Hfresh'|].
    split; [congruence|]. split; [rewrite Hc', Hc; lia|].
    split; [congruence|]. split; [congruence|]. split; congruence.
Qed.

End RerenderFacts.
